(** * ENB build engine: node target registry, file lists, cache-aware technologies

    A shallow embedding of four parts of the ENB sources:

    - [lib/file-list.js]   (module [FileList]),
    - [lib/node]           (module [NodeModel], the per-node target registry),
    - [techs/bemdecl-merge] and [techs/deps] (module [Techs], the two
      cache-aware build routines),
    - the build entry point of the API (module [MakeApi]).

    Conventions of the embedding.

    - Methods that change the node are computations in a state and
      exception monad over the node record; a method that throws yields
      [Throw] together with the state it leaves behind.
    - JavaScript objects used as dictionaries are finite maps or, where
      the order of [Object.keys] is observable, insertion-ordered
      association lists of their own properties.  A lookup in such an
      object also finds the members it inherits from [Object.prototype]:
      the file list and [hasRegisteredTarget] model that; the entries of
      the node's target registry are modelled for names that are no such
      members ([own_name]).
    - A promise of the Vow library is modelled by the settlement state of
      its deferred, which changes at most once; values passed to
      [resolve] are plain (not thenables).  [Vow.all] is rejected with the
      reason of the first of its inputs that is rejected when it is
      called.  What [build()] does after it has returned (the [then] and
      [fail] callbacks) reaches the node as later calls of its methods;
      the handler that [requireSources] installs on the promise of a build
      routine is [when_build_fails].
    - A technology is given by its name, its targets and the calls its
      [build()] makes on the node before it returns or throws; the
      [__started] flag of a technology is kept by the node, by the
      position of the technology in [_techs].
    - [path.join], [node.resolvePath], module loading, the dependency
      resolver and the file system are parameters.  The replacement
      patterns that [String.prototype.replace] reads from a replacement
      string are not modelled. *)

From stdpp Require Import base option list strings gmap sorting.
From Stdlib Require Import Ascii Lia.

(** ** Plain objects used as dictionaries *)

(** The property names that every object written [{}] inherits from
    [Object.prototype].  A lookup [obj[key]] finds the inherited member
    (a function, or for [__proto__] the prototype itself) although the
    object has no such key of its own; none of the members is falsy. *)
Definition Object_prototype : list string :=
  ["constructor"; "__defineGetter__"; "__defineSetter__"; "hasOwnProperty";
   "__lookupGetter__"; "__lookupSetter__"; "isPrototypeOf";
   "propertyIsEnumerable"; "toString"; "valueOf"; "__proto__";
   "toLocaleString"]%string.

Lemma elem_of_concat {A} (x : A) (ls : list (list A)) :
  x ∈ concat ls ↔ ∃ l, l ∈ ls ∧ x ∈ l.
Proof.
  induction ls as [|l0 ls IH]; simpl.
  - split; [by intros ?%elem_of_nil | by intros (l & ?%elem_of_nil & _)].
  - rewrite elem_of_app, IH. split.
    + intros [H|(l & Hl & Hx)].
      * exists l0. split; [apply list_elem_of_here | done].
      * exists l. split; [by apply list_elem_of_further | done].
    + intros (l & [->|Hl]%elem_of_cons & Hx); [by left|]. right. by exists l.
Qed.

(** ** lib/file-list.js *)

Module FileList.

(** [{ fullname, name, suffix, mtime }] *)
Record File := mkFile {
  fullname : string;
  name : string;
  suffix : string;
  mtime : Z
}.

#[global] Instance File_eq_dec : EqDecision File.
Proof. solve_decision. Defined.

(** The three fields set by [__constructor]; [bySuffix] holds the own
    properties of the object. *)
Record FileList := mkFileList {
  items : list File;
  slices : list (list File);
  bySuffix : gmap string (list File)
}.

Definition new_FileList : FileList :=
  {| items := []; slices := []; bySuffix := ∅ |}.

(** What [this.bySuffix[key]] evaluates to. *)
Inductive Property :=
| Bucket (files : list File)
| Inherited (member : string)
| Undefined.

Definition bySuffix_get (fl : FileList) (key : string) : Property :=
  match bySuffix fl !! key with
  | Some files => Bucket files
  | None => if bool_decide (key ∈ Object_prototype) then Inherited key else Undefined
  end.

(** A call returns, or throws the [TypeError] of calling [push] on a value
    that has no such method; either way it leaves a file list behind. *)
Inductive Outcome :=
| Returned (fl : FileList)
| Threw (fl : FileList).

Definition state (o : Outcome) : FileList :=
  match o with Returned fl | Threw fl => fl end.

(** Body of the [for] loop of [addFiles]:
    [this.items.push(file);
     (this.bySuffix[file.suffix] || (this.bySuffix[file.suffix] = [])).push(file)]. *)
Definition addFile (fl : FileList) (file : File) : Outcome :=
  let pushed := items fl ++ [file] in
  match bySuffix_get fl (suffix file) with
  | Bucket files =>
      Returned {| items := pushed; slices := slices fl;
                  bySuffix := <[suffix file := files ++ [file]]> (bySuffix fl) |}
  | Undefined =>
      Returned {| items := pushed; slices := slices fl;
                  bySuffix := <[suffix file := [file]]> (bySuffix fl) |}
  | Inherited _ =>
      Threw {| items := pushed; slices := slices fl; bySuffix := bySuffix fl |}
  end.

(** The loop: an exception ends it. *)
Fixpoint addFiles_loop (files : list File) (fl : FileList) : Outcome :=
  match files with
  | [] => Returned fl
  | file :: rest =>
      match addFile fl file with
      | Returned fl' => addFiles_loop rest fl'
      | Threw fl' => Threw fl'
      end
  end.

(** [addFiles(files)]: push the slice, then run the loop over it. *)
Definition addFiles (files : list File) (fl : FileList) : Outcome :=
  addFiles_loop files
    {| items := items fl;
       slices := slices fl ++ [files];
       bySuffix := bySuffix fl |}.

(** The argument of [getBySuffix] is [string|string[]]. *)
Inductive SuffixArg :=
| SuffixStr (s : string)
| SuffixArr (l : list string).

(** [suffixes.has(file.suffix)] for [suffixes = new Set(suffix)]. *)
Definition has (suffixes : list string) (s : string) : bool :=
  bool_decide (s ∈ suffixes).

(** The [slices.forEach] loop of the array branch: every slice is scanned
    in order and matching files are pushed to [res]. *)
Definition scan_slices (suffixes : list string) (sl : list (list File)) : list File :=
  fold_left
    (fun res slice =>
       fold_left (fun res file =>
                    if has suffixes (suffix file) then res ++ [file] else res)
                 slice res)
    sl [].

(** What [getBySuffix] returns: an array of files or, through
    [this.bySuffix[suffix] || []], a member of [Object.prototype]. *)
Inductive Answer :=
| Files (files : list File)
| Member (name : string).

Definition getBySuffix (arg : SuffixArg) (fl : FileList) : Answer :=
  (* if (Array.isArray(suffix) && suffix.length === 1) suffix = suffix[0] *)
  let arg' := match arg with
              | SuffixArr [s] => SuffixStr s
              | _ => arg
              end in
  match arg' with
  | SuffixArr l => Files (scan_slices l (slices fl))
  | SuffixStr s =>
      match bySuffix_get fl s with
      | Bucket files => Files files
      | Inherited member => Member member
      | Undefined => Files []
      end
  end.

(** [getByName(name)] *)
Definition getByName (nm : string) (fl : FileList) : list File :=
  filter (fun file => name file = nm) (items fl).

(** A file list as client code obtains it: the constructor followed by
    any number of [addFiles] calls, each of which returns or throws an
    exception that its caller catches. *)
Definition build (batches : list (list File)) : FileList :=
  fold_left (fun fl files => state (addFiles files fl)) batches new_FileList.

(** *** Vocabulary of the statements *)

(** Settle a closed decidable proposition by evaluation. *)
Ltac by_evaluation := apply (bool_decide_unpack _); vm_compute; exact I.

(** The suffix is no member of [Object.prototype]. *)
Definition plain (s : string) : Prop := s ∉ Object_prototype.

(** The files of a batch that the loop of [addFiles] reaches: all of them,
    or those up to the first one whose suffix is a member of
    [Object.prototype]. *)
Fixpoint reached (files : list File) : list File :=
  match files with
  | [] => []
  | file :: rest =>
      if bool_decide (suffix file ∈ Object_prototype) then [file]
      else file :: reached rest
  end.

(** The index holds the items, by suffix, and no member name. *)
Definition indexed (fl : FileList) : Prop :=
  (∀ s, s ∈ Object_prototype → bySuffix fl !! s = None) ∧
  (∀ s, plain s →
        default [] (bySuffix fl !! s) = filter (fun f => suffix f = s) (items fl)).

(** Three files for the examples, and one whose suffix is a member name. *)
Definition a_js : File := mkFile "/blocks/a.js" "a.js" "js" 1.
Definition a_css : File := mkFile "/blocks/a.css" "a.css" "css" 2.
Definition b_js : File := mkFile "/blocks/b.js" "b.js" "js" 3.
Definition a_constructor : File :=
  mkFile "/blocks/a.constructor" "a.constructor" "constructor" 4.

(** *** The index follows the item list *)

Lemma indexed_new : indexed new_FileList.
Proof. split; intros s _; simpl; by rewrite lookup_empty. Qed.

Lemma reached_sub files f : f ∈ reached files → f ∈ files.
Proof.
  induction files as [|g files IH]; [done|]. simpl.
  destruct (bool_decide (suffix g ∈ Object_prototype)).
  - intros ->%list_elem_of_singleton. left.
  - intros [->|Hf]%elem_of_cons; [left | right; auto].
Qed.

Lemma reached_plain files :
  Forall (fun f => plain (suffix f)) files → reached files = files.
Proof.
  induction 1 as [|f files Hf _ IH]; [done|]. simpl.
  rewrite bool_decide_eq_false_2 by done. by rewrite IH.
Qed.

(** One round of the loop. *)
Lemma addFile_spec fl file :
  indexed fl →
  items (state (addFile fl file)) = items fl ++ [file] ∧
  slices (state (addFile fl file)) = slices fl ∧
  indexed (state (addFile fl file)) ∧
  (addFile fl file = Threw (state (addFile fl file)) ↔
   suffix file ∈ Object_prototype) ∧
  (addFile fl file = Returned (state (addFile fl file)) ↔ plain (suffix file)).
Proof.
  intros [Hm Hp]. unfold addFile, bySuffix_get.
  destruct (decide (suffix file ∈ Object_prototype)) as [Hin|Hnot].
  - rewrite (Hm _ Hin), bool_decide_eq_true_2 by done. simpl.
    split_and!; [done | done | | done | ].
    + split; [done|]. simpl. intros s Hs. rewrite filter_app, <- Hp by done.
      rewrite filter_cons_False, filter_nil, app_nil_r; [done|].
      intros E. apply Hs. by rewrite <- E.
    + split; [done | by intros ?].
  - assert (∀ files, files = default [] (bySuffix fl !! suffix file) →
      indexed {| items := items fl ++ [file]; slices := slices fl;
                 bySuffix := <[suffix file := files ++ [file]]> (bySuffix fl) |})
      as Hkeep.
    { intros files ->. split; simpl.
      - intros s Hs. rewrite lookup_insert_ne; [by apply Hm|]. by intros <-.
      - intros s Hs. rewrite filter_app. destruct (decide (suffix file = s)) as [<-|Hne].
        + rewrite lookup_insert_eq. simpl. rewrite Hp by done.
          by rewrite filter_cons_True, filter_nil.
        + rewrite lookup_insert_ne by done. rewrite Hp by done.
          by rewrite filter_cons_False, filter_nil, app_nil_r. }
    destruct (bySuffix fl !! suffix file) as [files|] eqn:E; simpl.
    + split_and!; [done | done | | | ].
      * by apply Hkeep.
      * split; [done | by intros ?].
      * done.
    + rewrite bool_decide_eq_false_2 by done. simpl.
      split_and!; [done | done | | | ].
      * by apply (Hkeep []).
      * split; [done | by intros ?].
      * done.
Qed.

Lemma addFiles_loop_spec files fl :
  indexed fl →
  items (state (addFiles_loop files fl)) = items fl ++ reached files ∧
  slices (state (addFiles_loop files fl)) = slices fl ∧
  indexed (state (addFiles_loop files fl)) ∧
  (addFiles_loop files fl = Returned (state (addFiles_loop files fl)) ↔
   Forall (fun f => plain (suffix f)) files).
Proof.
  revert fl. induction files as [|file rest IH]; intros fl Hfl; simpl.
  - rewrite app_nil_r. by split_and!.
  - destruct (addFile_spec fl file Hfl) as (Hi & Hs & Hidx & Hthrew & Hret).
    destruct (addFile fl file) as [fl'|fl'] eqn:E; simpl in *.
    + assert (plain (suffix file)) as Hplain by (by apply Hret).
      rewrite bool_decide_eq_false_2 by done.
      destruct (IH fl' Hidx) as (Hi' & Hs' & Hidx' & Hret').
      rewrite Hi', Hi, Hs', Hs, <- app_assoc. split_and!; [done | done | done |].
      rewrite Hret', Forall_cons. tauto.
    + assert (suffix file ∈ Object_prototype) as Hin by (by apply Hthrew).
      rewrite bool_decide_eq_true_2 by done.
      split_and!; [done | done | done |].
      split; [done|]. intros [Hp _]%Forall_cons. by destruct Hp.
Qed.

Lemma addFiles_spec files fl :
  indexed fl →
  items (state (addFiles files fl)) = items fl ++ reached files ∧
  slices (state (addFiles files fl)) = slices fl ++ [files] ∧
  indexed (state (addFiles files fl)) ∧
  (addFiles files fl = Returned (state (addFiles files fl)) ↔
   Forall (fun f => plain (suffix f)) files).
Proof.
  intros Hfl. unfold addFiles.
  apply (addFiles_loop_spec files
           {| items := items fl; slices := slices fl ++ [files];
              bySuffix := bySuffix fl |}).
  exact Hfl.
Qed.

Lemma build_snoc batches files :
  build (batches ++ [files]) = state (addFiles files (build batches)).
Proof. unfold build. by rewrite fold_left_app. Qed.

Lemma build_spec batches :
  indexed (build batches) ∧
  slices (build batches) = batches ∧
  items (build batches) = concat (reached <$> batches).
Proof.
  induction batches as [|files batches (Hidx & Hs & Hi)] using rev_ind.
  - split_and!; [apply indexed_new | done | done].
  - rewrite build_snoc.
    destruct (addFiles_spec files (build batches) Hidx) as (Hi' & Hs' & Hidx' & _).
    split_and!; [done | by rewrite Hs', Hs |].
    rewrite Hi', Hi, fmap_app, concat_app. simpl. by rewrite app_nil_r.
Qed.

Lemma reached_all_plain batches :
  Forall (Forall (fun f => plain (suffix f))) batches →
  concat (reached <$> batches) = concat batches.
Proof.
  induction 1 as [|files batches Hf _ IH]; [done|].
  rewrite fmap_cons. cbn [concat]. by rewrite reached_plain, IH.
Qed.

Lemma scan_slice_filter suffixes slice res :
  fold_left (fun res file =>
               if has suffixes (suffix file) then res ++ [file] else res)
            slice res
  = res ++ filter (fun f => has suffixes (suffix f) = true) slice.
Proof.
  revert res. induction slice as [|f slice IH]; intros res; simpl.
  - by rewrite app_nil_r.
  - rewrite IH. destruct (has suffixes (suffix f)) eqn:E.
    + rewrite filter_cons_True by done. by rewrite <- app_assoc.
    + rewrite filter_cons_False by congruence. done.
Qed.

Lemma scan_slices_filter suffixes sl :
  scan_slices suffixes sl = filter (fun f => has suffixes (suffix f) = true) (concat sl).
Proof.
  unfold scan_slices.
  enough (∀ res, fold_left
    (fun res slice =>
       fold_left (fun res file =>
                    if has suffixes (suffix file) then res ++ [file] else res)
                 slice res) sl res
    = res ++ filter (fun f => has suffixes (suffix f) = true) (concat sl)) as H
    by (by rewrite H).
  induction sl as [|slice sl IH]; intros res; simpl.
  - by rewrite app_nil_r.
  - rewrite IH, scan_slice_filter, filter_app. by rewrite <- app_assoc.
Qed.

Lemma has_elem l s : has l s = true ↔ s ∈ l.
Proof. unfold has. apply bool_decide_eq_true. Qed.

(** The string branch of [getBySuffix] on a list built by [addFiles]. *)
Lemma getBySuffix_str batches s :
  getBySuffix (SuffixStr s) (build batches) =
  if bool_decide (s ∈ Object_prototype) then Member s
  else Files (filter (fun f => suffix f = s) (concat (reached <$> batches))).
Proof.
  destruct (build_spec batches) as ([Hm Hp] & _ & Hi).
  unfold getBySuffix, bySuffix_get. case_bool_decide as Hs.
  - by rewrite (Hm _ Hs).
  - specialize (Hp s Hs). rewrite Hi in Hp.
    destruct (bySuffix (build batches) !! s) as [files|]; simpl in *; by rewrite Hp.
Qed.

(** The array branch. *)
Lemma getBySuffix_arr batches l :
  length l ≠ 1 →
  getBySuffix (SuffixArr l) (build batches) =
  Files (filter (fun f => suffix f ∈ l) (concat batches)).
Proof.
  intros Hl. destruct (build_spec batches) as (_ & Hs & _).
  assert (getBySuffix (SuffixArr l) (build batches) =
          Files (scan_slices l (slices (build batches)))) as ->.
  { unfold getBySuffix. by destruct l as [|s [|s' l]]. }
  rewrite scan_slices_filter, Hs. f_equal.
  apply list_filter_iff. intros f. apply has_elem.
Qed.

(** C10. A one-element array of suffixes is answered like the suffix
    itself, on every list.  On a list built by [addFiles], a suffix that is
    no member name of [Object.prototype] yields the files of that suffix
    that [addFiles] has indexed, in the order of addition (all the added
    files of that suffix when no call threw), and the empty array when no
    file has it.  A suffix that is such a member name, [constructor] for
    one, yields the inherited member instead of an array, whatever has been
    added, while the array branch answers the same suffix with an array. *)
Theorem getBySuffix_singleton_array (batches : list (list File)) (s : string) :
  (∀ fl, getBySuffix (SuffixArr [s]) fl = getBySuffix (SuffixStr s) fl) ∧
  (plain s →
     getBySuffix (SuffixStr s) (build batches) =
       Files (filter (fun f => suffix f = s) (concat (reached <$> batches))) ∧
     (Forall (Forall (fun f => plain (suffix f))) batches →
        getBySuffix (SuffixStr s) (build batches) =
          Files (filter (fun f => suffix f = s) (concat batches))) ∧
     ((∀ f, f ∈ concat batches → suffix f ≠ s) →
        getBySuffix (SuffixStr s) (build batches) = Files [])) ∧
  (s ∈ Object_prototype →
     getBySuffix (SuffixStr s) (build batches) = Member s ∧
     getBySuffix (SuffixArr [s]) (build batches) = Member s ∧
     getBySuffix (SuffixArr [s; s]) (build batches) =
       Files (filter (fun f => suffix f = s) (concat batches))).
Proof.
  split_and!; [done | |].
  - intros Hs. pose proof (getBySuffix_str batches s) as Hstr.
    rewrite bool_decide_eq_false_2 in Hstr by done. split_and!.
    + done.
    + intros Hall. by rewrite Hstr, reached_all_plain.
    + intros Hno. rewrite Hstr. f_equal.
      assert (∀ f, f ∈ concat (reached <$> batches) → suffix f ≠ s) as Hno'.
      { intros f Hf. apply Hno. apply elem_of_concat.
        apply elem_of_concat in Hf as (files & Hfiles & Hf).
        apply list_elem_of_fmap in Hfiles as (batch & -> & Hbatch).
        exists batch. split; [done|]. by apply reached_sub. }
      clear Hstr.
      induction (concat (reached <$> batches)) as [|f files IH]; [done|].
      rewrite filter_cons_False.
      * apply IH. intros g Hg. apply Hno'. by apply list_elem_of_further.
      * apply Hno'. apply list_elem_of_here.
  - intros Hs. pose proof (getBySuffix_str batches s) as Hstr.
    rewrite bool_decide_eq_true_2 in Hstr by done. split_and!; [done | done |].
    rewrite getBySuffix_arr by done. f_equal. apply list_filter_iff. intros f.
    rewrite !elem_of_cons, elem_of_nil. tauto.
Qed.

Lemma getBySuffix_singleton_array_witness :
  getBySuffix (SuffixArr ["js"%string]) (build [[a_js; a_css]; [b_js]])
    = Files [a_js; b_js] ∧
  getBySuffix (SuffixStr "txt") (build [[a_js; a_css]; [b_js]]) = Files [] ∧
  getBySuffix (SuffixStr "constructor") new_FileList = Member "constructor" ∧
  getBySuffix (SuffixArr ["constructor"; "constructor"]%string) new_FileList = Files [].
Proof.
  destruct (getBySuffix_singleton_array [[a_js; a_css]; [b_js]] "js")
    as (H1 & H2 & _).
  destruct (getBySuffix_singleton_array [[a_js; a_css]; [b_js]] "txt")
    as (_ & H3 & _).
  destruct (getBySuffix_singleton_array [] "constructor") as (_ & _ & H4).
  assert (plain "js") as Hjs by by_evaluation.
  assert (plain "txt") as Htxt by by_evaluation.
  assert ("constructor"%string ∈ Object_prototype) as Hmember by by_evaluation.
  split_and!.
  - rewrite H1. destruct (H2 Hjs) as (_ & H & _). rewrite H; [reflexivity|].
    repeat constructor; by_evaluation.
  - destruct (H3 Htxt) as (_ & _ & H). apply H.
    intros f Hf. simpl in Hf.
    repeat (apply elem_of_cons in Hf as [->|Hf]; [done|]).
    by apply elem_of_nil in Hf.
  - apply (H4 Hmember).
  - apply (H4 Hmember).
Defined.

(** *** Lookups by name and by several suffixes *)

(** The files of one more suffix are spread over the result, not put in
    front of it. *)
Lemma filter_bucket s l (files : list File) :
  s ∉ l →
  filter (fun f => suffix f ∈ s :: l) files ≡ₚ
  filter (fun f => suffix f = s) files ++ filter (fun f => suffix f ∈ l) files.
Proof.
  intros Hs. induction files as [|f files IH]; [done|].
  destruct (decide (suffix f = s)) as [E|Hne].
  - rewrite (filter_cons_True (fun f => suffix f ∈ s :: l)) by (rewrite E; left).
    rewrite (filter_cons_True (fun f => suffix f = s)) by done.
    rewrite (filter_cons_False (fun f => suffix f ∈ l)) by (by rewrite E).
    simpl. by rewrite IH.
  - rewrite (filter_cons_False (fun f => suffix f = s)) by done.
    destruct (decide (suffix f ∈ l)) as [Hin|Hnot].
    + rewrite (filter_cons_True (fun f => suffix f ∈ s :: l)) by (by right).
      rewrite (filter_cons_True (fun f => suffix f ∈ l)) by done.
      rewrite IH. apply Permutation_middle.
    + rewrite (filter_cons_False (fun f => suffix f ∈ s :: l)).
      * by rewrite (filter_cons_False (fun f => suffix f ∈ l)).
      * by intros [?|?]%elem_of_cons.
Qed.

Lemma filter_buckets l (files : list File) :
  NoDup l →
  filter (fun f => suffix f ∈ l) files ≡ₚ
  concat ((fun s => filter (fun f => suffix f = s) files) <$> l).
Proof.
  induction 1 as [|s l Hs Hnd IH]; simpl.
  - induction files as [|f files IHf]; [done|].
    rewrite filter_cons_False; [done | apply not_elem_of_nil].
  - by rewrite filter_bucket, IH.
Qed.

(** X1. [getByName] returns the files of that name that the loops of
    [addFiles] have reached, in the order of addition and as often as they
    were added.  When no added file has a member name of
    [Object.prototype] for its suffix these are all the added files of that
    name, and the item list and the suffix index hold the same files: a
    file is found under its name exactly when it was added, which is
    exactly when it is found under its suffix. *)
Theorem getByName_in_addition_order (batches : list (list File)) (nm : string) :
  getByName nm (build batches) =
    filter (fun f => name f = nm) (concat (reached <$> batches)) ∧
  (Forall (Forall (fun f => plain (suffix f))) batches →
     getByName nm (build batches) = filter (fun f => name f = nm) (concat batches) ∧
     (∀ f, f ∈ getByName (name f) (build batches) ↔ f ∈ concat batches) ∧
     (∀ f, f ∈ concat batches ↔
           ∃ found, getBySuffix (SuffixStr (suffix f)) (build batches) = Files found ∧
                    f ∈ found)).
Proof.
  destruct (build_spec batches) as (_ & _ & Hi).
  split; [unfold getByName; by rewrite Hi|].
  intros Hall. pose proof (reached_all_plain batches Hall) as Hreached.
  assert (∀ f, f ∈ getByName (name f) (build batches) ↔ f ∈ concat batches) as Hname.
  { intros f. unfold getByName. rewrite Hi, Hreached, list_elem_of_filter. tauto. }
  split_and!.
  - unfold getByName. by rewrite Hi, Hreached.
  - done.
  - intros f. rewrite getBySuffix_str, Hreached. split.
    + intros Hf. rewrite bool_decide_eq_false_2.
      * eexists. split; [done|]. by apply list_elem_of_filter.
      * apply elem_of_concat in Hf as (batch & Hbatch & Hf).
        rewrite Forall_forall in Hall. specialize (Hall _ Hbatch).
        rewrite Forall_forall in Hall. by apply Hall.
    + intros (found & Hfound & Hf). case_bool_decide; [done|].
      injection Hfound as <-. by apply list_elem_of_filter in Hf as [_ ?].
Qed.

(** X2. Asked for an array of suffixes that is not unwrapped (its length
    is not one), [getBySuffix] returns the files of all the batches handed
    to [addFiles] that carry one of the suffixes, in the order of the
    batches: neither the order of the suffixes in the array nor a repeated
    suffix matters, and member names of [Object.prototype] are suffixes
    like any other here.  The empty array yields no file, on every list. *)
Theorem getBySuffix_array_in_addition_order
    (batches : list (list File)) (l : list string) :
  length l ≠ 1 →
  getBySuffix (SuffixArr l) (build batches) =
    Files (filter (fun f => suffix f ∈ l) (concat batches)) ∧
  (∀ l', length l' ≠ 1 → (∀ s, s ∈ l ↔ s ∈ l') →
         getBySuffix (SuffixArr l') (build batches) =
         getBySuffix (SuffixArr l) (build batches)) ∧
  (∀ fl, getBySuffix (SuffixArr []) fl = Files []).
Proof.
  intros Hl. split_and!.
  - by apply getBySuffix_arr.
  - intros l' Hl' Hsame. rewrite !getBySuffix_arr by done. f_equal.
    apply list_filter_iff. intros f. by rewrite Hsame.
  - intros fl. unfold getBySuffix. rewrite scan_slices_filter. f_equal.
    induction (concat (slices fl)) as [|f files IH]; [done|].
    by rewrite filter_cons_False.
Qed.

Lemma getBySuffix_array_in_addition_order_witness :
  getBySuffix (SuffixArr ["js"; "constructor"; "js"]%string)
              (build [[a_js; a_constructor; a_css]; [b_js]])
  = Files [a_js; a_constructor; b_js].
Proof.
  destruct (getBySuffix_array_in_addition_order
              [[a_js; a_constructor; a_css]; [b_js]]
              ["js"; "constructor"; "js"]%string) as (-> & _); [by_evaluation|].
  reflexivity.
Defined.

(** X3. When no added file and no requested suffix is a member name of
    [Object.prototype], the answer to an array of distinct suffixes holds
    the same files as the answers to its suffixes taken one by one, each as
    often; only the order differs, the array answer following the order
    of addition. *)
Theorem getBySuffix_array_permutes_buckets
    (batches : list (list File)) (l : list string) :
  NoDup l → Forall plain l →
  Forall (Forall (fun f => plain (suffix f))) batches →
  ∃ found buckets,
    getBySuffix (SuffixArr l) (build batches) = Files found ∧
    Forall2 (fun s bucket => getBySuffix (SuffixStr s) (build batches) = Files bucket)
            l buckets ∧
    found ≡ₚ concat buckets.
Proof.
  intros Hnd Hplain Hall.
  pose (bucket := fun s => filter (fun f : File => suffix f = s) (concat batches)).
  assert (Forall2 (fun s b => getBySuffix (SuffixStr s) (build batches) = Files b)
                  l (bucket <$> l)) as Hbuckets.
  { apply Forall2_fmap_r, Forall_Forall2_diag.
    eapply Forall_impl; [exact Hplain|]. intros s Hs. simpl.
    rewrite getBySuffix_str, bool_decide_eq_false_2 by done.
    by rewrite reached_all_plain. }
  destruct (decide (length l = 1)) as [Hone|Hlen].
  - destruct l as [|s [|s' l]]; try done.
    exists (bucket s), [bucket s]. split_and!; [|done|simpl; by rewrite app_nil_r].
    apply Forall2_cons_1 in Hbuckets as [Hs _].
    destruct (getBySuffix_singleton_array batches s) as (-> & _). exact Hs.
  - exists (filter (fun f => suffix f ∈ l) (concat batches)), (bucket <$> l).
    split_and!; [by apply getBySuffix_arr | done | by apply filter_buckets].
Qed.

Lemma getBySuffix_array_permutes_buckets_witness :
  ∃ found buckets,
    getBySuffix (SuffixArr ["css"; "js"]%string) (build [[a_js; a_css]; [b_js]])
      = Files found ∧
    Forall2 (fun s bucket =>
               getBySuffix (SuffixStr s) (build [[a_js; a_css]; [b_js]]) = Files bucket)
            ["css"; "js"]%string buckets ∧
    found ≡ₚ concat buckets.
Proof.
  apply (getBySuffix_array_permutes_buckets [[a_js; a_css]; [b_js]] ["css"; "js"]%string).
  - apply NoDup_cons. split; [|apply NoDup_singleton].
    by intros [=]%list_elem_of_singleton.
  - repeat constructor; by_evaluation.
  - repeat constructor; by_evaluation.
Defined.

(** X19. [addFiles] throws when it comes to a file whose suffix is a
    member name of [Object.prototype], and only then.  The call has by then
    stored the whole batch as a slice and pushed the files up to and
    including that one to the item list; the files after it are in the
    slice but in neither the item list nor the index.  Afterwards an array
    of suffixes finds those files, and a lookup by name does not. *)
Theorem addFiles_throws_on_member_suffix
    (batches : list (list File)) (before after : list File) (file : File) :
  Forall (fun f => plain (suffix f)) before →
  suffix file ∈ Object_prototype →
  let fl := build batches in
  let batch := before ++ file :: after in
  (∀ files, (∃ fl', addFiles files fl = Returned fl') ↔
            Forall (fun f => plain (suffix f)) files) ∧
  ∃ fl', addFiles batch fl = Threw fl' ∧
         fl' = build (batches ++ [batch]) ∧
         items fl' = items fl ++ before ++ [file] ∧
         slices fl' = slices fl ++ [batch] ∧
         (∀ s, getBySuffix (SuffixStr s) fl' =
               if bool_decide (s ∈ Object_prototype) then Member s
               else match getBySuffix (SuffixStr s) fl with
                    | Files found =>
                        Files (found ++ filter (fun f => suffix f = s) before)
                    | Member m => Member m
                    end) ∧
         ∀ f, f ∈ after →
              (∃ found, getBySuffix (SuffixArr [suffix f; suffix f]) fl' = Files found ∧
                        f ∈ found) ∧
              (f ∉ items fl → f ∉ before → f ≠ file →
               f ∉ getByName (name f) fl').
Proof.
  intros Hbefore Hfile fl batch.
  destruct (build_spec batches) as (Hidx & Hs & Hi). fold fl in Hidx, Hs, Hi.
  split.
  - intros files. destruct (addFiles_spec files fl Hidx) as (_ & _ & _ & Hret).
    rewrite <- Hret. split; [|by eexists].
    intros [fl' E]. rewrite E. done.
  - destruct (addFiles_spec batch fl Hidx) as (Hi' & Hs' & Hidx' & Hret).
    assert (reached batch = before ++ [file]) as Hreached.
    { unfold batch. clear -Hbefore Hfile.
      induction Hbefore as [|g before Hg _ IH]; simpl.
      - by rewrite bool_decide_eq_true_2.
      - rewrite bool_decide_eq_false_2 by done. by rewrite IH. }
    assert (¬ Forall (fun f => plain (suffix f)) batch) as Hnot.
    { unfold batch. rewrite Forall_app, Forall_cons. intros (_ & Hp & _).
      by destruct Hp. }
    destruct (addFiles batch fl) as [fl'|fl'] eqn:E; simpl in *.
    { destruct Hnot. by apply Hret. }
    assert (fl' = build (batches ++ [batch])) as Hbuild.
    { rewrite build_snoc. fold fl. by rewrite E. }
    exists fl'. rewrite Hreached in Hi'. split_and!; [done | done | done | done | |].
    + intros s. rewrite Hbuild at 1. rewrite getBySuffix_str. unfold fl.
      rewrite getBySuffix_str. case_bool_decide as Hm; [done|]. f_equal.
      rewrite fmap_app, concat_app, filter_app. f_equal. simpl.
      rewrite Hreached, app_nil_r, filter_app.
      rewrite (filter_cons_False _ file), filter_nil, app_nil_r; [done|].
      intros Es. apply Hm. by rewrite <- Es.
    + intros f Hf. split.
      * eexists. rewrite Hbuild, getBySuffix_arr by done. split; [done|].
        apply list_elem_of_filter. split; [left|].
        rewrite concat_app. apply elem_of_app. right. simpl. rewrite app_nil_r.
        unfold batch. apply elem_of_app. right. by right.
      * intros H1 H2 H3. unfold getByName. rewrite Hi', list_elem_of_filter.
        rewrite !elem_of_app, list_elem_of_singleton. tauto.
Qed.

Lemma addFiles_throws_on_member_suffix_witness :
  ∃ fl', addFiles [a_js; a_constructor; a_css] new_FileList = Threw fl' ∧
         items fl' = [a_js; a_constructor] ∧
         slices fl' = [[a_js; a_constructor; a_css]].
Proof.
  destruct (addFiles_throws_on_member_suffix [] [a_js] [a_css] a_constructor)
    as (_ & fl' & E & _ & Hi & Hs & _).
  - repeat constructor; by_evaluation.
  - by_evaluation.
  - by exists fl'.
Defined.

End FileList.

(** ** lib/node: the per-node target registry *)

Module NodeModel.

(** *** Values, errors, promises *)

(** Payload handed to [resolveTarget]; a plain (non-thenable) value. *)
Inductive Value :=
| VUndefined
| VData (d : string).

Inductive ErrorKind :=
| PlainError            (* Error(...) and whatever a technology throws *)
| TargetNotFoundEror    (* lib/errors/target-not-found-error *)
| TypeError.            (* member access on null *)

Record Error := mkError { kind : ErrorKind; message : string }.

#[global] Instance Value_eq_dec : EqDecision Value.
Proof. solve_decision. Defined.
#[global] Instance ErrorKind_eq_dec : EqDecision ErrorKind.
Proof. solve_decision. Defined.
#[global] Instance Error_eq_dec : EqDecision Error.
Proof. solve_decision. Defined.

(** State of a Vow deferred: it starts pending and settles at most once. *)
Inductive PromiseState :=
| Pending
| Fulfilled (v : Value)
| Rejected (e : Error).

#[global] Instance PromiseState_eq_dec : EqDecision PromiseState.
Proof. solve_decision. Defined.

(** [deferred.resolve(value)]: ignored once the promise is settled. *)
Definition defer_resolve (v : Value) (d : PromiseState) : PromiseState :=
  match d with Pending => Fulfilled v | _ => d end.

(** [deferred.reject(err)]: ignored once the promise is settled. *)
Definition defer_reject (e : Error) (d : PromiseState) : PromiseState :=
  match d with Pending => Rejected e | _ => d end.

(** A promise handed out by the node: either the promise of a target's
    deferred (shared by everybody who asked for that target) or a fresh
    [Vow.reject(err)]. *)
Inductive Promise :=
| PTarget (name : string)
| PRejected (e : Error).

(** What a waiter on [Vow.all(promises)] observes, as the states of the
    promises decide it when [Vow.all] is called.  Vow subscribes to the
    promises in input order, and the callbacks of the promises that are
    settled by then run in that order, ahead of those of any later
    settlement: when an input is rejected already, the result is rejected
    with the reason of the first such input. *)
Inductive AllState :=
| AllPending
| AllFulfilled (vs : list Value)
| AllRejected (reason : Error).

Definition rejection (d : PromiseState) : option Error :=
  match d with Rejected e => Some e | _ => None end.

Definition fulfilment (d : PromiseState) : option Value :=
  match d with Fulfilled v => Some v | _ => None end.

Definition Vow_all (ds : list PromiseState) : AllState :=
  match omap rejection ds with
  | [] => match mapM fulfilment ds with
          | Some vs => AllFulfilled vs
          | None => AllPending
          end
  | reason :: _ => AllRejected reason
  end.

(** *** Technologies *)

(** The synchronous part of a technology's [build()]: the calls it makes
    on its node before it returns (a value or a promise) or throws. *)
Inductive BuildProg :=
| BReturn
| BThrow (e : Error)
| BResolveTarget (target : string) (value : Value) (k : BuildProg)
| BRejectTarget (target : string) (err : Error) (k : BuildProg)
| BIsValidTarget (target : string) (k : BuildProg)
| BRequireSources (sources : list string) (k : BuildProg).

Record Tech := mkTech {
  getName : string;
  getTargets : list string;
  tech_build : BuildProg
}.

(** *** Node state *)

(** [{ tech, started, deferred, isValid }]; [tech] refers to a technology
    of the node by its position in [_techs]. *)
Record Target := mkTarget {
  tech : option (nat * Tech);
  started : bool;
  deferred : PromiseState;
  isValid : bool
}.

Inductive LogEntry :=
| LogAction (action target : string) (techName : option string)
| LogIsValid (target : string) (techName : option string)
| LogErrorAction (action target : string) (techName : option string).

Inductive ProfEntry :=
| SetStartTime (target techName : string)
| SetEndTime (target : string).

Record Node := mkNode {
  _path : string;
  _targetName : string;
  _techs : list Tech;
  (* the __started flag of each technology, by position in _techs *)
  techs_started : gset nat;
  (* null, or the entries written so far *)
  _logger : option (list LogEntry);
  _profiler : option (list ProfEntry);
  (* insertion-ordered dictionary *)
  _targetNames : list (string * Target);
  _targetNamesToBuild : list string;
  _targetNamesToClean : list string;
  (* this._registerTargets has been replaced by () => {} *)
  registered : bool;
  (* ghost: the technologies whose build() was called, in call order *)
  builds : list nat
}.

Definition set_techs_started (f : gset nat → gset nat) (n : Node) : Node :=
  mkNode (_path n) (_targetName n) (_techs n) (f (techs_started n)) (_logger n)
         (_profiler n) (_targetNames n) (_targetNamesToBuild n)
         (_targetNamesToClean n) (registered n) (builds n).
Definition set_logger (l : option (list LogEntry)) (n : Node) : Node :=
  mkNode (_path n) (_targetName n) (_techs n) (techs_started n) l
         (_profiler n) (_targetNames n) (_targetNamesToBuild n)
         (_targetNamesToClean n) (registered n) (builds n).
Definition set_profiler (p : option (list ProfEntry)) (n : Node) : Node :=
  mkNode (_path n) (_targetName n) (_techs n) (techs_started n) (_logger n)
         p (_targetNames n) (_targetNamesToBuild n)
         (_targetNamesToClean n) (registered n) (builds n).
Definition set_targetNames (f : list (string * Target) → list (string * Target))
    (n : Node) : Node :=
  mkNode (_path n) (_targetName n) (_techs n) (techs_started n) (_logger n)
         (_profiler n) (f (_targetNames n)) (_targetNamesToBuild n)
         (_targetNamesToClean n) (registered n) (builds n).
Definition set_registered (b : bool) (n : Node) : Node :=
  mkNode (_path n) (_targetName n) (_techs n) (techs_started n) (_logger n)
         (_profiler n) (_targetNames n) (_targetNamesToBuild n)
         (_targetNamesToClean n) b (builds n).
Definition set_builds (f : list nat → list nat) (n : Node) : Node :=
  mkNode (_path n) (_targetName n) (_techs n) (techs_started n) (_logger n)
         (_profiler n) (_targetNames n) (_targetNamesToBuild n)
         (_targetNamesToClean n) (registered n) (f (builds n)).

(** [setTechs], [setLogger], [setProfiler], [setTargetsToBuild],
    [setTargetsToClean] *)
Definition setTechs (techs : list Tech) (n : Node) : Node :=
  mkNode (_path n) (_targetName n) techs (techs_started n) (_logger n)
         (_profiler n) (_targetNames n) (_targetNamesToBuild n)
         (_targetNamesToClean n) (registered n) (builds n).
Definition setLogger (n : Node) : Node := set_logger (Some []) n.
Definition setProfiler (n : Node) : Node := set_profiler (Some []) n.
Definition setTargetsToBuild (targetsToBuild : list string) (n : Node) : Node :=
  mkNode (_path n) (_targetName n) (_techs n) (techs_started n) (_logger n)
         (_profiler n) (_targetNames n) targetsToBuild
         (_targetNamesToClean n) (registered n) (builds n).
Definition setTargetsToClean (targetsToClean : list string) (n : Node) : Node :=
  mkNode (_path n) (_targetName n) (_techs n) (techs_started n) (_logger n)
         (_profiler n) (_targetNames n) (_targetNamesToBuild n)
         targetsToClean (registered n) (builds n).

(** Dictionary access on [_targetNames]. *)
Fixpoint lookup_target (name : string) (ts : list (string * Target)) : option Target :=
  match ts with
  | [] => None
  | (k, t) :: ts' => if decide (k = name) then Some t else lookup_target name ts'
  end.

(** In-place update of the object stored under [name]. *)
Fixpoint update_target (name : string) (f : Target → Target)
    (ts : list (string * Target)) : list (string * Target) :=
  match ts with
  | [] => []
  | (k, t) :: ts' =>
      if decide (k = name) then (k, f t) :: ts'
      else (k, t) :: update_target name f ts'
  end.

Definition target (name : string) (n : Node) : option Target :=
  lookup_target name (_targetNames n).

Definition with_tech (r : nat * Tech) (t : Target) : Target :=
  mkTarget (Some r) (started t) (deferred t) (isValid t).
Definition with_started (t : Target) : Target :=
  mkTarget (tech t) true (deferred t) (isValid t).
Definition with_deferred (f : PromiseState → PromiseState) (t : Target) : Target :=
  mkTarget (tech t) (started t) (f (deferred t)) (isValid t).
Definition with_isValid (t : Target) : Target :=
  mkTarget (tech t) (started t) (deferred t) true.

(** [{ started: false, deferred: Vow.defer() }] *)
Definition fresh_target : Target := mkTarget None false Pending false.

(** [targetObj.tech && targetObj.tech.getName()] *)
Definition techName (t : Target) : option string := (getName ∘ snd) <$> tech t.

(** Settlement state of a promise in a given node state. *)
Definition promise_state (n : Node) (p : Promise) : PromiseState :=
  match p with
  | PTarget name => from_option deferred Pending (target name n)
  | PRejected e => Rejected e
  end.

Definition all_state (n : Node) (ps : list Promise) : AllState :=
  Vow_all (promise_state n <$> ps).

(** *** Computations on a node: state, exceptions, fuel *)

Inductive Res (A : Type) :=
| Ok (a : A) (n : Node)
| Throw (e : Error) (n : Node)
| OutOfFuel.
Arguments Ok {A} a n.
Arguments Throw {A} e n.
Arguments OutOfFuel {A}.

Definition M (A : Type) : Type := Node → Res A.

#[global] Instance M_ret : MRet M := λ A a n, Ok a n.
#[global] Instance M_bind : MBind M := λ A B f m n,
  match m n with
  | Ok a n' => f a n'
  | Throw e n' => Throw e n'
  | OutOfFuel => OutOfFuel
  end.

Definition get : M Node := λ n, Ok n n.
Definition modify (f : Node → Node) : M unit := λ n, Ok tt (f n).
Definition throw {A} (e : Error) : M A := λ n, Throw e n.
Definition out_of_fuel {A} : M A := λ _, OutOfFuel.

(** [try { body } catch (err) { handler(err) }] *)
Definition try_catch {A} (body : M A) (handler : Error → M A) : M A := λ n,
  match body n with
  | Throw e n' => handler e n'
  | r => r
  end.

(** [list.forEach(f)] and [list.map(f)] for an effectful [f]. *)
Fixpoint forEach {A} (f : A → M unit) (l : list A) : M unit :=
  match l with
  | [] => mret tt
  | x :: l' => f x ;; forEach f l'
  end.

Fixpoint map_M {A B} (f : A → M B) (l : list A) : M (list B) :=
  match l with
  | [] => mret []
  | x :: l' => y ← f x; ys ← map_M f l'; mret (y :: ys)
  end.

(** *** Logger and profiler calls *)

(** A call of a method of [this._logger]; the logger is [null] until
    [setLogger] installs one. *)
Definition logger_call (entry : LogEntry) : M unit :=
  n ← get;
  match _logger n with
  | None => throw (mkError TypeError "Cannot read properties of null")
  | Some entries => modify (set_logger (Some (entries ++ [entry])))
  end.

(** [if (this._profiler) { this._profiler.<method>(...) }] *)
Definition profiler_call (entry : ProfEntry) : M unit :=
  n ← get;
  match _profiler n with
  | None => mret tt
  | Some entries => modify (set_profiler (Some (entries ++ [entry])))
  end.

(** *** Target registry *)

(** [_getTarget(name)], for a name that is no member name of
    [Object.prototype] or has an entry. *)
Definition _getTarget (name : string) : M Target :=
  n ← get;
  match target name n with
  | Some targetObj => mret targetObj
  | None =>
      modify (set_targetNames (λ ts, ts ++ [(name, fresh_target)]));;
      mret fresh_target
  end.

(** Assignment to a field of the target object stored under [name]. *)
Definition assign (name : string) (f : Target → Target) : M unit :=
  modify (set_targetNames (update_target name f)).

(** [hasRegisteredTarget(name)]: [!!this._targetNames[name]], which an
    entry of the registry and a member inherited from [Object.prototype]
    both make [true]. *)
Definition hasRegisteredTarget (name : string) (n : Node) : bool :=
  bool_decide (is_Some (target name n)) || bool_decide (name ∈ Object_prototype).

(** [targetName.replace(/\?/g, base)] *)
Fixpoint replace_mask (base targetName : string) : string :=
  match targetName with
  | EmptyString => EmptyString
  | String c rest =>
      if Ascii.eqb c "?"%char then String.append base (replace_mask base rest)
      else String c (replace_mask base rest)
  end.

(** [unmaskTargetName(targetName)] *)
Definition unmaskTargetName (n : Node) (targetName : string) : string :=
  replace_mask (_targetName n) targetName.

(** [getTargetName(suffix)] *)
Definition getTargetName (n : Node) (suffix : option string) : string :=
  match suffix with
  | Some s => if decide (s = EmptyString) then _targetName n
              else String.append (_targetName n) (String.append "." s)
  | None => _targetName n
  end.

Definition dquote : string := String (Ascii.ascii_of_nat 34) EmptyString.

Definition concurrent_techs_message (target name1 name2 : string) : string :=
  String.concat EmptyString
    ["Concurrent techs for target: "%string; target; ", techs: "%string;
     dquote; name1; dquote; " vs "%string; dquote; name2; dquote].

(** [_registerTarget(target, tech)]; [ref] is the technology with its
    position in [_techs]. *)
Definition _registerTarget (target : string) (ref : nat * Tech) : M unit :=
  targetObj ← _getTarget target;
  match tech targetObj with
  | Some bound =>
      throw (mkError PlainError
               (concurrent_techs_message target (getName bound.2) (getName ref.2)))
  | None => assign target (with_tech ref)
  end.

(** [_registerTargets()]: a no-op once it has completed. *)
Definition _registerTargets : M unit :=
  n ← get;
  if registered n then mret tt
  else
    forEach (λ ref : nat * Tech,
               forEach (λ target, _registerTarget target ref) (getTargets ref.2))
            (imap pair (_techs n));;
    modify (set_registered true).

(** [resolveTarget(target, value)] *)
Definition resolveTarget (target : string) (value : Value) : M Promise :=
  targetObj ← _getTarget target;
  profiler_call (SetEndTime target);;
  (if isValid targetObj then mret tt
   else logger_call (LogAction "rebuild" target (techName targetObj)));;
  assign target (with_deferred (defer_resolve value));;
  mret (PTarget target).

(** [isValidTarget(target)] *)
Definition isValidTarget (target : string) : M unit :=
  targetObj ← _getTarget target;
  logger_call (LogIsValid target (techName targetObj));;
  assign target with_isValid.

(** [rejectTarget(target, err)] *)
Definition rejectTarget (target : string) (err : Error) : M Promise :=
  targetObj ← _getTarget target;
  logger_call (LogErrorAction "failed" target (techName targetObj));;
  assign target (with_deferred (defer_reject err));;
  mret (PTarget target).

(** *** Target lists *)

(** [lodash.uniq]: keep the first occurrence of every element. *)
Definition uniq (l : list string) : list string :=
  fold_left (λ result value,
               if bool_decide (value ∈ result) then result else result ++ [value])
            l [].

(** Elements of the array built by [targets.map(...)] in [_expandTargets]:
    a name, or the whole list that replaces a ["*"]. *)
Inductive Item :=
| IName (s : string)
| INames (l : list string).

(** [lodash.flatten]: flatten one level. *)
Definition flatten (items : list Item) : list string :=
  fold_left (λ result item,
               match item with
               | IName s => result ++ [s]
               | INames l => result ++ l
               end)
            items [].

(** Keys that JavaScript treats as array indices: canonical decimal
    numerals below [2^32 - 1]. *)
Definition digit (a : Ascii.ascii) : option N :=
  let c := Ascii.N_of_ascii a in
  if ((48 <=? c) && (c <=? 57))%N then Some (c - 48)%N else None.

Fixpoint digits_value (acc : N) (s : string) : option N :=
  match s with
  | EmptyString => Some acc
  | String a s' => d ← digit a; digits_value (10 * acc + d)%N s'
  end.

Definition array_index (s : string) : option N :=
  match s with
  | EmptyString => None
  | String a s' =>
      if Ascii.eqb a "0"%char
      then (if decide (s' = EmptyString) then Some 0%N else None)
      else v ← digits_value 0 s;
           if (v <? 2 ^ 32 - 1)%N then Some v else None
  end.

Definition index_le (x y : N * string) : Prop := (x.1 ≤ y.1)%N.
#[global] Instance index_le_dec : RelDecision index_le.
Proof. intros x y. unfold index_le. apply _. Defined.

(** [Object.keys(obj)]: array-index keys in ascending numeric order, then
    the other keys in insertion order. *)
Definition Object_keys (ts : list (string * Target)) : list string :=
  let names := ts.*1 in
  (merge_sort index_le
     (omap (λ k, (λ i, (i, k)) <$> array_index k) names)).*2
  ++ filter (λ k, array_index k = None) names.

(** [_expandTargets(targets, defaultTargetList)] *)
Definition _expandTargets (targets defaultTargetList : list string) (n : Node)
  : list string :=
  let allTargets :=
    match defaultTargetList with
    | [] => Object_keys (_targetNames n)
    | _ => defaultTargetList
    end in
  flatten ((λ targetName,
              if decide (targetName = "*"%string) then INames allTargets
              else IName targetName) <$> targets).

(** [_resolveTargets(targets, defaultTargetList)]; [targets] may be
    [undefined]. *)
Definition _resolveTargets (targets : option (list string))
    (defaultTargetList : list string) (n : Node) : list string :=
  let targetsToBuild :=
    match targets with
    | Some targets => _expandTargets targets defaultTargetList n
    | None => _targetNamesToBuild n
    end in
  uniq targetsToBuild.

(** [new Node(nodePath, makePlatform, cache)]; [baseName] stands for
    [path.basename(nodePath)]. *)
Definition new_Node (nodePath baseName : string) : Node :=
  mkNode nodePath baseName [] ∅ None None [] [] [] false [].

(** *** Requesting targets *)

Section WithPath.

(** [path.join] of the platform's path module. *)
Variable path_join : string → string → string.

(** [TargetNotFoundEror(`There is no tech for target ${path.join(_path, `${source}.`)}`)] *)
Definition target_not_found (n : Node) (source : string) : Error :=
  mkError TargetNotFoundEror
    (String.append "There is no tech for target "
       (path_join (_path n) (String.append source "."))).

(** Run the synchronous part of a build routine; [req] is the node's
    [requireSources], through which the routine re-enters the node. *)
Fixpoint run_build (req : list string → M (list Promise)) (p : BuildProg) : M unit :=
  match p with
  | BReturn => mret tt
  | BThrow e => throw e
  | BResolveTarget t v k => resolveTarget t v;; run_build req k
  | BRejectTarget t e k => rejectTarget t e;; run_build req k
  | BIsValidTarget t k => isValidTarget t;; run_build req k
  | BRequireSources sources k => req sources;; run_build req k
  end.

(** [targetObj.tech.build()], recorded in the ghost list [builds]. *)
Definition call_build (req : list string → M (list Promise)) (ref : nat * Tech)
  : M unit :=
  modify (set_builds (λ b, b ++ [ref.1]));;
  run_build req (tech_build ref.2).

(** The callback that [requireSources] maps over its argument. *)
Definition requireSource (req : list string → M (list Promise)) (source : string)
  : M Promise :=
  n ← get;
  let source := unmaskTargetName n source in
  targetObj ← _getTarget source;
  match tech targetObj with
  | None => mret (PRejected (target_not_found n source))
  | Some ref =>
      (if started targetObj then mret tt
       else
         profiler_call (SetStartTime source (getName ref.2));;
         assign source with_started;;
         n' ← get;
         if decide (ref.1 ∈ techs_started n') then mret tt
         else
           modify (set_techs_started (union {[ref.1]}));;
           (* Vow.when(build()).fail(...) installs [when_build_fails], which
              runs once the promise of the routine has settled *)
           try_catch (call_build req ref)
                     (λ err, rejectTarget source err;; mret tt));;
      mret (PTarget source)
  end.

(** [requireSources(sources)]; the result is the array handed to
    [Vow.all].  [fuel] bounds the nesting of build routines that call
    [requireSources] themselves. *)
Fixpoint requireSources (fuel : nat) (sources : list string) : M (list Promise) :=
  match fuel with
  | 0 => out_of_fuel
  | S fuel' =>
      _registerTargets;;
      map_M (requireSource (requireSources fuel')) sources
  end.


(** The handler that [requireSources] installs on the promise of the build
    routine it has called for [source],
    [Vow.when(targetObj.tech.build()).fail(err => rejectTarget(source, err))]:
    what it does once the promise has settled, rejected with [rejection]
    or not rejected at all. *)
Definition when_build_fails (source : string) (rejection : option Error) : M unit :=
  match rejection with
  | Some err => rejectTarget source err;; mret tt
  | None => mret tt
  end.

(** [{ builtTargets }] *)
Record BuildResult := mkBuildResult { builtTargets : list string }.

(** [requireSources(...).then(() => result)] *)
Record BuildPromise := mkBuildPromise {
  awaited : list Promise;
  then_result : BuildResult
}.

Inductive BuildState :=
| BuildPending
| BuildFulfilled (r : BuildResult)
| BuildRejected (reason : Error).

Definition build_state (n : Node) (bp : BuildPromise) : BuildState :=
  match all_state n (awaited bp) with
  | AllPending => BuildPending
  | AllFulfilled _ => BuildFulfilled (then_result bp)
  | AllRejected reason => BuildRejected reason
  end.

(** [build(targets)] *)
Definition build (fuel : nat) (targets : option (list string)) : M BuildPromise :=
  n ← get;
  let targetsToBuild := _resolveTargets targets (_targetNamesToBuild n) n in
  ps ← requireSources fuel targetsToBuild;
  mret (mkBuildPromise ps
          (mkBuildResult (path_join (_path n) <$> targetsToBuild))).

(** *** Cleaning *)

Section Cleaning.

(** [tech.clean()] of a technology of the node: what the call does to the
    node before it returns its promise or throws. *)
Variable tech_clean : nat * Tech → M unit.

(** The callback that [cleanTargets] maps over its argument; the
    technology in the result stands for the promise
    [Vow.when(targetObj.tech.clean())]. *)
Definition cleanTarget (target : string) : M (nat * Tech) :=
  targetObj ← _getTarget target;
  match tech targetObj with
  | None =>
      throw (mkError PlainError
               (String.append "There is no tech for target "
                  (String.append target ".")))
  | Some ref => tech_clean ref;; mret ref
  end.

(** [cleanTargets(targets)]; the result is the array handed to [Vow.all]. *)
Definition cleanTargets (targets : list string) : M (list (nat * Tech)) :=
  map_M cleanTarget targets.

(** [clean(targets, buildCache)]; the build state it stores first is not
    part of the node record. *)
Definition clean (targets : option (list string)) : M (list (nat * Tech)) :=
  _registerTargets;;
  n ← get;
  cleanTargets (_resolveTargets targets (_targetNamesToClean n) n).

End Cleaning.

(** *** Paths relative to the node *)

Section RelativePath.

(** [path.relative], and [this._root]. *)
Variable path_relative : string → string → string.
Variable root : string.

(** [s.indexOf(c)] for a one-character [c]: the position of its first
    occurrence, or [-1]. *)
Fixpoint indexOf (c : Ascii.ascii) (s : string) : Z :=
  match s with
  | EmptyString => -1
  | String a s' =>
      if Ascii.eqb a c then 0
      else let i := indexOf c s' in if decide (i = -1) then -1 else i + 1
  end%Z.

(** [s.replace(/\\/g, '/')] *)
Fixpoint replace_backslashes (s : string) : string :=
  match s with
  | EmptyString => EmptyString
  | String a s' =>
      String (if Ascii.eqb a "\"%char then "/"%char else a) (replace_backslashes s')
  end.

(** [s.charAt(0) !== '.'] *)
Definition first_is_not_dot (s : string) : bool :=
  match s with
  | String a _ => negb (Ascii.eqb a "."%char)
  | EmptyString => true
  end.

(** [relativePath(filename)] *)
Definition relativePath (n : Node) (filename : string) : string :=
  let res := path_relative (path_join root (_path n)) filename in
  let res :=
    if decide (Z.lnot (indexOf "\"%char res) ≠ 0%Z) then replace_backslashes res
    else res in
  if first_is_not_dot res then String.append "./" res else res.

End RelativePath.

(** *** Vocabulary of the statements *)

(** How a target object may change: flags are only ever set, a settled
    deferred keeps its outcome, a bound technology stays. *)
Record target_evolves (t t' : Target) : Prop := {
  te_started : started t = true → started t' = true;
  te_isValid : isValid t = true → isValid t' = true;
  te_deferred : deferred t ≠ Pending → deferred t' = deferred t;
  te_tech : is_Some (tech t) → tech t' = tech t
}.

(** How a node may change through calls of its methods.  The relation is
    a preorder; every method modelled above relates the state it is
    called in to the state it leaves. *)
Record evolves (n n' : Node) : Prop := {
  ev_path : _path n' = _path n;
  ev_targetName : _targetName n' = _targetName n;
  ev_techs : _techs n' = _techs n;
  ev_toBuild : _targetNamesToBuild n' = _targetNamesToBuild n;
  ev_registered : registered n = true → registered n' = true;
  ev_logger : is_Some (_logger n) → is_Some (_logger n');
  ev_target : ∀ name t, target name n = Some t →
      ∃ t', target name n' = Some t' ∧ target_evolves t t';
  (* once registration is over no technology is bound any more *)
  ev_bound : registered n = true → ∀ name t', target name n' = Some t' →
      tech t' = target name n ≫= tech;
  (* a target is marked started only with its technology *)
  ev_started : ∀ name t', target name n' = Some t' → started t' = true →
      (∃ t, target name n = Some t ∧ started t = true) ∨
      (∃ ref, tech t' = Some ref ∧ ref.1 ∈ techs_started n');
  (* a technology newly bound to a target is a technology of the node *)
  ev_refs : ∀ name t' ref, target name n' = Some t' → tech t' = Some ref →
      (∃ t, target name n = Some t ∧ tech t = Some ref) ∨
      _techs n !! ref.1 = Some ref.2;
  (* builds and __started flags grow together *)
  ev_builds : ∃ new, builds n' = builds n ++ new ∧ NoDup new ∧
      (∀ tid, tid ∈ techs_started n' ↔ tid ∈ techs_started n ∨ tid ∈ new) ∧
      (∀ tid, tid ∈ new → tid ∉ techs_started n)
}.

(** The entry [_getTarget] adds for an unknown name. *)
Definition add_target (name : string) (n : Node) : Node :=
  set_targetNames (λ ts, ts ++ [(name, fresh_target)]) n.

(** The node after [_getTarget(name)]. *)
Definition ensure_target (name : string) (n : Node) : Node :=
  match target name n with
  | Some _ => n
  | None => add_target name n
  end.

(** The node after an assignment to the target object of [name]. *)
Definition update (name : string) (f : Target → Target) (n : Node) : Node :=
  set_targetNames (update_target name f) n.

(** The two flag updates made when a technology is started. *)
Definition start_tech (tid : nat) (n : Node) : Node :=
  set_builds (λ b, b ++ [tid]) (set_techs_started (union {[tid]}) n).

(** What holds of a result; [tot] says whether running out of fuel is
    acceptable. *)
Definition post {A} (tot : Prop) (Q : A → Node → Prop) (E : Error → Node → Prop)
    (r : Res A) : Prop :=
  match r with
  | Ok a n' => Q a n'
  | Throw e n' => E e n'
  | OutOfFuel => tot
  end.

(** A computation that only lets the node evolve. *)
Definition ev_post {A} (tot : Prop) (n0 : Node) (r : Res A) : Prop :=
  post tot (λ _ n', evolves n0 n') (λ _ n', evolves n0 n') r.

Definition preserves {A} (tot : Prop) (m : M A) : Prop := ∀ n, ev_post tot n (m n).

(** The error of a method call on a [null] logger. *)
Definition type_error : Error := mkError TypeError "Cannot read properties of null".

(** The node after a logger call, and after a profiler call. *)
Definition logged (entry : LogEntry) (n : Node) : Node :=
  match _logger n with
  | Some entries => set_logger (Some (entries ++ [entry])) n
  | None => n
  end.

Definition profiled (entry : ProfEntry) (n : Node) : Node :=
  match _profiler n with
  | Some entries => set_profiler (Some (entries ++ [entry])) n
  | None => n
  end.

(** Starting a technology and running its build routine, guarded by the
    [__started] test. *)
Definition start_and_build (req : list string → M (list Promise))
    (ref : nat * Tech) (source : string) : M unit :=
  modify (set_techs_started (union {[ref.1]}));;
  try_catch (call_build req ref) (λ err, rejectTarget source err;; mret tt).

(** The state in which [requireSources] calls [build()] for [source]:
    the profiler has been told, the target and its technology are marked
    started, and the call is recorded. *)
Definition entering_build (source : string) (ref : nat * Tech) (n : Node) : Node :=
  start_tech ref.1
    (update source with_started
       (profiled (SetStartTime source (getName ref.2)) n)).

(** Every technology bound to a target is a technology of the node. *)
Definition refs_valid (n : Node) : Prop :=
  ∀ name t ref, target name n = Some t → tech t = Some ref →
                _techs n !! ref.1 = Some ref.2.

(** The ghost list [builds] holds exactly the started technologies, each
    once. *)
Definition builds_consistent (n : Node) : Prop :=
  NoDup (builds n) ∧ ∀ tid, tid ∈ builds n ↔ tid ∈ techs_started n.

(** Number of technologies that have not been started yet. *)
Definition unstarted (n : Node) : nat :=
  length (filter (λ i, i ∉ techs_started n) (seq 0 (length (_techs n)))).

(** A registered node on which [f] units of fuel suffice. *)
Definition runnable (f : nat) (n : Node) : Prop :=
  refs_valid n ∧ registered n = true ∧ unstarted n < f.

(** [req] ends, and lets the node evolve, wherever [f] units of fuel
    suffice. *)
Definition req_total (f : nat) (req : list string → M (list Promise)) : Prop :=
  ∀ sources n, refs_valid n → unstarted n < f → ev_post False n (req sources n).

(** A target marked started has a technology, and that technology is
    started as well. *)
Definition started_consistent (n : Node) : Prop :=
  ∀ name t, target name n = Some t → started t = true →
            ∃ ref, tech t = Some ref ∧ ref.1 ∈ techs_started n.

(** The invariant of node states: it holds of a node on which nothing
    has been requested and is kept by every method. *)
Record Inv (n : Node) : Prop := {
  inv_refs : refs_valid n;
  inv_builds : builds_consistent n;
  inv_started : started_consistent n
}.

(** The node after [resolveTarget(name, v)], after [rejectTarget(name, e)]
    and after [isValidTarget(name)], when a logger is installed. *)
Definition resolved (name : string) (v : Value) (n : Node) : Node :=
  let targetObj := default fresh_target (target name n) in
  let n1 := profiled (SetEndTime name) (ensure_target name n) in
  update name (with_deferred (defer_resolve v))
    (if isValid targetObj then n1
     else logged (LogAction "rebuild" name (techName targetObj)) n1).

Definition rejected (name : string) (e : Error) (n : Node) : Node :=
  let targetObj := default fresh_target (target name n) in
  update name (with_deferred (defer_reject e))
    (logged (LogErrorAction "failed" name (techName targetObj))
       (ensure_target name n)).

Definition validated (name : string) (n : Node) : Node :=
  let targetObj := default fresh_target (target name n) in
  update name with_isValid
    (logged (LogIsValid name (techName targetObj)) (ensure_target name n)).

(** The computation ends (it does not run out of fuel), returning or
    throwing, in a state that satisfies [Q]. *)
Definition leaves {A} (r : Res A) (Q : Node → Prop) : Prop :=
  post False (λ _, Q) (λ _, Q) r.

(** [N] requests for the same sources, each one preceded by some other
    activity on the node: an arbitrary sequence of node calls, whose
    exception, if it throws, stays with its caller. *)
Fixpoint interleaved_requests (fuel : nat) (sources : list string)
    (others : list BuildProg) : M (list (list Promise)) :=
  match others with
  | [] => mret []
  | other :: others' =>
      try_catch (run_build (requireSources fuel) other) (λ _, mret tt);;
      ps ← requireSources fuel sources;
      rest ← interleaved_requests fuel sources others';
      mret (ps :: rest)
  end.

(** The node can serve requests for target [s] of technology [ref]. *)
Definition serving (fuel : nat) (s : string) (ref : nat * Tech) (n : Node) : Prop :=
  Inv n ∧ registered n = true ∧ is_Some (_logger n) ∧ unstarted n < fuel ∧
  ∃ t, target s n = Some t ∧ tech t = Some ref.

(** Target and technology are marked started. *)
Definition served (s : string) (ref : nat * Tech) (n : Node) : Prop :=
  (∃ t, target s n = Some t ∧ started t = true) ∧ ref.1 ∈ techs_started n.

(** A target of the node is bound to a technology. *)
Definition bound (n : Node) (name : string) : Prop :=
  is_Some (target name n ≫= tech).

(** The computation ends, returning or throwing, in state [n']. *)
Definition ends_in {A} (r : Res A) (n' : Node) : Prop :=
  match r with
  | Ok _ m | Throw _ m => m = n'
  | OutOfFuel => False
  end.

(** One round of the loop of [uniq]. *)
Definition uniq_step (result : list string) (value : string) : list string :=
  if bool_decide (value ∈ result) then result else result ++ [value].

(** The name is no member name of [Object.prototype]: looked up in the
    registry, it finds an entry of the registry or nothing. *)
Definition own_name (name : string) : Prop := name ∉ Object_prototype.

(** The string holds no character [c]. *)
Definition free_of (c : Ascii.ascii) (s : string) : Prop :=
  Forall (λ a, a ≠ c) (String.list_ascii_of_string s).

(** The promise [requireSources] hands out for a source in a node whose
    technologies are registered. *)
Definition answer (n : Node) (source : string) : Promise :=
  let s := unmaskTargetName n source in
  match target s n ≫= tech with
  | Some _ => PTarget s
  | None => PRejected (target_not_found n s)
  end.

(** The targets the technologies declare, each with its technology, in
    the order in which [_registerTargets] visits them. *)
Definition declarations (techs : list Tech) : list (string * (nat * Tech)) :=
  concat (imap (λ i t, (λ target, (target, (i, t))) <$> getTargets t) techs).

(** The node as a call of [tech.clean()] that returns may leave it: the
    registry is as it was. *)
Definition clean_keeps_registry (tech_clean : nat * Tech → M unit) : Prop :=
  ∀ ref n n', tech_clean ref n = Ok tt n' → _targetNames n' = _targetNames n.

(** The error [cleanTargets] throws for a target without technology. *)
Definition no_tech_error (target : string) : Error :=
  mkError PlainError
    (String.append "There is no tech for target " (String.append target ".")).

(** Concrete nodes for the examples.  [path.join] on two plain relative
    segments: *)
Definition posix_join (a b : string) : string :=
  String.append a (String.append "/" b).

(** An exception thrown by a technology. *)
Definition boom : Error := mkError PlainError "boom".

(** A technology like [bemdecl-merge]: it requests its sources and
    settles its target later. *)
Definition merge_tech : Tech :=
  mkTech "bemdecl-merge" ["index.bemdecl.js"]
         (BRequireSources ["search.bemdecl.js"] BReturn).

(** A technology whose build routine throws at once. *)
Definition throwing_tech : Tech := mkTech "broken" ["index.css"] (BThrow boom).

(** A technology that resolves its target and then throws. *)
Definition resolve_then_throw_tech : Tech :=
  mkTech "late-failure" ["index.js"]
         (BResolveTarget "index.js" (VData "code") (BThrow boom)).


(** ["pages/index"] as the platform sets it up, before any request. *)
Definition index_node : Node :=
  setLogger (setTechs [merge_tech; throwing_tech; resolve_then_throw_tech]
               (new_Node "pages/index" "index")).

(** The same node once its technologies are registered. *)
Definition index_node_registered : Node :=
  Eval vm_compute in
    match _registerTargets index_node with
    | Ok _ n => n
    | _ => index_node
    end.



(** A node whose technologies depend on each other, as [deps] depends on
    the levels and on [bemdecl-merge]: *)
Definition levels_tech : Tech :=
  mkTech "levels" ["index.levels"]
         (BResolveTarget "index.levels" (VData "levels") BReturn).

Definition deps_tech : Tech :=
  mkTech "deps" ["index.deps.js"]
         (BRequireSources ["index.levels"; "index.bemdecl.js"] BReturn).

Definition chain_node : Node :=
  setLogger (setTechs [deps_tech; merge_tech; levels_tech]
               (new_Node "pages/index" "index")).

Definition chain_node_registered : Node :=
  Eval vm_compute in
    match _registerTargets chain_node with
    | Ok _ n => n
    | _ => chain_node
    end.

(** A node two of whose technologies declare the same target. *)
Definition rival_tech : Tech := mkTech "css-stylus" ["index.css"] BReturn.

Definition conflicting_node : Node :=
  setLogger (setTechs [merge_tech; throwing_tech; rival_tech]
               (new_Node "pages/index" "index")).

(** A [clean()] that reports to the logger which technology it cleans. *)
Definition reporting_clean : nat * Tech → M unit :=
  λ ref, logger_call (LogAction "clean" (getName ref.2) None).

(** *** Facts about the dictionary *)

Lemma lookup_target_app name ts k t :
  lookup_target name (ts ++ [(k, t)]) =
  match lookup_target name ts with
  | Some x => Some x
  | None => if decide (k = name) then Some t else None
  end.
Proof.
  induction ts as [|[k' t'] ts IH]; simpl; [done|].
  by destruct (decide (k' = name)).
Qed.

Lemma lookup_update_target name name' f ts :
  lookup_target name' (update_target name f ts) =
  if decide (name = name') then f <$> lookup_target name ts
  else lookup_target name' ts.
Proof.
  induction ts as [|[k t] ts IH]; simpl.
  - by destruct (decide (name = name')).
  - repeat (case_decide; simplify_eq/=); try done.
    all: rewrite ?decide_True, ?decide_False by done; try done.
Qed.

Lemma update_target_keys name f ts : (update_target name f ts).*1 = ts.*1.
Proof.
  induction ts as [|[k t] ts IH]; [done|]. cbn [update_target].
  destruct (decide (k = name)); rewrite !fmap_cons; [done | by rewrite IH].
Qed.

Lemma lookup_target_Some_key name ts t :
  lookup_target name ts = Some t → name ∈ ts.*1.
Proof.
  induction ts as [|[k t'] ts IH]; [done|]. cbn [lookup_target].
  rewrite fmap_cons. destruct (decide (k = name)) as [->|]; intros H.
  - apply list_elem_of_here.
  - apply list_elem_of_further. auto.
Qed.

Lemma lookup_target_None_key name ts :
  lookup_target name ts = None → name ∉ ts.*1.
Proof.
  induction ts as [|[k t'] ts IH]; cbn [lookup_target].
  - intros _. apply not_elem_of_nil.
  - rewrite fmap_cons. destruct (decide (k = name)) as [->|Hne]; [done|].
    intros H. rewrite not_elem_of_cons. split; [by intros -> | auto].
Qed.

Lemma target_keys name n : is_Some (target name n) ↔ name ∈ (_targetNames n).*1.
Proof.
  unfold target. split.
  - intros [t Ht]. by eapply lookup_target_Some_key.
  - intros Hin. destruct (lookup_target name (_targetNames n)) eqn:E; [eauto|].
    by apply lookup_target_None_key in E.
Qed.

Lemma hasRegisteredTarget_keys name n :
  hasRegisteredTarget name n = true ↔
  name ∈ (_targetNames n).*1 ∨ name ∈ Object_prototype.
Proof.
  unfold hasRegisteredTarget.
  by rewrite orb_true_iff, !bool_decide_eq_true, target_keys.
Qed.

(** *** How a node may change while targets are requested and settled *)

Lemma target_evolves_refl t : target_evolves t t.
Proof. by split. Qed.

Lemma target_evolves_trans t1 t2 t3 :
  target_evolves t1 t2 → target_evolves t2 t3 → target_evolves t1 t3.
Proof.
  intros [A1 B1 C1 D1] [A2 B2 C2 D2]. split.
  - auto.
  - auto.
  - intros H. rewrite C2; [auto|]. rewrite C1; auto.
  - intros H. rewrite D2; [auto|]. rewrite D1; auto.
Qed.

#[global] Instance evolves_refl : Reflexive evolves.
Proof.
  intros n. split; try done.
  - intros name t Ht. exists t. split; [done | apply target_evolves_refl].
  - intros _ name t' Ht. by rewrite Ht.
  - intros name t' Ht Hs. left. by exists t'.
  - intros name t' ref Ht Htech. left. by exists t'.
  - exists []. rewrite app_nil_r. split_and!; [done | constructor | | ].
    + intros tid. rewrite elem_of_nil. tauto.
    + intros tid. by rewrite elem_of_nil.
Qed.

#[global] Instance evolves_trans : Transitive evolves.
Proof.
  intros n1 n2 n3 H12 H23. split.
  - by rewrite (ev_path _ _ H23), (ev_path _ _ H12).
  - by rewrite (ev_targetName _ _ H23), (ev_targetName _ _ H12).
  - by rewrite (ev_techs _ _ H23), (ev_techs _ _ H12).
  - by rewrite (ev_toBuild _ _ H23), (ev_toBuild _ _ H12).
  - intros H. eapply ev_registered; [done|]. by eapply ev_registered.
  - intros H. eapply ev_logger; [done|]. by eapply ev_logger.
  - intros name t Ht.
    destruct (ev_target _ _ H12 _ _ Ht) as (t2 & Ht2 & E12).
    destruct (ev_target _ _ H23 _ _ Ht2) as (t3 & Ht3 & E23).
    exists t3. split; [done|]. by eapply target_evolves_trans.
  - intros Hr name t3 Ht3.
    rewrite (ev_bound _ _ H23 (ev_registered _ _ H12 Hr) _ _ Ht3).
    destruct (target name n2) as [t2|] eqn:Ht2; simpl.
    + apply (ev_bound _ _ H12 Hr _ _ Ht2).
    + destruct (target name n1) as [t1|] eqn:Ht1; simpl; [|done].
      destruct (ev_target _ _ H12 _ _ Ht1) as (t2 & Ht2' & _). congruence.
  - intros name t3 Ht3 Hs3.
    destruct (ev_started _ _ H23 _ _ Ht3 Hs3) as [(t2 & Ht2 & Hs2)|Hnew]; [|by right].
    destruct (ev_started _ _ H12 _ _ Ht2 Hs2) as [?|(ref & Href & Hin)]; [by left|].
    right. exists ref.
    destruct (ev_target _ _ H23 _ _ Ht2) as (t3' & Ht3' & E23).
    assert (t3' = t3) as -> by congruence. split.
    + rewrite (te_tech _ _ E23); [done | by rewrite Href].
    + destruct (ev_builds _ _ H23) as (new2 & _ & _ & S2 & _). apply S2. by left.
  - intros name t3 ref Ht3 Htech3.
    destruct (ev_refs _ _ H23 _ _ _ Ht3 Htech3) as [(t2 & Ht2 & Htech2)|Hvalid].
    + apply (ev_refs _ _ H12 _ _ _ Ht2 Htech2).
    + right. by rewrite <- (ev_techs _ _ H12).
  - destruct (ev_builds _ _ H12) as (new1 & B1 & N1 & S1 & D1).
    destruct (ev_builds _ _ H23) as (new2 & B2 & N2 & S2 & D2).
    exists (new1 ++ new2). split_and!.
    + by rewrite B2, B1, app_assoc.
    + apply NoDup_app. split_and!; [done | | done].
      intros tid H1 H2. apply (D2 tid H2). apply S1. by right.
    + intros tid. rewrite S2, S1, elem_of_app. tauto.
    + intros tid. rewrite elem_of_app. intros [H|H]; [by apply D1|].
      intros Hs. apply (D2 tid H). apply S1. by left.
Qed.

Lemma evolves_set_logger n l : is_Some l → evolves n (set_logger l n).
Proof.
  intros Hl. split; try done.
  - intros name t Ht. exists t. split; [done | apply target_evolves_refl].
  - intros _ name t' Ht. change (target name n = Some t') in Ht. by rewrite Ht.
  - intros name t' Ht Hs. left. by exists t'.
  - intros name t' ref Ht Htech. left. by exists t'.
  - apply (ev_builds _ _ (evolves_refl n)).
Qed.

Lemma evolves_set_profiler n p : evolves n (set_profiler p n).
Proof.
  split; try done.
  - intros name t Ht. exists t. split; [done | apply target_evolves_refl].
  - intros _ name t' Ht. change (target name n = Some t') in Ht. by rewrite Ht.
  - intros name t' Ht Hs. left. by exists t'.
  - intros name t' ref Ht Htech. left. by exists t'.
  - apply (ev_builds _ _ (evolves_refl n)).
Qed.

Lemma evolves_set_registered n : evolves n (set_registered true n).
Proof.
  split; try done.
  - intros name t Ht. exists t. split; [done | apply target_evolves_refl].
  - intros _ name t' Ht. change (target name n = Some t') in Ht. by rewrite Ht.
  - intros name t' Ht Hs. left. by exists t'.
  - intros name t' ref Ht Htech. left. by exists t'.
  - apply (ev_builds _ _ (evolves_refl n)).
Qed.

Lemma target_add_target name name' n :
  target name' (add_target name n) =
  match target name' n with
  | Some t => Some t
  | None => if decide (name = name') then Some fresh_target else None
  end.
Proof. unfold target, add_target. simpl. apply lookup_target_app. Qed.

Lemma target_update name name' f n :
  target name' (update name f n) =
  if decide (name = name') then f <$> target name n else target name' n.
Proof. unfold target, update. simpl. apply lookup_update_target. Qed.

Lemma target_ensure_target name name' n :
  target name' (ensure_target name n) =
  match target name' n with
  | Some t => Some t
  | None => if decide (name = name') then Some fresh_target else None
  end.
Proof.
  unfold ensure_target. destruct (target name n) as [t|] eqn:E.
  - destruct (target name' n) eqn:E'; [done|].
    destruct (decide (name = name')) as [->|]; [congruence | done].
  - apply target_add_target.
Qed.

Lemma target_ensure_target_eq name n :
  target name (ensure_target name n) = Some (default fresh_target (target name n)).
Proof.
  rewrite target_ensure_target. destruct (target name n); [done|].
  by rewrite decide_True.
Qed.

Lemma evolves_add_target name n :
  target name n = None → evolves n (add_target name n).
Proof.
  intros Hnone. split; try done.
  - intros name' t Ht. exists t. rewrite target_add_target, Ht.
    split; [done | apply target_evolves_refl].
  - intros _ name' t'. rewrite target_add_target.
    destruct (target name' n) as [t|]; simpl; [congruence|].
    destruct (decide (name = name')); [|done]. by intros [= <-].
  - intros name' t'. rewrite target_add_target.
    destruct (target name' n) as [t|]; simpl.
    + intros [= <-] Hs. left. by exists t.
    + destruct (decide (name = name')); [|done]. by intros [= <-].
  - intros name' t' ref. rewrite target_add_target.
    destruct (target name' n) as [t|]; simpl.
    + intros [= <-] Htech. left. by exists t.
    + destruct (decide (name = name')); [|done]. by intros [= <-].
  - apply (ev_builds _ _ (evolves_refl n)).
Qed.

Lemma evolves_ensure_target name n : evolves n (ensure_target name n).
Proof.
  unfold ensure_target. destruct (target name n) eqn:E; [done|].
  by apply evolves_add_target.
Qed.

Lemma evolves_update name f n :
  (∀ t, target name n = Some t →
        target_evolves t (f t) ∧ (registered n = true → tech (f t) = tech t) ∧
        (started (f t) = true → started t = true ∨
           ∃ ref, tech (f t) = Some ref ∧ ref.1 ∈ techs_started n) ∧
        (∀ ref, tech (f t) = Some ref →
           tech t = Some ref ∨ _techs n !! ref.1 = Some ref.2)) →
  evolves n (update name f n).
Proof.
  intros Hf. split; try done.
  - intros name' t Ht. rewrite target_update.
    destruct (decide (name = name')) as [<-|].
    + rewrite Ht. simpl. exists (f t). split; [done|]. by apply Hf.
    + exists t. split; [done | apply target_evolves_refl].
  - intros Hr name' t'. rewrite target_update.
    destruct (decide (name = name')) as [<-|].
    + destruct (target name n) as [t|] eqn:Ht; simpl; [|done].
      intros [= <-]. by apply Hf.
    + intros ->. done.
  - intros name' t'. rewrite target_update.
    destruct (decide (name = name')) as [<-|].
    + destruct (target name n) as [t|] eqn:Ht; simpl; [|done].
      intros [= <-] Hs. destruct (Hf t eq_refl) as (_ & _ & H & _).
      destruct (H Hs) as [?|?]; [left; by exists t | by right].
    + intros Ht Hs. left. by exists t'.
  - intros name' t' ref. rewrite target_update.
    destruct (decide (name = name')) as [<-|].
    + destruct (target name n) as [t|] eqn:Ht; simpl; [|done].
      intros [= <-] Htech. destruct (Hf t eq_refl) as (_ & _ & _ & H).
      destruct (H ref Htech) as [?|?]; [left; by exists t | by right].
    + intros Ht Htech. left. by exists t'.
  - apply (ev_builds _ _ (evolves_refl n)).
Qed.

Lemma evolves_started name n :
  (∀ t, target name n = Some t →
        ∃ ref, tech t = Some ref ∧ ref.1 ∈ techs_started n) →
  evolves n (update name with_started n).
Proof.
  intros Hs. apply evolves_update. intros t Ht. split_and!; [by split | done | | auto].
  intros _. right. simpl. by apply Hs.
Qed.

Lemma evolves_isValid name n : evolves n (update name with_isValid n).
Proof. apply evolves_update. intros t _. split_and!; [by split | done | auto | auto]. Qed.

Lemma evolves_resolve name v n :
  evolves n (update name (with_deferred (defer_resolve v)) n).
Proof.
  apply evolves_update. intros t _. split_and!; [|done|auto|auto]. split; try done.
  simpl. by destruct (deferred t).
Qed.

Lemma evolves_reject name e n :
  evolves n (update name (with_deferred (defer_reject e)) n).
Proof.
  apply evolves_update. intros t _. split_and!; [|done|auto|auto]. split; try done.
  simpl. by destruct (deferred t).
Qed.

Lemma evolves_bind_tech name ref n :
  registered n = false →
  _techs n !! ref.1 = Some ref.2 →
  (∀ t, target name n = Some t → tech t = None) →
  evolves n (update name (with_tech ref) n).
Proof.
  intros Hr Href Hnone. apply evolves_update. intros t Ht.
  split_and!; [|congruence|auto|].
  - split; try done. simpl. rewrite (Hnone t Ht). by intros [? ?].
  - simpl. intros ref' [= <-]. by right.
Qed.

(** Marking the target started and starting its technology, together. *)
Lemma evolves_start name ref n :
  (∀ t, target name n = Some t → tech t = Some ref) →
  ref.1 ∉ techs_started n →
  evolves n (start_tech ref.1 (update name with_started n)).
Proof.
  intros Hb Hnot. split; try done.
  - intros name' t Ht. change (target name' (update name with_started n) = ?x)
      with (target name' (update name with_started n) = x).
    cut (∃ t', target name' (update name with_started n) = Some t' ∧ target_evolves t t');
      [done|].
    rewrite target_update. destruct (decide (name = name')) as [<-|].
    + rewrite Ht. simpl. exists (with_started t). split; [done | by split].
    + exists t. split; [done | apply target_evolves_refl].
  - intros Hr name' t'.
    change (target name' (update name with_started n) = Some t' →
            tech t' = target name' n ≫= tech).
    rewrite target_update. destruct (decide (name = name')) as [<-|].
    + destruct (target name n) as [t|] eqn:Ht; simpl; [|done]. by intros [= <-].
    + by intros ->.
  - intros name' t'.
    change (target name' (update name with_started n) = Some t' → started t' = true →
            (∃ t, target name' n = Some t ∧ started t = true) ∨
            (∃ ref0, tech t' = Some ref0 ∧ ref0.1 ∈ {[ref.1]} ∪ techs_started n)).
    rewrite target_update. destruct (decide (name = name')) as [<-|].
    + destruct (target name n) as [t|] eqn:Ht; simpl; [|done].
      intros [= <-] _. right. exists ref. split; [simpl; by apply Hb|].
      apply elem_of_union. left. by apply elem_of_singleton.
    + intros Ht Hs. left. by exists t'.
  - intros name' t' ref'.
    change (target name' (update name with_started n) = Some t' → tech t' = Some ref' →
            (∃ t, target name' n = Some t ∧ tech t = Some ref') ∨
            _techs n !! ref'.1 = Some ref'.2).
    rewrite target_update. destruct (decide (name = name')) as [<-|].
    + destruct (target name n) as [t|] eqn:Ht; simpl; [|done].
      intros [= <-] Htech. left. by exists t.
    + intros Ht Htech. left. by exists t'.
  - exists [ref.1]. split_and!; simpl.
    + done.
    + apply NoDup_singleton.
    + intros tid'. rewrite elem_of_union, elem_of_singleton, list_elem_of_singleton. tauto.
    + intros tid'. rewrite list_elem_of_singleton. by intros ->.
Qed.

Lemma evolves_start_tech tid n :
  tid ∉ techs_started n → evolves n (start_tech tid n).
Proof.
  intros Hnot. split; try done.
  - intros name t Ht. exists t. split; [done | apply target_evolves_refl].
  - intros _ name t' Ht. change (target name n = Some t') in Ht. by rewrite Ht.
  - intros name t' Ht Hs. left. by exists t'.
  - intros name t' ref Ht Htech. left. by exists t'.
  - exists [tid]. split_and!; simpl.
    + done.
    + apply NoDup_singleton.
    + intros tid'. rewrite elem_of_union, elem_of_singleton, list_elem_of_singleton. tauto.
    + intros tid'. rewrite list_elem_of_singleton. by intros ->.
Qed.

(** *** Reasoning about computations *)

Lemma bind_unfold {A B} (m : M A) (f : A → M B) n :
  (m ≫= f) n =
  match m n with
  | Ok a n' => f a n'
  | Throw e n' => Throw e n'
  | OutOfFuel => OutOfFuel
  end.
Proof. reflexivity. Qed.

Lemma post_bind {A B} tot (m : M A) (f : A → M B) n Q E :
  post tot (λ a n', post tot Q E (f a n')) E (m n) →
  post tot Q E ((m ≫= f) n).
Proof. rewrite bind_unfold. by destruct (m n). Qed.

Lemma post_mono {A} tot (Q Q' : A → Node → Prop) (E E' : Error → Node → Prop) r :
  post tot Q E r → (∀ a n, Q a n → Q' a n) → (∀ e n, E e n → E' e n) →
  post tot Q' E' r.
Proof. destruct r; simpl; auto. Qed.

Lemma post_try_catch {A} tot (body : M A) handler n Q E :
  post tot Q (λ e n', post tot Q E (handler e n')) (body n) →
  post tot Q E (try_catch body handler n).
Proof. unfold try_catch. by destruct (body n). Qed.

Lemma forEach_post {A} tot (I : Node → Prop) (E : Error → Node → Prop)
    (f : A → M unit) l n :
  (∀ x n, x ∈ l → I n → post tot (λ _, I) E (f x n)) →
  I n → post tot (λ _, I) E (forEach f l n).
Proof.
  revert n. induction l as [|x l IH]; intros n Hf HI; simpl; [done|].
  apply post_bind. eapply post_mono; [apply Hf; [apply list_elem_of_here | done] | |];
    simpl; [|done].
  intros _ n' HI'. apply IH; [|done].
  intros y n'' Hy. apply Hf. by apply list_elem_of_further.
Qed.

Section Totality.

(** Whether running out of fuel is acceptable in what follows. *)
Variable tot : Prop.

Lemma ev_post_trans {A} n0 n (r : Res A) :
  evolves n0 n → ev_post tot n r → ev_post tot n0 r.
Proof.
  intros H Hr. eapply post_mono; [exact Hr | |]; simpl; intros; by etrans.
Qed.

Lemma ev_post_bind {A B} n (m : M A) (f : A → M B) :
  ev_post tot n (m n) → (∀ a n', evolves n n' → ev_post tot n' (f a n')) →
  ev_post tot n ((m ≫= f) n).
Proof.
  intros Hm Hf. apply post_bind. eapply post_mono; [exact Hm | |]; simpl; [|done].
  intros a n' Hn'. eapply ev_post_trans; [done|]. by apply Hf.
Qed.

Lemma preserves_bind {A B} (m : M A) (f : A → M B) :
  preserves tot m → (∀ a, preserves tot (f a)) → preserves tot (m ≫= f).
Proof. intros Hm Hf n. apply ev_post_bind; [apply Hm|]. intros a n' _. apply Hf. Qed.

Lemma preserves_ret {A} (a : A) : preserves tot (mret a).
Proof. intros n. simpl. done. Qed.

Lemma preserves_throw {A} e : preserves tot (@throw A e).
Proof. intros n. simpl. done. Qed.

Lemma preserves_try_catch {A} (body : M A) handler :
  preserves tot body → (∀ e, preserves tot (handler e)) → preserves tot (try_catch body handler).
Proof.
  intros Hb Hh n. apply post_try_catch.
  eapply post_mono; [apply Hb | |]; simpl; [done|].
  intros e n' Hn'. eapply ev_post_trans; [done | apply Hh].
Qed.

Lemma preserves_forEach {A} (f : A → M unit) l :
  (∀ x, preserves tot (f x)) → preserves tot (forEach f l).
Proof.
  intros Hf. induction l as [|x l IH]; simpl.
  - apply preserves_ret.
  - apply preserves_bind; [apply Hf | by intros _].
Qed.

Lemma preserves_map_M {A B} (f : A → M B) l :
  (∀ x, preserves tot (f x)) → preserves tot (map_M f l).
Proof.
  intros Hf. induction l as [|x l IH]; simpl.
  - apply preserves_ret.
  - apply preserves_bind; [apply Hf | intros y].
    apply preserves_bind; [apply IH | intros ys]. apply preserves_ret.
Qed.

(** *** The primitive calls, as equations *)

Lemma logger_call_eq entry n :
  logger_call entry n =
  match _logger n with Some _ => Ok tt (logged entry n) | None => Throw type_error n end.
Proof. unfold logger_call, logged. rewrite bind_unfold. simpl. by destruct (_logger n). Qed.

Lemma profiler_call_eq entry n : profiler_call entry n = Ok tt (profiled entry n).
Proof.
  unfold profiler_call, profiled. rewrite bind_unfold. simpl. by destruct (_profiler n).
Qed.

Lemma _getTarget_eq name n :
  _getTarget name n = Ok (default fresh_target (target name n)) (ensure_target name n).
Proof.
  unfold _getTarget, ensure_target. rewrite bind_unfold. simpl.
  by destruct (target name n).
Qed.

Lemma assign_eq name f n : assign name f n = Ok tt (update name f n).
Proof. reflexivity. Qed.

Lemma evolves_logged entry n : evolves n (logged entry n).
Proof.
  unfold logged. destruct (_logger n) eqn:E; [|done]. by apply evolves_set_logger.
Qed.

Lemma evolves_profiled entry n : evolves n (profiled entry n).
Proof.
  unfold profiled. destruct (_profiler n) eqn:E; [|done]. apply evolves_set_profiler.
Qed.

Lemma preserves_logger_call entry : preserves tot (logger_call entry).
Proof.
  intros n. rewrite logger_call_eq. destruct (_logger n) eqn:E; simpl; [|done].
  unfold logged. rewrite E. by apply evolves_set_logger.
Qed.

Lemma preserves_profiler_call entry : preserves tot (profiler_call entry).
Proof. intros n. rewrite profiler_call_eq. apply evolves_profiled. Qed.

Lemma preserves_getTarget name : preserves tot (_getTarget name).
Proof. intros n. rewrite _getTarget_eq. apply evolves_ensure_target. Qed.

Lemma preserves_resolveTarget name v : preserves tot (resolveTarget name v).
Proof.
  unfold resolveTarget.
  apply preserves_bind; [apply preserves_getTarget | intros t].
  apply preserves_bind; [apply preserves_profiler_call | intros _].
  apply preserves_bind.
  { destruct (isValid t); [apply preserves_ret | apply preserves_logger_call]. }
  intros _. apply preserves_bind; [|intros _; apply preserves_ret].
  intros n. apply evolves_resolve.
Qed.

Lemma preserves_rejectTarget name e : preserves tot (rejectTarget name e).
Proof.
  unfold rejectTarget.
  apply preserves_bind; [apply preserves_getTarget | intros t].
  apply preserves_bind; [apply preserves_logger_call | intros _].
  apply preserves_bind; [|intros _; apply preserves_ret].
  intros n. apply evolves_reject.
Qed.

Lemma preserves_isValidTarget name : preserves tot (isValidTarget name).
Proof.
  unfold isValidTarget.
  apply preserves_bind; [apply preserves_getTarget | intros t].
  apply preserves_bind; [apply preserves_logger_call | intros _].
  intros n. apply evolves_isValid.
Qed.

(** Registration only binds technologies to unbound targets, and only
    while it has not completed. *)
Lemma _registerTarget_evolves name ref n :
  registered n = false → _techs n !! ref.1 = Some ref.2 →
  post tot (λ _ n', evolves n n' ∧ registered n' = false)
           (λ _ n', n' = n) (_registerTarget name ref n).
Proof.
  intros Hr Href. unfold _registerTarget. rewrite bind_unfold, _getTarget_eq.
  pose proof (target_ensure_target_eq name n) as Ht.
  destruct (tech (default fresh_target (target name n))) as [bound|] eqn:Hb.
  - simpl. unfold ensure_target.
    destruct (target name n) as [t|] eqn:E; [done|]. by simpl in Hb.
  - rewrite assign_eq. simpl.
    split; [|unfold ensure_target; by destruct (target name n)].
    etrans; [apply (evolves_ensure_target name)|].
    apply evolves_bind_tech.
    + unfold ensure_target. by destruct (target name n).
    + unfold ensure_target. by destruct (target name n).
    + intros t. rewrite Ht. by intros [= <-].
Qed.

Lemma preserves_registerTargets : preserves tot _registerTargets.
Proof.
  intros n. unfold _registerTargets. rewrite bind_unfold. simpl.
  destruct (registered n) eqn:Hr; [apply preserves_ret|].
  apply post_bind.
  eapply post_mono;
    [apply (forEach_post tot (λ n', evolves n n' ∧ registered n' = false)
                         (λ _ n', evolves n n')) | |]; simpl.
  - intros [i t] n1 Hin [Hev1 Hr1].
    apply elem_of_lookup_imap in Hin as (i' & t' & [= -> ->] & Hlook).
    eapply post_mono;
      [apply (forEach_post tot (λ n', evolves n n' ∧ registered n' = false)
                           (λ _ n', evolves n n')) | |]; simpl; try done.
    intros name n2 _ [Hev2 Hr2].
    eapply post_mono; [apply _registerTarget_evolves; [done|] | |]; simpl.
    + by rewrite (ev_techs _ _ Hev2).
    + intros _ n3 [Hev3 Hr3]. split; [by etrans | done].
    + by intros _ ? ->.
  - done.
  - intros _ n' [Hev _]. etrans; [done | apply evolves_set_registered].
  - done.
Qed.

Lemma _registerTargets_registered n n' :
  _registerTargets n = Ok tt n' → registered n' = true.
Proof.
  unfold _registerTargets. rewrite bind_unfold. simpl.
  destruct (registered n) eqn:Hr; [by intros [= <-]|].
  rewrite bind_unfold.
  destruct (forEach _ _ n) as [[] n1|e n1|]; [|done..].
  by intros [= <-].
Qed.

Lemma _registerTargets_done n :
  registered n = true → _registerTargets n = Ok tt n.
Proof. intros Hr. unfold _registerTargets. rewrite bind_unfold. simpl. by rewrite Hr. Qed.

Lemma preserves_run_build req p :
  (∀ sources, preserves tot (req sources)) → preserves tot (run_build req p).
Proof.
  intros Hreq. induction p; simpl.
  - apply preserves_ret.
  - apply preserves_throw.
  - apply preserves_bind; [apply preserves_resolveTarget | by intros _].
  - apply preserves_bind; [apply preserves_rejectTarget | by intros _].
  - apply preserves_bind; [apply preserves_isValidTarget | by intros _].
  - apply preserves_bind; [apply Hreq | by intros _].
Qed.

Lemma start_and_build_eq req ref source n :
  start_and_build req ref source n =
  match run_build req (tech_build ref.2) (start_tech ref.1 n) with
  | Throw e n' => (rejectTarget source e;; mret tt) n'
  | r => r
  end.
Proof. reflexivity. Qed.

Lemma start_and_build_evolves req ref source n0 n :
  (∀ sources, preserves tot (req sources)) →
  evolves n0 (start_tech ref.1 n) →
  ev_post tot n0 (start_and_build req ref source n).
Proof.
  intros Hreq Hs. rewrite start_and_build_eq.
  pose proof (preserves_run_build req (tech_build ref.2) Hreq (start_tech ref.1 n)) as Hb.
  destruct (run_build req (tech_build ref.2) (start_tech ref.1 n)) as [[] n'|e n'|];
    simpl in *; [by etrans | | done].
  eapply ev_post_trans; [by etrans|].
  apply preserves_bind; [apply preserves_rejectTarget | intros _; apply preserves_ret].
Qed.

End Totality.

Lemma techs_started_profiled entry n :
  techs_started (profiled entry n) = techs_started n.
Proof. unfold profiled. by destruct (_profiler n). Qed.

Lemma target_profiled entry name n : target name (profiled entry n) = target name n.
Proof. unfold profiled. by destruct (_profiler n). Qed.

Lemma target_logged entry name n : target name (logged entry n) = target name n.
Proof. unfold logged. by destruct (_logger n). Qed.

Lemma evolves_entering_build source ref n t :
  target source n = Some t → tech t = Some ref → ref.1 ∉ techs_started n →
  evolves n (entering_build source ref n).
Proof.
  intros Ht Htech Hnot. unfold entering_build.
  etrans; [apply (evolves_profiled (SetStartTime source (getName ref.2)))|].
  apply evolves_start.
  - intros t0. rewrite target_profiled, Ht. by intros [= <-].
  - by rewrite techs_started_profiled.
Qed.

(** [requireSource], case by case. *)
Lemma requireSource_unowned req source n :
  let s := unmaskTargetName n source in
  target s n ≫= tech = None →
  requireSource req source n =
  Ok (PRejected (target_not_found n s)) (ensure_target s n).
Proof.
  intros s Hnone. unfold requireSource. rewrite bind_unfold. simpl.
  rewrite bind_unfold, _getTarget_eq. fold s.
  destruct (target s n) as [t|]; simpl in *; by rewrite ?Hnone.
Qed.

Lemma requireSource_started req source n t ref :
  let s := unmaskTargetName n source in
  target s n = Some t → tech t = Some ref → started t = true →
  requireSource req source n = Ok (PTarget s) n.
Proof.
  intros s Ht Htech Hs. unfold requireSource. rewrite bind_unfold. simpl.
  rewrite bind_unfold, _getTarget_eq. fold s. unfold ensure_target.
  rewrite Ht. simpl. rewrite Htech, bind_unfold, Hs. done.
Qed.

Lemma requireSource_tech_started req source n t ref :
  let s := unmaskTargetName n source in
  target s n = Some t → tech t = Some ref → started t = false →
  ref.1 ∈ techs_started n →
  requireSource req source n =
  Ok (PTarget s)
     (update s with_started (profiled (SetStartTime s (getName ref.2)) n)).
Proof.
  intros s Ht Htech Hs Hin. unfold requireSource. rewrite bind_unfold. simpl.
  rewrite bind_unfold, _getTarget_eq. fold s. unfold ensure_target.
  rewrite Ht. simpl. rewrite Htech, bind_unfold, Hs.
  rewrite bind_unfold, profiler_call_eq, bind_unfold, assign_eq, bind_unfold.
  simpl. rewrite techs_started_profiled. by rewrite decide_True.
Qed.

Lemma requireSource_build req source n t ref :
  let s := unmaskTargetName n source in
  target s n = Some t → tech t = Some ref → started t = false →
  ref.1 ∉ techs_started n →
  requireSource req source n =
  match run_build req (tech_build ref.2) (entering_build s ref n) with
  | Ok _ n' => Ok (PTarget s) n'
  | Throw e n' =>
      match rejectTarget s e n' with
      | Ok _ n'' => Ok (PTarget s) n''
      | Throw e' n'' => Throw e' n''
      | OutOfFuel => OutOfFuel
      end
  | OutOfFuel => OutOfFuel
  end.
Proof.
  intros s Ht Htech Hs Hnot. unfold requireSource. rewrite bind_unfold. simpl.
  rewrite bind_unfold, _getTarget_eq. fold s. unfold ensure_target.
  rewrite Ht. simpl. rewrite Htech, bind_unfold, Hs.
  rewrite bind_unfold, profiler_call_eq, bind_unfold, assign_eq, bind_unfold.
  simpl. rewrite techs_started_profiled. rewrite decide_False by done.
  fold (start_and_build req ref s).
  rewrite start_and_build_eq. fold (entering_build s ref n).
  destruct (run_build req (tech_build ref.2) (entering_build s ref n)) as [[] n'|e n'|];
    try done.
  rewrite bind_unfold. by destruct (rejectTarget s e n').
Qed.

(** The four cases, for a target that is known or not. *)
Lemma requireSource_cases source n :
  let s := unmaskTargetName n source in
  (target s n ≫= tech = None) ∨
  (∃ t ref, target s n = Some t ∧ tech t = Some ref).
Proof.
  intros s. destruct (target s n) as [t|]; simpl; [|by left].
  destruct (tech t) as [ref|] eqn:E; [right; eauto | by left].
Qed.

Lemma preserves_requireSource tot req source :
  (∀ sources, preserves tot (req sources)) → preserves tot (requireSource req source).
Proof.
  intros Hreq n.
  destruct (requireSource_cases source n) as [Hnone|(t & ref & Ht & Htech)].
  - rewrite requireSource_unowned by done. apply evolves_ensure_target.
  - destruct (started t) eqn:Hs.
    { erewrite requireSource_started by done. simpl. done. }
    destruct (decide (ref.1 ∈ techs_started n)) as [Hin|Hnot].
    { erewrite requireSource_tech_started by done. simpl.
      etrans; [apply (evolves_profiled
                 (SetStartTime (unmaskTargetName n source) (getName ref.2)))|].
      apply evolves_started. intros t0. rewrite target_profiled, Ht.
      intros [= <-]. exists ref. by rewrite techs_started_profiled. }
    erewrite requireSource_build by done.
    pose proof (evolves_entering_build _ _ _ _ Ht Htech Hnot) as Hs0.
    pose proof (preserves_run_build tot req (tech_build ref.2) Hreq
                  (entering_build (unmaskTargetName n source) ref n)) as Hb.
    destruct (run_build req (tech_build ref.2) _) as [[] n'|e n'|];
      simpl in *; [by etrans | | done].
    pose proof (preserves_rejectTarget tot (unmaskTargetName n source) e n') as Hr.
    destruct (rejectTarget _ e n') as [? n''|? n''|]; simpl in *; try done.
    + etrans; [done|]. by etrans.
    + etrans; [done|]. by etrans.
Qed.

Lemma preserves_requireSources fuel sources :
  preserves True (requireSources fuel sources).
Proof.
  revert sources. induction fuel as [|fuel IH]; intros sources; simpl.
  - intros n. done.
  - apply preserves_bind; [apply preserves_registerTargets | intros _].
    apply preserves_map_M. intros source. by apply preserves_requireSource.
Qed.


(** *** State invariants *)

Lemma builds_consistent_evolves n n' :
  evolves n n' → builds_consistent n → builds_consistent n'.
Proof.
  intros Hev [Hnd Hin]. destruct (ev_builds _ _ Hev) as (new & B & N & S & D).
  split.
  - rewrite B. apply NoDup_app. split_and!; [done | | done].
    intros tid H1 H2. apply (D tid H2). by apply Hin.
  - intros tid. rewrite B, elem_of_app, S, Hin. done.
Qed.

Lemma refs_valid_evolves n n' : evolves n n' → refs_valid n → refs_valid n'.
Proof.
  intros Hev Hv name t' ref Ht' Htech. rewrite (ev_techs _ _ Hev).
  destruct (ev_refs _ _ Hev _ _ _ Ht' Htech) as [(t & Ht & Htech0)|?]; [|done].
  by apply (Hv name t ref).
Qed.

Lemma filter_length_le {A} (P Q : A → Prop) `{∀ x, Decision (P x)}
    `{∀ x, Decision (Q x)} (l : list A) :
  (∀ x, P x → Q x) → length (filter P l) ≤ length (filter Q l).
Proof.
  intros HPQ. induction l as [|x l IH]; [done|].
  rewrite !filter_cons. destruct (decide (P x)) as [HP|HP].
  - rewrite decide_True by auto. simpl. lia.
  - destruct (decide (Q x)); simpl; lia.
Qed.

Lemma filter_length_lt {A} (P Q : A → Prop) `{∀ x, Decision (P x)}
    `{∀ x, Decision (Q x)} (l : list A) y :
  (∀ x, P x → Q x) → y ∈ l → Q y → ¬ P y →
  length (filter P l) < length (filter Q l).
Proof.
  intros HPQ Hy HQ HP. induction l as [|x l IH]; [by apply elem_of_nil in Hy|].
  rewrite !filter_cons. apply elem_of_cons in Hy as [<-|Hy].
  - rewrite decide_False, decide_True by done. simpl.
    pose proof (filter_length_le P Q l HPQ). lia.
  - specialize (IH Hy). destruct (decide (P x)) as [HPx|HPx].
    + rewrite decide_True by auto. simpl. lia.
    + destruct (decide (Q x)); simpl; lia.
Qed.

Lemma unstarted_evolves n n' : evolves n n' → unstarted n' ≤ unstarted n.
Proof.
  intros Hev. unfold unstarted. rewrite (ev_techs _ _ Hev).
  apply filter_length_le. intros tid Hnot Hin. apply Hnot.
  destruct (ev_builds _ _ Hev) as (new & _ & _ & S & _). apply S. by left.
Qed.

Lemma unstarted_start_tech tid n :
  tid ∉ techs_started n → tid < length (_techs n) →
  unstarted (start_tech tid n) < unstarted n.
Proof.
  intros Hnot Hlt. unfold unstarted. simpl.
  apply (filter_length_lt _ _ _ tid).
  - intros i Hi Hin. apply Hi. apply elem_of_union. by right.
  - apply elem_of_seq. lia.
  - done.
  - intros Hi. apply Hi. apply elem_of_union. left. by apply elem_of_singleton.
Qed.

(** *** Enough fuel: requests terminate *)

Lemma runnable_evolves f n n' : runnable f n → evolves n n' → runnable f n'.
Proof.
  intros (Hv & Hr & Hu) Hev. split_and!.
  - by eapply refs_valid_evolves.
  - by eapply ev_registered.
  - pose proof (unstarted_evolves _ _ Hev). lia.
Qed.

Lemma run_build_total f req p n :
  req_total f req → runnable f n → ev_post False n (run_build req p n).
Proof.
  intros Hreq. revert n. induction p; intros n Hrun; simpl.
  - reflexivity.
  - reflexivity.
  - apply ev_post_bind; [apply preserves_resolveTarget|].
    intros _ n' Hev. apply IHp. by eapply runnable_evolves.
  - apply ev_post_bind; [apply preserves_rejectTarget|].
    intros _ n' Hev. apply IHp. by eapply runnable_evolves.
  - apply ev_post_bind; [apply preserves_isValidTarget|].
    intros _ n' Hev. apply IHp. by eapply runnable_evolves.
  - apply ev_post_bind; [apply Hreq; apply Hrun|].
    intros _ n' Hev. apply IHp. by eapply runnable_evolves.
Qed.

Lemma runnable_entering_build f s ref n t :
  runnable (S f) n → target s n = Some t → tech t = Some ref →
  ref.1 ∉ techs_started n → runnable f (entering_build s ref n).
Proof.
  intros Hrun Ht Htech Hnot.
  pose proof (evolves_entering_build _ _ _ _ Ht Htech Hnot) as Hs0.
  destruct (runnable_evolves _ _ _ Hrun Hs0) as (Hv & Hr & _).
  split_and!; try done.
  assert (ref.1 < length (_techs n)) as Hlt.
  { destruct Hrun as (Hv0 & _). eapply lookup_lt_Some. by apply (Hv0 s t). }
  unfold entering_build.
  set (n2 := update s with_started (profiled (SetStartTime s (getName ref.2)) n)).
  assert (evolves n (profiled (SetStartTime s (getName ref.2)) n)) as Hp
    by apply evolves_profiled.
  assert (unstarted (start_tech ref.1 n2) < unstarted n);
    [|destruct Hrun as (_ & _ & ?); lia].
  assert (unstarted n2 = unstarted n) as <-.
  { unfold unstarted, n2. simpl. by rewrite techs_started_profiled, (ev_techs _ _ Hp). }
  apply unstarted_start_tech.
  - unfold n2. simpl. by rewrite techs_started_profiled.
  - unfold n2. simpl. by rewrite (ev_techs _ _ Hp).
Qed.

Lemma requireSource_total f req source n :
  req_total f req → runnable (S f) n →
  ev_post False n (requireSource req source n).
Proof.
  intros Hreq Hrun.
  destruct (requireSource_cases source n) as [Hnone|(t & ref & Ht & Htech)].
  - rewrite requireSource_unowned by done. apply evolves_ensure_target.
  - destruct (started t) eqn:Hs.
    { erewrite requireSource_started by done. simpl. done. }
    destruct (decide (ref.1 ∈ techs_started n)) as [Hin|Hnot].
    { erewrite requireSource_tech_started by done. simpl.
      etrans; [apply (evolves_profiled
                 (SetStartTime (unmaskTargetName n source) (getName ref.2)))|].
      apply evolves_started. intros t0. rewrite target_profiled, Ht.
      intros [= <-]. exists ref. by rewrite techs_started_profiled. }
    erewrite requireSource_build by done.
    set (s := unmaskTargetName n source) in *.
    pose proof (evolves_entering_build _ _ _ _ Ht Htech Hnot) as Hs0.
    assert (runnable f (entering_build s ref n)) as Hrun'
      by (by eapply runnable_entering_build).
    pose proof (run_build_total f req (tech_build ref.2) _ Hreq Hrun') as Hb.
    destruct (run_build req (tech_build ref.2) _) as [[] n'|e n'|];
      simpl in *; [by etrans | | done].
    pose proof (preserves_rejectTarget False s e n') as Hr.
    destruct (rejectTarget _ e n') as [? n''|? n''|]; simpl in *; try done.
    + etrans; [done|]. by etrans.
    + etrans; [done|]. by etrans.
Qed.

Lemma map_M_total {A B} f (g : A → M B) l n :
  (∀ x n, runnable f n → ev_post False n (g x n)) →
  runnable f n → ev_post False n (map_M g l n).
Proof.
  intros Hg. revert n. induction l as [|x l IH]; intros n Hrun; simpl.
  - reflexivity.
  - apply ev_post_bind; [by apply Hg|]. intros y n' Hev.
    apply ev_post_bind; [apply IH; by eapply runnable_evolves|].
    intros; apply preserves_ret.
Qed.

(** With more fuel than there are technologies left to start,
    [requireSources] returns or throws. *)
Lemma requireSources_total fuel : req_total fuel (requireSources fuel).
Proof.
  induction fuel as [|f IH]; intros sources n Hv Hu; [lia|].
  simpl. rewrite bind_unfold.
  pose proof (preserves_registerTargets False n) as Hev.
  destruct (_registerTargets n) as [[] n1|e n1|] eqn:E; simpl in *; [|done..].
  eapply ev_post_trans; [exact Hev|].
  apply (map_M_total (S f)).
  - intros source n2 Hrun. by apply (requireSource_total f).
  - split_and!; [by eapply refs_valid_evolves | by eapply _registerTargets_registered |].
    pose proof (unstarted_evolves _ _ Hev). lia.
Qed.

Lemma techs_started_evolves n n' tid :
  evolves n n' → tid ∈ techs_started n → tid ∈ techs_started n'.
Proof.
  intros Hev Hin. destruct (ev_builds _ _ Hev) as (new & _ & _ & S & _).
  apply S. by left.
Qed.

Lemma started_consistent_evolves n n' :
  evolves n n' → started_consistent n → started_consistent n'.
Proof.
  intros Hev Hc name t' Ht' Hs'.
  destruct (ev_started _ _ Hev _ _ Ht' Hs') as [(t & Ht & Hs)|?]; [|done].
  destruct (Hc _ _ Ht Hs) as (ref & Href & Hin). exists ref.
  destruct (ev_target _ _ Hev _ _ Ht) as (t'' & Ht'' & E).
  assert (t'' = t') as -> by congruence. split.
  - rewrite (te_tech _ _ E); [done | by rewrite Href].
  - by eapply techs_started_evolves.
Qed.

Lemma Inv_evolves n n' : evolves n n' → Inv n → Inv n'.
Proof.
  intros Hev [H1 H2 H3]. split.
  - by eapply refs_valid_evolves.
  - by eapply builds_consistent_evolves.
  - by eapply started_consistent_evolves.
Qed.

Lemma Inv_registerTargets n n' : Inv n → _registerTargets n = Ok tt n' → Inv n'.
Proof.
  intros HI Hreg. pose proof (preserves_registerTargets True n) as Hev.
  rewrite Hreg in Hev. by eapply Inv_evolves.
Qed.

(** A node on which nothing has been requested yet. *)
Lemma Inv_initial n :
  _targetNames n = [] → builds n = [] → techs_started n = ∅ → Inv n.
Proof.
  intros Ht Hb Hs. split.
  - intros name t ref. unfold target. by rewrite Ht.
  - split; rewrite Hb; [constructor|]. intros tid. rewrite Hs.
    split; [by intros ?%elem_of_nil | by intros ?%elem_of_empty].
  - intros name t. unfold target. by rewrite Ht.
Qed.

Lemma filter_eq_not_elem (tid : nat) l :
  tid ∉ l → filter (λ i, i = tid) l = [].
Proof.
  induction l as [|x l IH]; [done|]. rewrite not_elem_of_cons. intros [Hne Hl].
  rewrite filter_cons_False by (by intros ->). auto.
Qed.

Lemma built_once n tid :
  builds_consistent n → tid ∈ techs_started n →
  length (filter (λ i, i = tid) (builds n)) = 1.
Proof.
  intros [Hnd Hin] Hs. apply Hin in Hs. revert Hnd Hs.
  generalize (builds n). intros l. induction l as [|x l IH]; intros Hnd Hx.
  - by apply elem_of_nil in Hx.
  - apply NoDup_cons in Hnd as [Hnot Hnd]. rewrite filter_cons.
    destruct (decide (x = tid)) as [->|Hne]; simpl.
    + by rewrite filter_eq_not_elem.
    + apply IH; [done|]. apply elem_of_cons in Hx as [->|]; done.
Qed.

(** *** With a logger installed the notifications do not throw *)

Lemma logger_ensure_target name n : _logger (ensure_target name n) = _logger n.
Proof. unfold ensure_target. by destruct (target name n). Qed.

Lemma logger_profiled entry n : _logger (profiled entry n) = _logger n.
Proof. unfold profiled. by destruct (_profiler n). Qed.

Lemma resolveTarget_ok name v n :
  is_Some (_logger n) → resolveTarget name v n = Ok (PTarget name) (resolved name v n).
Proof.
  intros [l Hl]. unfold resolveTarget, resolved.
  rewrite bind_unfold, _getTarget_eq, bind_unfold, profiler_call_eq, bind_unfold.
  destruct (isValid (default fresh_target (target name n))); [done|].
  rewrite logger_call_eq, logger_profiled, logger_ensure_target, Hl. done.
Qed.

Lemma rejectTarget_ok name e n :
  is_Some (_logger n) → rejectTarget name e n = Ok (PTarget name) (rejected name e n).
Proof.
  intros [l Hl]. unfold rejectTarget, rejected.
  rewrite bind_unfold, _getTarget_eq, bind_unfold.
  rewrite logger_call_eq, logger_ensure_target, Hl. done.
Qed.

Lemma isValidTarget_ok name n :
  is_Some (_logger n) → isValidTarget name n = Ok tt (validated name n).
Proof.
  intros [l Hl]. unfold isValidTarget, validated.
  rewrite bind_unfold, _getTarget_eq, bind_unfold.
  rewrite logger_call_eq, logger_ensure_target, Hl. done.
Qed.

Lemma evolves_rejected name e n : evolves n (rejected name e n).
Proof.
  unfold rejected. etrans; [apply (evolves_ensure_target name)|].
  etrans; [apply evolves_logged|]. apply evolves_reject.
Qed.

(** A request for an owned target returns the target's promise and leaves
    target and technology marked started. *)
Lemma requireSource_owned_ok f req source n t ref :
  let s := unmaskTargetName n source in
  req_total f req → runnable (S f) n → is_Some (_logger n) →
  started_consistent n → target s n = Some t → tech t = Some ref →
  ∃ n', requireSource req source n = Ok (PTarget s) n' ∧ evolves n n' ∧
        (∃ t', target s n' = Some t' ∧ started t' = true) ∧
        ref.1 ∈ techs_started n'.
Proof.
  intros s Hreq Hrun Hlog Hsc Ht Htech.
  destruct (started t) eqn:Hs.
  { exists n. erewrite requireSource_started by done. split_and!; try done.
    - by exists t.
    - destruct (Hsc _ _ Ht Hs) as (ref' & Href' & Hin). congruence. }
  assert (∀ n', evolves (update s with_started
                           (profiled (SetStartTime s (getName ref.2)) n)) n' →
                ∃ t', target s n' = Some t' ∧ started t' = true) as Hkeep.
  { intros n' Hev.
    destruct (ev_target _ _ Hev s (with_started t)) as (t' & Ht' & E).
    - rewrite target_update, decide_True by done. by rewrite target_profiled, Ht.
    - exists t'. split; [done|]. by apply (te_started _ _ E). }
  destruct (decide (ref.1 ∈ techs_started n)) as [Hin|Hnot].
  { eexists. erewrite requireSource_tech_started by done. fold s.
    split_and!; [done | | |].
    - etrans; [apply (evolves_profiled (SetStartTime s (getName ref.2)))|].
      apply evolves_started. intros t0. rewrite target_profiled, Ht.
      intros [= <-]. exists ref. by rewrite techs_started_profiled.
    - by apply Hkeep.
    - simpl. by rewrite techs_started_profiled. }
  pose proof (requireSource_total f req source n Hreq Hrun) as Htot.
  erewrite requireSource_build in * by done. fold s in Htot |- *.
  pose proof (evolves_entering_build _ _ _ _ Ht Htech Hnot) as Hs0.
  assert (∀ n', evolves (entering_build s ref n) n' →
                (∃ t', target s n' = Some t' ∧ started t' = true) ∧
                ref.1 ∈ techs_started n') as Hkeep'.
  { intros n' Hev. split.
    - destruct (ev_target _ _ Hev s (with_started t)) as (t' & Ht' & E).
      + unfold entering_build.
        change (target s (update s with_started
                  (profiled (SetStartTime s (getName ref.2)) n)) = Some (with_started t)).
        rewrite target_update, decide_True by done. by rewrite target_profiled, Ht.
      + exists t'. split; [done|]. by apply (te_started _ _ E).
    - eapply techs_started_evolves; [done|]. unfold entering_build. simpl.
      apply elem_of_union. left. by apply elem_of_singleton. }
  assert (runnable f (entering_build s ref n)) as Hrun'
    by (by eapply runnable_entering_build).
  pose proof (run_build_total f req (tech_build ref.2) _ Hreq Hrun') as Hb.
  destruct (run_build req (tech_build ref.2) (entering_build s ref n))
    as [[] n'|e n'|] eqn:E; simpl in Hb; [| |done].
  - exists n'. split_and!; [done | by etrans | |]; by apply Hkeep'.
  - rewrite rejectTarget_ok by (eapply ev_logger; [|done]; by etrans).
    pose proof (evolves_rejected s e n') as Hrej.
    exists (rejected s e n'). split_and!; [done | | |].
    + etrans; [done|]. by etrans.
    + apply Hkeep'. by etrans.
    + apply Hkeep'. by etrans.
Qed.

(** *** Repeated and interleaved requests *)

(** A name without placeholder is requested as it is. *)
Lemma unmaskTargetName_plain n name :
  Forall (λ c, c ≠ "?"%char) (String.list_ascii_of_string name) →
  unmaskTargetName n name = name.
Proof.
  unfold unmaskTargetName. induction name as [|c name IH]; simpl; [done|].
  intros [Hc Hrest]%Forall_cons. destruct (Ascii.eqb c "?") eqn:E.
  - by apply Ascii.eqb_eq in E.
  - by rewrite IH.
Qed.

Lemma unmask_evolves n n' source :
  evolves n n' → unmaskTargetName n' source = unmaskTargetName n source.
Proof. intros Hev. unfold unmaskTargetName. by rewrite (ev_targetName _ _ Hev). Qed.

Lemma serving_evolves fuel s ref n n' :
  serving fuel s ref n → evolves n n' → serving fuel s ref n'.
Proof.
  intros (HI & Hr & Hl & Hu & t & Ht & Htech) Hev. split_and!.
  - by eapply Inv_evolves.
  - by eapply ev_registered.
  - by eapply ev_logger.
  - pose proof (unstarted_evolves _ _ Hev). lia.
  - destruct (ev_target _ _ Hev _ _ Ht) as (t' & Ht' & E). exists t'.
    split; [done|]. rewrite (te_tech _ _ E); [done | by rewrite Htech].
Qed.

Lemma served_evolves s ref n n' : served s ref n → evolves n n' → served s ref n'.
Proof.
  intros [(t & Ht & Hs) Hin] Hev. split.
  - destruct (ev_target _ _ Hev _ _ Ht) as (t' & Ht' & E). exists t'.
    split; [done|]. by apply (te_started _ _ E).
  - by eapply techs_started_evolves.
Qed.

Lemma requireSources_single fuel source ref n :
  serving fuel (unmaskTargetName n source) ref n →
  ∃ n', requireSources fuel [source] n = Ok [PTarget (unmaskTargetName n source)] n' ∧
        evolves n n' ∧ served (unmaskTargetName n source) ref n'.
Proof.
  intros (HI & Hr & Hl & Hu & t & Ht & Htech).
  destruct fuel as [|f]; [lia|]. simpl.
  rewrite bind_unfold, (_registerTargets_done n Hr), bind_unfold.
  destruct (requireSource_owned_ok f (requireSources f) source n t ref)
    as (n' & -> & Hev & Hserved); try done.
  - apply requireSources_total.
  - split_and!; [apply HI | done | done].
  - apply HI.
  - exists n'. done.
Qed.

Lemma other_activity fuel other n :
  Inv n → registered n = true → unstarted n < fuel →
  ∃ n', try_catch (run_build (requireSources fuel) other) (λ _, mret tt) n = Ok tt n' ∧
        evolves n n'.
Proof.
  intros HI Hr Hu.
  pose proof (run_build_total fuel (requireSources fuel) other n
                (requireSources_total fuel)) as Hb.
  unfold try_catch.
  destruct (run_build (requireSources fuel) other n) as [[] n'|e n'|]; simpl in Hb.
  - exists n'. split; [done|]. apply Hb. split_and!; [apply HI | done | done].
  - exists n'. split; [done|]. apply Hb. split_and!; [apply HI | done | done].
  - exfalso. apply Hb. split_and!; [apply HI | done | done].
Qed.

Lemma interleaved_requests_ok fuel source ref others n :
  serving fuel (unmaskTargetName n source) ref n →
  ∃ n', interleaved_requests fuel [source] others n =
          Ok (replicate (length others) [PTarget (unmaskTargetName n source)]) n' ∧
        evolves n n' ∧
        (others ≠ [] → served (unmaskTargetName n source) ref n').
Proof.
  revert n. induction others as [|other others IH]; intros n Hserving.
  - exists n. by split_and!.
  - simpl. rewrite bind_unfold.
    destruct Hserving as (HI & Hr & Hl & Hu & Hb).
    destruct (other_activity fuel other n HI Hr Hu) as (n1 & -> & Hev1).
    assert (serving fuel (unmaskTargetName n1 source) ref n1) as Hs1.
    { rewrite (unmask_evolves _ _ _ Hev1). by eapply serving_evolves. }
    rewrite bind_unfold.
    destruct (requireSources_single fuel source ref n1 Hs1) as (n2 & -> & Hev2 & Hd2).
    assert (evolves n n2) as Hev by (by etrans).
    assert (serving fuel (unmaskTargetName n2 source) ref n2) as Hs2.
    { rewrite (unmask_evolves _ _ _ Hev). by eapply serving_evolves. }
    rewrite bind_unfold.
    destruct (IH n2 Hs2) as (n3 & -> & Hev3 & _).
    exists n3. rewrite (unmask_evolves _ _ _ Hev1), (unmask_evolves _ _ _ Hev).
    split_and!; [done | by etrans |]. intros _.
    rewrite (unmask_evolves _ _ _ Hev1) in Hd2. by eapply served_evolves.
Qed.

(** C1. A target [s] owned by a registered technology is requested [N]
    times ([N >= 1]), the requests being interleaved with arbitrary other
    calls on the node.  The technology's build routine is called exactly
    once in the whole history of the node, the first request leaves the
    target and the technology marked started, every request returns the
    same promise (the promise of the target's deferred), and once that
    promise is settled no further activity changes its outcome.  Requested
    names are looked up after placeholder resolution. *)
Theorem requireSources_builds_once
    (n : Node) (source : string) (t : Target) (ref : nat * Tech)
    (fuel : nat) (others : list BuildProg) :
  Inv n → registered n = true → is_Some (_logger n) → unstarted n < fuel →
  target (unmaskTargetName n source) n = Some t → tech t = Some ref →
  others ≠ [] →
  let s := unmaskTargetName n source in
  (∃ n1, requireSources fuel [source] n = Ok [PTarget s] n1 ∧ served s ref n1 ∧
         length (filter (λ i, i = ref.1) (builds n1)) = 1) ∧
  ∃ n', interleaved_requests fuel [source] others n =
          Ok (replicate (length others) [PTarget s]) n' ∧
        length (filter (λ i, i = ref.1) (builds n')) = 1 ∧
        served s ref n' ∧
        ∀ more : BuildProg,
          leaves (run_build (requireSources fuel) more n')
            (λ n'', promise_state n' (PTarget s) ≠ Pending →
                    promise_state n'' (PTarget s) = promise_state n' (PTarget s)).
Proof.
  intros HI Hr Hl Hu Ht Htech Hne s.
  assert (serving fuel s ref n) as Hserving by (split_and!; eauto).
  split.
  - destruct (requireSources_single fuel source ref n Hserving) as (n1 & E & Hev & Hd).
    exists n1. split_and!; [done | done |].
    apply built_once; [|apply Hd].
    apply (Inv_evolves _ _ Hev HI).
  - destruct (interleaved_requests_ok fuel source ref others n Hserving)
      as (n' & E & Hev & Hd).
    specialize (Hd Hne). exists n'. split_and!; [done | | done |].
    + apply built_once; [|apply Hd]. apply (Inv_evolves _ _ Hev HI).
    + intros more.
      assert (runnable fuel n') as Hrun.
      { destruct (serving_evolves _ _ _ _ _ Hserving Hev) as (HI' & ? & _ & ? & _).
        split_and!; [apply HI' | done | done]. }
      eapply post_mono;
        [apply (run_build_total fuel (requireSources fuel) more n'
                  (requireSources_total fuel) Hrun) | |]; simpl.
      * intros _ n'' Hev' Hset. destruct Hd as [(t' & Ht' & _) _].
        destruct (ev_target _ _ Hev' _ _ Ht') as (t'' & Ht'' & E'').
        subst s. rewrite Ht''. rewrite Ht' in Hset |- *. simpl in *.
        by apply (te_deferred _ _ E'').
      * intros _ n'' Hev' Hset. destruct Hd as [(t' & Ht' & _) _].
        destruct (ev_target _ _ Hev' _ _ Ht') as (t'' & Ht'' & E'').
        subst s. rewrite Ht''. rewrite Ht' in Hset |- *. simpl in *.
        by apply (te_deferred _ _ E'').
Qed.

(** *** Registration *)

Lemma _registerTarget_bound name ref n t bound :
  target name n = Some t → tech t = Some bound →
  _registerTarget name ref n =
  Throw (mkError PlainError
           (concurrent_techs_message name (getName bound.2) (getName ref.2))) n.
Proof.
  intros Ht Hb. unfold _registerTarget. rewrite bind_unfold, _getTarget_eq.
  unfold ensure_target. rewrite Ht. simpl. by rewrite Hb.
Qed.

Lemma _registerTarget_unbound name ref n :
  target name n ≫= tech = None →
  _registerTarget name ref n =
  Ok tt (update name (with_tech ref) (ensure_target name n)).
Proof.
  intros Hnone. unfold _registerTarget. rewrite bind_unfold, _getTarget_eq.
  destruct (target name n) as [t|]; simpl in *; by rewrite ?Hnone.
Qed.

Lemma tech_after_binding name ref n x :
  target x (update name (with_tech ref) (ensure_target name n)) ≫= tech =
  if decide (name = x) then Some ref else target x n ≫= tech.
Proof.
  rewrite target_update. destruct (decide (name = x)) as [<-|Hne].
  - by rewrite target_ensure_target_eq.
  - rewrite target_ensure_target. destruct (target x n); [done|].
    by rewrite decide_False.
Qed.

Lemma register_names_Ok ref names n n' :
  forEach (λ name, _registerTarget name ref) names n = Ok tt n' →
  NoDup names ∧ (∀ x, x ∈ names → ¬ bound n x) ∧
  (∀ x, bound n' x ↔ bound n x ∨ x ∈ names).
Proof.
  revert n. induction names as [|name names IH]; intros n; simpl.
  - intros [= <-]. split_and!; [constructor | by intros x ?%elem_of_nil |].
    intros x. rewrite elem_of_nil. tauto.
  - rewrite bind_unfold.
    destruct (target name n ≫= tech) as [b|] eqn:Hb.
    { destruct (target name n) as [t|] eqn:Ht; simpl in Hb; [|done].
      by rewrite (_registerTarget_bound name ref n t b). }
    rewrite (_registerTarget_unbound name ref n Hb).
    intros (Hnd & Hun & Hbd)%IH.
    assert (∀ x, bound (update name (with_tech ref) (ensure_target name n)) x ↔
                 x = name ∨ bound n x) as Hstep.
    { intros x. unfold bound. rewrite tech_after_binding.
      destruct (decide (name = x)) as [->|Hne].
      - split; [by left | by eexists].
      - split; [by right | by intros [->|?]]. }
    split_and!.
    + apply NoDup_cons. split; [|done]. intros Hin. apply (Hun _ Hin).
      apply Hstep. by left.
    + intros x [->|Hin]%elem_of_cons.
      * unfold bound. rewrite Hb. by intros [? ?].
      * intros Hx. apply (Hun _ Hin). apply Hstep. by right.
    + intros x. rewrite Hbd, Hstep, elem_of_cons. tauto.
Qed.

Lemma register_techs_Ok (refs : list (nat * Tech)) n n' :
  forEach (λ ref : nat * Tech,
             forEach (λ name, _registerTarget name ref) (getTargets ref.2))
          refs n = Ok tt n' →
  NoDup (concat ((getTargets ∘ snd) <$> refs)) ∧
  (∀ x, x ∈ concat ((getTargets ∘ snd) <$> refs) → ¬ bound n x) ∧
  (∀ x, bound n' x ↔ bound n x ∨ x ∈ concat ((getTargets ∘ snd) <$> refs)).
Proof.
  revert n. induction refs as [|ref refs IH]; intros n; simpl.
  - intros [= <-]. split_and!; [constructor | by intros x ?%elem_of_nil |].
    intros x. rewrite elem_of_nil. tauto.
  - rewrite bind_unfold.
    destruct (forEach _ (getTargets ref.2) n) as [[] n1|e n1|] eqn:E; [|done..].
    apply register_names_Ok in E as (Hnd1 & Hun1 & Hbd1).
    intros (Hnd & Hun & Hbd)%IH. split_and!.
    + apply NoDup_app. split_and!; [done | | done].
      intros x Hx1 Hx2. apply (Hun _ Hx2). apply Hbd1. by right.
    + intros x [Hx|Hx]%elem_of_app; [by apply Hun1|].
      intros Hb. apply (Hun _ Hx). apply Hbd1. by left.
    + intros x. rewrite Hbd, Hbd1, elem_of_app. tauto.
Qed.

Lemma imap_pair_targets (techs : list Tech) :
  (getTargets ∘ snd) <$> imap pair techs = getTargets <$> techs.
Proof.
  rewrite fmap_imap. apply list_eq. intros i.
  rewrite list_lookup_imap, list_lookup_fmap. by destruct (techs !! i).
Qed.

(** Registration starts no technology and throws plain errors only. *)
Lemma _registerTargets_quiet n :
  post False (λ _ n', builds n' = builds n)
             (λ e n', kind e = PlainError ∧ builds n' = builds n)
             (_registerTargets n).
Proof.
  unfold _registerTargets. rewrite bind_unfold. simpl.
  destruct (registered n); [done|].
  apply post_bind.
  eapply post_mono;
    [apply (forEach_post False (λ n', builds n' = builds n)
              (λ e n', kind e = PlainError ∧ builds n' = builds n)) | |];
    simpl; try done.
  intros ref n1 _ H1.
  eapply post_mono;
    [apply (forEach_post False (λ n', builds n' = builds n)
              (λ e n', kind e = PlainError ∧ builds n' = builds n)) | |];
    simpl; try done.
  intros name n2 _ H2. unfold _registerTarget.
  rewrite bind_unfold, _getTarget_eq.
  assert (builds (ensure_target name n2) = builds n) as H3.
  { unfold ensure_target. by destruct (target name n2). }
  by destruct (tech (default fresh_target (target name n2))).
Qed.

(** C2. Registering a technology for a target that already has one throws,
    synchronously and without changing the node, an error that names the
    target and both technologies; registering for a target that has none
    succeeds and binds the technology.  A registration error surfaces from
    [requireSources] before any build routine has been called, and it does
    surface whenever two technologies of the node declare the same
    target. *)
Theorem registerTarget_second_tech_throws
    (n : Node) (name : string) (ref : nat * Tech) :
  (∀ t first, target name n = Some t → tech t = Some first →
     let q := String (Ascii.ascii_of_nat 34) EmptyString in
     _registerTarget name ref n =
     Throw (mkError PlainError
              (String.concat EmptyString
                 ["Concurrent techs for target: "%string; name; ", techs: "%string;
                  q; getName first.2; q; " vs "%string; q; getName ref.2; q])) n) ∧
  (target name n ≫= tech = None →
     ∃ n', _registerTarget name ref n = Ok tt n' ∧
           tech <$> target name n' = Some (Some ref) ∧
           builds n' = builds n) ∧
  (∀ fuel sources e n', _registerTargets n = Throw e n' →
     requireSources (S fuel) sources n = Throw e n' ∧ builds n' = builds n) ∧
  (registered n = false → ¬ NoDup (concat (getTargets <$> _techs n)) →
     ∀ fuel sources, ∃ e n',
       requireSources (S fuel) sources n = Throw e n' ∧
       kind e = PlainError ∧ builds n' = builds n).
Proof.
  split_and!.
  - intros t first Ht Hb. by apply (_registerTarget_bound _ _ _ t).
  - intros Hnone. eexists. split; [by apply _registerTarget_unbound|].
    split; [|unfold ensure_target; by destruct (target name n)].
    rewrite target_update, decide_True by done.
    rewrite target_ensure_target_eq. done.
  - intros fuel sources e n' Hreg. simpl. rewrite bind_unfold, Hreg.
    split; [done|]. pose proof (_registerTargets_quiet n) as Hq.
    rewrite Hreg in Hq. apply Hq.
  - intros Hr Hdup fuel sources.
    pose proof (_registerTargets_quiet n) as Hq.
    destruct (_registerTargets n) as [[] n'|e n'|] eqn:Hreg; simpl in Hq; [| 
      exists e, n'; simpl; rewrite bind_unfold, Hreg; by destruct Hq | done].
    exfalso. apply Hdup.
    unfold _registerTargets in Hreg. rewrite bind_unfold in Hreg. simpl in Hreg.
    rewrite Hr, bind_unfold in Hreg.
    destruct (forEach _ (imap pair (_techs n)) n) as [[] n1|e n1|] eqn:E; [|done..].
    apply register_techs_Ok in E as (Hnd & _). by rewrite imap_pair_targets in Hnd.
Qed.

(** *** Requests for targets nobody owns *)

(** [Vow.all] is rejected with the reason of the first promise in its
    argument that is rejected. *)
Lemma Vow_all_rejected ds1 e ds2 :
  Vow_all (ds1 ++ Rejected e :: ds2) =
  AllRejected (default e (head (omap rejection ds1))).
Proof.
  unfold Vow_all. rewrite omap_app. simpl.
  by destruct (omap rejection ds1).
Qed.

Lemma techs_started_unchanged n n' :
  evolves n n' → builds n' = builds n → techs_started n' = techs_started n.
Proof.
  intros Hev Hb. destruct (ev_builds _ _ Hev) as (new & B & _ & S & _).
  rewrite Hb in B. rewrite <- (app_nil_r (builds n)) in B at 1.
  apply app_inv_head in B as <-.
  apply set_eq. intros x. rewrite S, elem_of_nil. tauto.
Qed.

Lemma target_not_found_evolves n n' s :
  evolves n n' → target_not_found n' s = target_not_found n s.
Proof. intros Hev. unfold target_not_found. by rewrite (ev_path _ _ Hev). Qed.

(** After registration a name without technology stays without one, and
    the callback of [requireSources] answers it with a rejected promise. *)
Lemma requireSource_unowned_later req source n1 n2 :
  registered n1 = true →
  target (unmaskTargetName n1 source) n1 ≫= tech = None →
  evolves n1 n2 →
  ∃ n3, requireSource req source n2 =
          Ok (PRejected (target_not_found n1 (unmaskTargetName n1 source))) n3 ∧
        builds n3 = builds n2 ∧ techs_started n3 = techs_started n2.
Proof.
  intros Hr1 Hnone Hev.
  assert (target (unmaskTargetName n2 source) n2 ≫= tech = None) as Hnone2.
  { rewrite (unmask_evolves _ _ _ Hev).
    destruct (target (unmaskTargetName n1 source) n2) as [t2|] eqn:Ht2; simpl; [|done].
    by rewrite (ev_bound _ _ Hev Hr1 _ _ Ht2). }
  rewrite (requireSource_unowned req source n2 Hnone2).
  rewrite (unmask_evolves _ _ _ Hev), (target_not_found_evolves _ _ _ Hev).
  eexists. split; [done|]. unfold ensure_target.
  by destruct (target (unmaskTargetName n1 source) n2).
Qed.

Lemma requireSources_single_unowned fuel source n :
  registered n = true →
  target (unmaskTargetName n source) n ≫= tech = None →
  ∃ n', requireSources (S fuel) [source] n =
          Ok [PRejected (target_not_found n (unmaskTargetName n source))] n' ∧
        builds n' = builds n.
Proof.
  intros Hr Hnone. simpl. rewrite bind_unfold, (_registerTargets_done n Hr), bind_unfold.
  destruct (requireSource_unowned_later (requireSources fuel) source n n Hr Hnone)
    as (n3 & -> & Hb & _); [done|].
  by exists n3.
Qed.

Lemma map_M_app {A B} (g : A → M B) l1 l2 n ps n' :
  map_M g (l1 ++ l2) n = Ok ps n' →
  ∃ ps1 ps2 m, map_M g l1 n = Ok ps1 m ∧ map_M g l2 m = Ok ps2 n' ∧
               ps = ps1 ++ ps2 ∧ length ps1 = length l1.
Proof.
  revert n ps. induction l1 as [|x l1 IH]; intros n ps; simpl.
  - intros H. by exists [], ps, n.
  - rewrite !bind_unfold. destruct (g x n) as [p n1|e n1|]; [|done..].
    rewrite !bind_unfold.
    destruct (map_M g (l1 ++ l2) n1) as [ps' n2|e n2|] eqn:E; [|done..].
    intros [= <- <-]. destruct (IH _ _ E) as (ps1 & ps2 & m & -> & H2 & -> & Hlen).
    exists (p :: ps1), ps2, m. simpl. by rewrite Hlen.
Qed.

(** C3, as the code has it.  A requested name whose target, after
    registration, has no technology: the promise [requireSources] creates
    for it is a rejected promise carrying the target-not-found error for
    that name, whatever else is requested with it, and handling the name
    calls no build routine and starts no technology.  The outcome of the
    request is rejected with the reason of the first rejected promise in
    request order: with that error when the name is requested alone or
    after sources none of whose futures is rejected, and otherwise with the
    reason of the first rejected source before it. *)
Theorem requireSources_unowned_rejected (n n1 : Node) (source : string) :
  _registerTargets n = Ok tt n1 →
  target (unmaskTargetName n source) n1 ≫= tech = None →
  let s := unmaskTargetName n source in
  let err := target_not_found n s in
  (kind err = TargetNotFoundEror ∧
   message err = String.append "There is no tech for target "
                   (path_join (_path n) (String.append s "."))) ∧
  (∀ fuel, ∃ n',
     requireSources (S fuel) [source] n = Ok [PRejected err] n' ∧
     builds n' = builds n ∧ techs_started n' = techs_started n ∧
     all_state n' [PRejected err] = AllRejected err) ∧
  (∀ fuel before after ps n',
     requireSources fuel (before ++ source :: after) n = Ok ps n' →
     ∃ ps1 ps2,
       ps = ps1 ++ PRejected err :: ps2 ∧ length ps1 = length before ∧
       all_state n' ps =
         AllRejected (default err (head (omap rejection (promise_state n' <$> ps1))))) ∧
  (∀ req n2, evolves n1 n2 →
     ∃ n3, requireSource req source n2 = Ok (PRejected err) n3 ∧
           builds n3 = builds n2 ∧ techs_started n3 = techs_started n2).
Proof.
  intros Hreg Hnone s err.
  pose proof (preserves_registerTargets True n) as Hev1.
  rewrite Hreg in Hev1. simpl in Hev1.
  pose proof (_registerTargets_registered _ _ Hreg) as Hr1.
  assert (∀ req n2, evolves n1 n2 →
     ∃ n3, requireSource req source n2 = Ok (PRejected err) n3 ∧
           builds n3 = builds n2 ∧ techs_started n3 = techs_started n2) as Hcb.
  { intros req n2 Hev2.
    destruct (requireSource_unowned_later req source n1 n2) as (n3 & E & Hb);
      [done | by rewrite (unmask_evolves _ _ _ Hev1) | done |].
    rewrite (unmask_evolves _ _ _ Hev1), (target_not_found_evolves _ _ _ Hev1) in E.
    by exists n3. }
  split_and!; [done | done | | | done].
  - intros fuel. simpl. rewrite bind_unfold, Hreg, bind_unfold.
    destruct (Hcb (requireSources fuel) n1) as (n3 & -> & Hb & Hs); [done|].
    exists n3. pose proof (_registerTargets_quiet n) as Hq.
    rewrite Hreg in Hq. simpl in Hq. split_and!; [done | congruence | | done].
    rewrite Hs. by apply techs_started_unchanged.
  - intros fuel before after ps n' Hrun.
    destruct fuel as [|fuel]; [done|]. simpl in Hrun.
    rewrite bind_unfold, Hreg in Hrun.
    apply map_M_app in Hrun as (ps1 & ps2 & m & Hbefore & Hrest & -> & Hlen).
    assert (evolves n1 m) as Hevm.
    { pose proof (preserves_map_M True (requireSource (requireSources fuel)) before
                    (λ y, preserves_requireSource True (requireSources fuel) y
                            (preserves_requireSources fuel)) n1) as H.
      by rewrite Hbefore in H. }
    simpl in Hrest. rewrite bind_unfold in Hrest.
    destruct (Hcb (requireSources fuel) m Hevm) as (m3 & Hsrc & _).
    rewrite Hsrc, bind_unfold in Hrest.
    destruct (map_M _ after m3) as [ps3 m4|e m4|]; [|done..].
    injection Hrest as <- <-.
    exists ps1, ps3. split_and!; [done | done |].
    unfold all_state. rewrite fmap_app, fmap_cons. apply Vow_all_rejected.
Qed.

(** *** Settling targets *)

Lemma ends_in_evolves {A} (m : M A) n n' :
  preserves True m → ends_in (m n) n' → evolves n n'.
Proof.
  intros Hm Hend. specialize (Hm n). by destruct (m n); simpl in *; subst.
Qed.

Lemma activity_evolves fuel more n n' :
  ends_in (run_build (requireSources fuel) more n) n' → evolves n n'.
Proof.
  apply ends_in_evolves. apply preserves_run_build. apply preserves_requireSources.
Qed.

(** The invariant holds in every state a node reaches through calls of
    its methods. *)
Lemma Inv_activity fuel more n n' :
  Inv n → ends_in (run_build (requireSources fuel) more n) n' → Inv n'.
Proof. intros HI Hend. eapply Inv_evolves; [|done]. by eapply activity_evolves. Qed.

Lemma promise_state_update name f n :
  promise_state (update name (with_deferred f) n) (PTarget name) =
  match target name n with
  | Some t => f (deferred t)
  | None => Pending
  end.
Proof.
  simpl. rewrite target_update, decide_True by done. by destruct (target name n).
Qed.

Lemma promise_state_rejected name e n :
  promise_state (rejected name e n) (PTarget name) =
  defer_reject e (promise_state n (PTarget name)).
Proof.
  unfold rejected. rewrite promise_state_update, target_logged, target_ensure_target_eq.
  simpl. by destruct (target name n).
Qed.

Lemma promise_state_resolved name v n :
  promise_state (resolved name v n) (PTarget name) =
  defer_resolve v (promise_state n (PTarget name)).
Proof.
  unfold resolved. rewrite promise_state_update.
  assert (∀ m, target name m = Some (default fresh_target (target name n)) →
     target name (if isValid (default fresh_target (target name n)) then m
                  else logged (LogAction "rebuild" name
                                 (techName (default fresh_target (target name n)))) m)
     = Some (default fresh_target (target name n))) as H.
  { intros m Hm. destruct (isValid _); [done|]. by rewrite target_logged. }
  rewrite H by (by rewrite target_profiled, target_ensure_target_eq).
  simpl. by destruct (target name n).
Qed.


Lemma logger_update name f n : _logger (update name f n) = _logger n.
Proof. done. Qed.

Lemma logger_logged entry n :
  _logger (logged entry n) = (λ l, l ++ [entry]) <$> _logger n.
Proof. unfold logged. destruct (_logger n) eqn:E; simpl; by rewrite ?E. Qed.



(** *** The top-level build *)

Lemma requireSource_result req source n p n' :
  requireSource req source n = Ok p n' →
  p = PTarget (unmaskTargetName n source) ∨ ∃ e, p = PRejected e.
Proof.
  destruct (requireSource_cases source n) as [Hnone|(t & ref & Ht & Htech)].
  - rewrite requireSource_unowned by done. intros [= <- _]. right. by eexists.
  - destruct (started t) eqn:Hs.
    { erewrite requireSource_started by done. intros [= <- _]. by left. }
    destruct (decide (ref.1 ∈ techs_started n)) as [Hin|Hnot].
    { erewrite requireSource_tech_started by done. intros [= <- _]. by left. }
    erewrite requireSource_build by done.
    destruct (run_build _ _ _) as [[] m|e m|]; [by intros [= <- _]; left | | done].
    destruct (rejectTarget _ e m) as [? m'|? m'|]; [|done..].
    intros [= <- _]. by left.
Qed.

Lemma map_M_requireSource_shape req l n ps n' :
  (∀ sources, preserves True (req sources)) →
  map_M (requireSource req) l n = Ok ps n' →
  Forall2 (λ name p, p = PTarget (unmaskTargetName n name) ∨ ∃ e, p = PRejected e) l ps.
Proof.
  intros Hreq. revert n ps. induction l as [|x l IH]; intros n ps; simpl.
  - intros [= <- _]. constructor.
  - rewrite bind_unfold.
    pose proof (preserves_requireSource True req x Hreq n) as Hev.
    destruct (requireSource req x n) as [p n1|e n1|] eqn:E; [|done..].
    rewrite bind_unfold.
    destruct (map_M (requireSource req) l n1) as [ps' n2|e n2|] eqn:E'; [|done..].
    intros [= <- <-]. constructor.
    + by eapply requireSource_result.
    + eapply Forall2_impl; [by apply (IH n1)|]. simpl. intros name q.
      by rewrite (unmask_evolves _ _ _ Hev).
Qed.

Lemma requireSources_shape fuel sources n ps n' :
  requireSources fuel sources n = Ok ps n' →
  Forall2 (λ name p, p = PTarget (unmaskTargetName n name) ∨ ∃ e, p = PRejected e)
          sources ps.
Proof.
  destruct fuel as [|fuel]; [done|]. simpl. rewrite bind_unfold.
  pose proof (preserves_registerTargets True n) as Hev.
  destruct (_registerTargets n) as [[] n1|e n1|]; [|done..]. intros Hrun.
  eapply Forall2_impl.
  - eapply map_M_requireSource_shape; [|done]. apply preserves_requireSources.
  - simpl. intros name q. by rewrite (unmask_evolves _ _ _ Hev).
Qed.

Lemma Vow_all_fulfilled ds vs :
  Vow_all ds = AllFulfilled vs → ds = Fulfilled <$> vs.
Proof.
  unfold Vow_all. destruct (omap rejection ds) eqn:Hrej; [|done].
  destruct (mapM fulfilment ds) as [vs'|] eqn:Hful; [|done].
  intros [= <-]. apply mapM_Some in Hful.
  induction Hful as [|d v ds vs' Hd _ IH]; [done|]. simpl in Hrej.
  destruct d; simplify_eq/=. f_equal. by apply IH.
Qed.

(** C7. [build(targets)] ends (it returns or throws) when there is fuel
    for the technologies still to start.  When it returns, the promises it
    waits for are those of the requested names, expanded and deduplicated,
    in order; and whenever all of them are fulfilled its result is
    fulfilled with [builtTargets] equal to the node path joined with each
    of these names, in the same order. *)
Theorem build_returns_builtTargets (n : Node) (fuel : nat) (targets : list string) :
  let requested := uniq (_expandTargets targets (_targetNamesToBuild n) n) in
  (refs_valid n → unstarted n < fuel → build fuel (Some targets) n ≠ OutOfFuel) ∧
  ∀ bp n', build fuel (Some targets) n = Ok bp n' →
    Forall2 (λ name p, p = PTarget (unmaskTargetName n name) ∨ ∃ e, p = PRejected e)
            requested (awaited bp) ∧
    ∀ m vs, all_state m (awaited bp) = AllFulfilled vs →
      awaited bp = (λ name, PTarget (unmaskTargetName n name)) <$> requested ∧
      build_state m bp =
        BuildFulfilled (mkBuildResult (path_join (_path n) <$> requested)).
Proof.
  intros requested. split.
  - intros Hv Hu. unfold build. rewrite bind_unfold. simpl. rewrite bind_unfold.
    pose proof (requireSources_total fuel
                  (_resolveTargets (Some targets) (_targetNamesToBuild n) n) n Hv Hu) as H.
    by destruct (requireSources fuel _ n).
  - intros bp n'. unfold build. rewrite bind_unfold. simpl. rewrite bind_unfold.
    change (_resolveTargets (Some targets) (_targetNamesToBuild n) n) with requested.
    destruct (requireSources fuel requested n) as [ps n1|e n1|] eqn:E; [|done..].
    intros [= <- _]. simpl. apply requireSources_shape in E. split; [done|].
    intros m vs Hall. split.
    + apply Vow_all_fulfilled in Hall.
      revert vs Hall. induction E as [|name p names ps' Hp _ IH]; intros vs Hall;
        [done|].
      destruct vs as [|v vs]; [done|]. rewrite !fmap_cons in Hall.
      injection Hall as Hp' Hall. rewrite fmap_cons. f_equal; [|by eapply IH].
      destruct Hp as [->|[e ->]]; [done|]. done.
    + unfold build_state. simpl. by rewrite Hall.
Qed.

(** *** Requests for several targets *)

(** Once registration is over, the technology of a name is settled. *)
Lemma tech_registered_evolves n n' name :
  registered n = true → evolves n n' →
  target name n' ≫= tech = target name n ≫= tech.
Proof.
  intros Hr Hev. destruct (target name n') as [t'|] eqn:Ht'; simpl.
  - by apply (ev_bound _ _ Hev Hr).
  - destruct (target name n) as [t|] eqn:Ht; simpl; [|done].
    destruct (ev_target _ _ Hev _ _ Ht) as (t'' & ? & _). congruence.
Qed.

Lemma answer_evolves n n' source :
  registered n = true → evolves n n' → answer n' source = answer n source.
Proof.
  intros Hr Hev. unfold answer.
  by rewrite (unmask_evolves _ _ _ Hev), (tech_registered_evolves _ _ _ Hr Hev),
    (target_not_found_evolves _ _ _ Hev).
Qed.

Lemma requireSource_answers f req source n :
  req_total f req → runnable (S f) n → is_Some (_logger n) →
  started_consistent n →
  ∃ n', requireSource req source n = Ok (answer n source) n' ∧ evolves n n' ∧
        ∀ ref, target (unmaskTargetName n source) n ≫= tech = Some ref →
               served (unmaskTargetName n source) ref n'.
Proof.
  intros Hreq Hrun Hl Hsc.
  destruct (requireSource_cases source n) as [Hnone|(t & ref & Ht & Htech)].
  - exists (ensure_target (unmaskTargetName n source) n).
    rewrite requireSource_unowned by done. unfold answer. rewrite Hnone.
    split_and!; [done | apply evolves_ensure_target | done].
  - destruct (requireSource_owned_ok f req source n t ref)
      as (n' & E & Hev & Hs & Hin); try done.
    exists n'. unfold answer. rewrite Ht. simpl. rewrite Htech.
    split_and!; [done | done |]. by intros ? [= <-].
Qed.

Lemma map_M_requireSource_answers f req sources n :
  req_total f req → runnable (S f) n → is_Some (_logger n) →
  started_consistent n →
  ∃ n', map_M (requireSource req) sources n = Ok (answer n <$> sources) n' ∧
        evolves n n' ∧
        ∀ source ref, source ∈ sources →
          target (unmaskTargetName n source) n ≫= tech = Some ref →
          served (unmaskTargetName n source) ref n'.
Proof.
  intros Hreq. revert n. induction sources as [|x l IH]; intros n Hrun Hl Hsc.
  - exists n. split_and!; [done | done |]. by intros ? ? ?%elem_of_nil.
  - simpl. rewrite bind_unfold.
    destruct (requireSource_answers f req x n) as (n1 & -> & Hev1 & Hs1); try done.
    rewrite bind_unfold.
    assert (registered n = true) as Hr by apply Hrun.
    destruct (IH n1) as (n2 & -> & Hev2 & Hs2).
    { by eapply runnable_evolves. }
    { by eapply ev_logger. }
    { by eapply started_consistent_evolves. }
    exists n2. split_and!.
    + simpl. do 2 f_equal. apply list_fmap_ext. intros _ y _. by apply answer_evolves.
    + by etrans.
    + intros source ref [->|Hin]%elem_of_cons Hb.
      * eapply served_evolves; [by apply Hs1 | done].
      * rewrite <- (unmask_evolves _ _ _ Hev1). apply Hs2; [done|].
        by rewrite (unmask_evolves _ _ _ Hev1), (tech_registered_evolves _ _ _ Hr Hev1).
Qed.

(** On a node that is ready to serve, [requireSources] returns, with the
    promise of each source in order. *)
Lemma requireSources_answers fuel sources n :
  Inv n → registered n = true → is_Some (_logger n) → unstarted n < fuel →
  ∃ n', requireSources fuel sources n = Ok (answer n <$> sources) n' ∧
        evolves n n' ∧
        ∀ source ref, source ∈ sources →
          target (unmaskTargetName n source) n ≫= tech = Some ref →
          served (unmaskTargetName n source) ref n'.
Proof.
  intros HI Hr Hl Hu. destruct fuel as [|f]; [lia|]. simpl.
  rewrite bind_unfold, (_registerTargets_done n Hr).
  apply (map_M_requireSource_answers f);
    [apply requireSources_total | | done | apply HI].
  split_and!; [apply HI | done | done].
Qed.

(** X4. On a node whose technologies are registered, [requireSources]
    returns one promise per requested source, in order: the promise of the
    target's own deferred when a technology owns the (placeholder-resolved)
    name, a fresh rejection with the target-not-found error otherwise.
    Afterwards every owned requested target is marked started, and the
    build routine of its technology has been called exactly once in the
    history of the node, however many of the technology's targets were
    requested; the calls made before are still the first ones recorded. *)
Theorem requireSources_answers_each_source
    (n : Node) (fuel : nat) (sources : list string) :
  Inv n → registered n = true → is_Some (_logger n) → unstarted n < fuel →
  ∃ n', requireSources fuel sources n = Ok (answer n <$> sources) n' ∧
        (∀ source ref, source ∈ sources →
           target (unmaskTargetName n source) n ≫= tech = Some ref →
           answer n source = PTarget (unmaskTargetName n source) ∧
           served (unmaskTargetName n source) ref n' ∧
           length (filter (λ i, i = ref.1) (builds n')) = 1) ∧
        (∀ source, source ∈ sources →
           target (unmaskTargetName n source) n ≫= tech = None →
           ∀ m, promise_state m (answer n source) =
                Rejected (target_not_found n (unmaskTargetName n source))) ∧
        builds n `prefix_of` builds n' ∧ Inv n'.
Proof.
  intros HI Hr Hl Hu.
  destruct (requireSources_answers fuel sources n HI Hr Hl Hu) as (n' & E & Hev & Hs).
  pose proof (Inv_evolves _ _ Hev HI) as HI'.
  exists n'. split_and!; [done | | | | done].
  - intros source ref Hin Hb. split_and!.
    + unfold answer. by rewrite Hb.
    + by apply Hs.
    + apply built_once; [apply HI' | by apply (Hs source ref)].
  - intros source Hin Hnone m. unfold answer. by rewrite Hnone.
  - destruct (ev_builds _ _ Hev) as (new & -> & _). by exists new.
Qed.

Lemma builds_entering_build s ref n :
  builds (entering_build s ref n) = builds n ++ [ref.1].
Proof. unfold entering_build, profiled. by destruct (_profiler n). Qed.

(** X5. A build routine that starts by requiring sources, as the ones of
    [bemdecl-merge] and [deps] do: a first request for its target calls
    the routine, and before the request returns every source that a
    technology owns has been requested in turn, so that it is marked
    started and the build routine of its technology has been called.  The
    requested technology is recorded before the ones it made start. *)
Theorem build_requests_its_sources
    (n : Node) (source : string) (t : Target) (ref : nat * Tech) (f : nat)
    (srcs : list string) (k : BuildProg) :
  Inv n → registered n = true → is_Some (_logger n) → unstarted n < S f →
  let s := unmaskTargetName n source in
  target s n = Some t → tech t = Some ref → started t = false →
  ref.1 ∉ techs_started n →
  tech_build ref.2 = BRequireSources srcs k →
  ∃ n', requireSources (S f) [source] n = Ok [PTarget s] n' ∧
        (∃ later, builds n' = builds n ++ ref.1 :: later) ∧
        ∀ src r, src ∈ srcs →
          target (unmaskTargetName n src) n ≫= tech = Some r →
          served (unmaskTargetName n src) r n' ∧ r.1 ∈ builds n'.
Proof.
  intros HI Hr Hl Hu s Ht Htech Hs Hnot Hprog.
  pose proof (evolves_entering_build _ _ _ _ Ht Htech Hnot) as Hev0.
  set (n0 := entering_build s ref n) in *.
  assert (runnable f n0) as Hrun0.
  { eapply runnable_entering_build; [|done..]. split_and!; [apply HI | done | done]. }
  pose proof (Inv_evolves _ _ Hev0 HI) as HI0.
  destruct (requireSources_answers f srcs n0) as (n1 & E1 & Hev1 & Hs1);
    [done | apply Hrun0 | by eapply ev_logger | apply Hrun0 |].
  assert (∀ n', evolves n1 n' →
    Inv n' ∧ (∃ later, builds n' = builds n ++ ref.1 :: later) ∧
    ∀ src r, src ∈ srcs →
      target (unmaskTargetName n src) n ≫= tech = Some r →
      served (unmaskTargetName n src) r n' ∧ r.1 ∈ builds n') as Hfinal.
  { intros n' Hev'. assert (evolves n0 n') as Hev0' by (by etrans).
    pose proof (Inv_evolves _ _ Hev0' HI0) as HI'. split_and!; [done | |].
    - destruct (ev_builds _ _ Hev0') as (new & -> & _). exists new.
      unfold n0. by rewrite builds_entering_build, <- app_assoc.
    - intros src r Hin Hb.
      assert (served (unmaskTargetName n src) r n') as Hserved.
      { eapply served_evolves; [|exact Hev'].
        rewrite <- (unmask_evolves _ _ _ Hev0). apply Hs1; [done|].
        by rewrite (unmask_evolves _ _ _ Hev0), (tech_registered_evolves _ _ _ Hr Hev0). }
      split; [done|]. apply HI'. apply Hserved. }
  simpl. rewrite bind_unfold, (_registerTargets_done n Hr), bind_unfold.
  erewrite requireSource_build by done. fold s. fold n0.
  rewrite Hprog. simpl. rewrite bind_unfold, E1.
  pose proof (run_build_total f (requireSources f) k n1 (requireSources_total f)
                (runnable_evolves _ _ _ Hrun0 Hev1)) as Hk.
  destruct (run_build (requireSources f) k n1) as [[] n2|e n2|]; simpl in Hk; [| |done].
  - exists n2. split; [done|]. by apply Hfinal.
  - rewrite rejectTarget_ok.
    + exists (rejected s e n2). split; [done|]. apply Hfinal.
      etrans; [done | apply evolves_rejected].
    + eapply ev_logger; [|done]. etrans; [done|]. by etrans.
Qed.

(** *** Registration as one loop over the declarations *)

Lemma fmap_concat {A B} (f : A → B) (ls : list (list A)) :
  f <$> concat ls = concat ((λ l : list A, f <$> l) <$> ls).
Proof.
  induction ls as [|l0 ls IH]; [done|]. simpl. by rewrite fmap_app, IH.
Qed.

Lemma elem_of_declarations techs x ref :
  (x, ref) ∈ declarations techs ↔ techs !! ref.1 = Some ref.2 ∧ x ∈ getTargets ref.2.
Proof.
  unfold declarations. rewrite elem_of_concat. split.
  - intros (l & Hl & Hx). apply elem_of_lookup_imap in Hl as (i & t & -> & Hit).
    apply list_elem_of_fmap in Hx as (y & [= -> ->] & Hy). done.
  - intros [Hlook Hx]. destruct ref as [i t]. simpl in *.
    exists ((λ target, (target, (i, t))) <$> getTargets t). split.
    + apply elem_of_lookup_imap. by exists i, t.
    + apply list_elem_of_fmap. by exists x.
Qed.

Lemma declarations_names techs :
  (declarations techs).*1 = concat (getTargets <$> techs).
Proof.
  unfold declarations. rewrite fmap_concat, fmap_imap, <- imap_const. f_equal.
  apply imap_ext. intros i t _. simpl. rewrite <- list_fmap_compose.
  by rewrite <- (list_fmap_id (getTargets t)) at 2.
Qed.

Lemma forEach_app {A} (f : A → M unit) l1 l2 n :
  forEach f (l1 ++ l2) n = (forEach f l1;; forEach f l2) n.
Proof.
  revert n. induction l1 as [|x l1 IH]; intros n; simpl; [done|].
  rewrite !bind_unfold. destruct (f x n) as [[] n1|e n1|]; [|done..].
  by rewrite IH.
Qed.

Lemma forEach_declarations (refs : list (nat * Tech)) n :
  forEach (λ ref : nat * Tech,
             forEach (λ target, _registerTarget target ref) (getTargets ref.2))
          refs n =
  forEach (λ d : string * (nat * Tech), _registerTarget d.1 d.2)
          (concat ((λ ref : nat * Tech, (λ target, (target, ref)) <$> getTargets ref.2)
                     <$> refs)) n.
Proof.
  revert n. induction refs as [|ref refs IH]; intros n; simpl; [done|].
  rewrite forEach_app, !bind_unfold.
  assert (∀ l m, forEach (λ target, _registerTarget target ref) l m =
                 forEach (λ d : string * (nat * Tech), _registerTarget d.1 d.2)
                         ((λ target, (target, ref)) <$> l) m) as Hinner.
  { induction l as [|a l IHl]; intros m; simpl; [done|]. rewrite !bind_unfold.
    destruct (_registerTarget a ref m) as [[] m1|?|]; [|done..]. apply IHl. }
  rewrite Hinner. destruct (forEach _ _ n) as [[] n1|e n1|]; [|done..]. apply IH.
Qed.

(** [_registerTargets] before it has completed. *)
Lemma _registerTargets_loop n :
  registered n = false →
  _registerTargets n =
  match forEach (λ d : string * (nat * Tech), _registerTarget d.1 d.2)
                (declarations (_techs n)) n with
  | Ok _ n1 => Ok tt (set_registered true n1)
  | Throw e n1 => Throw e n1
  | OutOfFuel => OutOfFuel
  end.
Proof.
  intros Hr. unfold _registerTargets. rewrite bind_unfold. simpl.
  rewrite Hr, bind_unfold, forEach_declarations. unfold declarations.
  rewrite fmap_imap. by destruct (forEach _ _ n) as [[]| |].
Qed.

Lemma builds_after_binding name ref n :
  builds (update name (with_tech ref) (ensure_target name n)) = builds n.
Proof. unfold ensure_target. by destruct (target name n). Qed.

Lemma register_loop_Ok (ds : list (string * (nat * Tech))) n :
  NoDup ds.*1 → (∀ x, x ∈ ds.*1 → target x n ≫= tech = None) →
  ∃ n', forEach (λ d : string * (nat * Tech), _registerTarget d.1 d.2) ds n = Ok tt n' ∧
        builds n' = builds n ∧
        (∀ x ref, (x, ref) ∈ ds → target x n' ≫= tech = Some ref) ∧
        (∀ x, x ∉ ds.*1 → target x n' ≫= tech = target x n ≫= tech).
Proof.
  revert n. induction ds as [|[x0 r0] ds IH]; intros n Hnd Hun.
  - exists n. split_and!; [done | done | by intros ? ? ?%elem_of_nil | done].
  - rewrite fmap_cons in Hnd. apply NoDup_cons in Hnd as [Hx0 Hnd].
    assert (target x0 n ≫= tech = None) as Hun0.
    { apply Hun. rewrite fmap_cons. left. }
    simpl. rewrite bind_unfold, _registerTarget_unbound by done.
    destruct (IH (update x0 (with_tech r0) (ensure_target x0 n)) Hnd)
      as (n' & -> & Hb & Hbound & Hother).
    { intros x Hx. rewrite tech_after_binding, decide_False by (by intros ->).
      apply Hun. rewrite fmap_cons. by right. }
    exists n'. split_and!.
    + done.
    + by rewrite Hb, builds_after_binding.
    + intros x ref [[= -> ->]|Hin]%elem_of_cons; [|by apply Hbound].
      by rewrite Hother, tech_after_binding, decide_True.
    + intros x. rewrite not_elem_of_cons. intros [Hne Hx].
      by rewrite (Hother x Hx), tech_after_binding, decide_False.
Qed.

Lemma register_loop_NoDup (ds : list (string * (nat * Tech))) n n' :
  forEach (λ d : string * (nat * Tech), _registerTarget d.1 d.2) ds n = Ok tt n' →
  NoDup ds.*1 ∧ ∀ x, x ∈ ds.*1 → target x n ≫= tech = None.
Proof.
  revert n. induction ds as [|[x0 r0] ds IH]; intros n.
  - intros _. split; [constructor | by intros ? ?%elem_of_nil].
  - simpl. rewrite bind_unfold.
    destruct (target x0 n ≫= tech) as [b|] eqn:Hb.
    { destruct (target x0 n) as [t|] eqn:Ht; simpl in Hb; [|done].
      by rewrite (_registerTarget_bound x0 r0 n t b). }
    rewrite (_registerTarget_unbound x0 r0 n Hb). intros [Hnd Hun]%IH.
    assert (∀ x, x ∈ ds.*1 → x0 ≠ x ∧ target x n ≫= tech = None) as Hstep.
    { intros x Hx. specialize (Hun x Hx). rewrite tech_after_binding in Hun.
      by destruct (decide (x0 = x)). }
    split.
    + apply NoDup_cons. split; [|done]. intros Hin. by destruct (Hstep x0 Hin).
    + intros x [->|Hx]%elem_of_cons; [done|]. by apply Hstep.
Qed.

(** A binding made before the loop, or by it, is there when it ends,
    however it ends. *)
Lemma register_loop_keeps (ds : list (string * (nat * Tech))) n x0 r0 :
  target x0 n ≫= tech = Some r0 →
  post False
    (λ _ n', registered n' = registered n ∧ _techs n' = _techs n ∧
             builds n' = builds n ∧ target x0 n' ≫= tech = Some r0)
    (λ _ n', registered n' = registered n ∧ _techs n' = _techs n ∧
             builds n' = builds n ∧ target x0 n' ≫= tech = Some r0)
    (forEach (λ d : string * (nat * Tech), _registerTarget d.1 d.2) ds n).
Proof.
  intros Hb.
  eapply post_mono;
    [apply (forEach_post False
              (λ n', registered n' = registered n ∧ _techs n' = _techs n ∧
                     builds n' = builds n ∧ target x0 n' ≫= tech = Some r0)
              (λ _ n', registered n' = registered n ∧ _techs n' = _techs n ∧
                       builds n' = builds n ∧ target x0 n' ≫= tech = Some r0))
    | done | done]; [|done].
  intros [x r] m _ (Hr & Ht & Hbs & Hx0). simpl.
  destruct (target x m ≫= tech) as [b|] eqn:Hxb.
  - destruct (target x m) as [t|] eqn:Htx; simpl in Hxb; [|done].
    by rewrite (_registerTarget_bound x r m t b).
  - rewrite (_registerTarget_unbound x r m Hxb). cbv beta iota delta [post]. split_and!.
    + rewrite <- Hr. unfold ensure_target. by destruct (target x m).
    + rewrite <- Ht. unfold ensure_target. by destruct (target x m).
    + by rewrite builds_after_binding.
    + rewrite tech_after_binding, decide_False; [done|]. intros ->. congruence.
Qed.

(** X7. Registration, run on a node none of whose targets has a
    technology yet, succeeds exactly when no target is declared twice by
    the node's technologies (twice by one of them counts).  When it
    succeeds it marks the node registered, calls no build routine, and the
    targets that have a technology afterwards are exactly the declared
    ones, each bound to the technology that declares it. *)
Theorem registerTargets_binds_declared_targets (n : Node) :
  registered n = false → (∀ x, target x n ≫= tech = None) →
  ((∃ n1, _registerTargets n = Ok tt n1) ↔ NoDup (concat (getTargets <$> _techs n))) ∧
  ∀ n1, _registerTargets n = Ok tt n1 →
    registered n1 = true ∧ builds n1 = builds n ∧
    ∀ x ref, target x n1 ≫= tech = Some ref ↔
             _techs n !! ref.1 = Some ref.2 ∧ x ∈ getTargets ref.2.
Proof.
  intros Hr Hfresh.
  assert (NoDup (concat (getTargets <$> _techs n)) →
          ∃ n', forEach (λ d : string * (nat * Tech), _registerTarget d.1 d.2)
                        (declarations (_techs n)) n = Ok tt n' ∧
                builds n' = builds n ∧
                (∀ x ref, (x, ref) ∈ declarations (_techs n) →
                          target x n' ≫= tech = Some ref) ∧
                (∀ x, x ∉ (declarations (_techs n)).*1 →
                      target x n' ≫= tech = target x n ≫= tech)) as Hloop.
  { intros Hnd. apply register_loop_Ok; [by rewrite declarations_names | done]. }
  assert (∀ n1, _registerTargets n = Ok tt n1 →
                NoDup (concat (getTargets <$> _techs n))) as Hnodup.
  { intros n1 Hreg. rewrite (_registerTargets_loop n Hr) in Hreg.
    destruct (forEach _ (declarations (_techs n)) n) as [[] n2|e n2|] eqn:E; [|done..].
    apply register_loop_NoDup in E as [E _]. by rewrite declarations_names in E. }
  split.
  - split; [intros [n1 Hreg]; by eapply Hnodup|].
    intros Hnd. destruct (Hloop Hnd) as (n' & E & _).
    exists (set_registered true n'). by rewrite (_registerTargets_loop n Hr), E.
  - intros n1 Hreg. destruct (Hloop (Hnodup n1 Hreg)) as (n' & E & Hb & Hbound & Hother).
    rewrite (_registerTargets_loop n Hr), E in Hreg. injection Hreg as <-.
    split_and!; [done | done |]. intros x ref.
    change (target x (set_registered true n')) with (target x n').
    rewrite <- elem_of_declarations. split; [|apply Hbound].
    intros Hx. destruct (decide (x ∈ (declarations (_techs n)).*1)) as [Hin|Hnot].
    + apply list_elem_of_fmap in Hin as ([y ref'] & -> & Hin). simpl in *.
      rewrite (Hbound _ _ Hin) in Hx. by injection Hx as <-.
    + rewrite (Hother x Hnot), Hfresh in Hx. done.
Qed.

(** X8. A registration that has failed fails for good.  When
    [_registerTargets] throws on a node none of whose targets had a
    technology, the bindings made so far stay, and the node does not count
    as registered; every later [requireSources] runs the registration
    again and throws at the first declared target, which by now is bound
    to its own technology: the error names that technology twice, not the
    two technologies that compete.  No build routine is ever called. *)
Theorem failed_registration_is_permanent (n : Node) (e : Error) (n1 : Node) :
  (∀ x, target x n ≫= tech = None) →
  _registerTargets n = Throw e n1 →
  ∃ x0 r0 rest,
    declarations (_techs n) = (x0, r0) :: rest ∧
    let q := String (Ascii.ascii_of_nat 34) EmptyString in
    let again := mkError PlainError
                   (String.concat EmptyString
                      ["Concurrent techs for target: "%string; x0; ", techs: "%string;
                       q; getName r0.2; q; " vs "%string; q; getName r0.2; q]) in
    registered n1 = false ∧ builds n1 = builds n ∧
    _registerTargets n1 = Throw again n1 ∧
    ∀ fuel sources, requireSources (S fuel) sources n1 = Throw again n1.
Proof.
  intros Hfresh Hreg.
  assert (registered n = false) as Hr.
  { destruct (registered n) eqn:Hr; [|done]. by rewrite _registerTargets_done in Hreg. }
  rewrite (_registerTargets_loop n Hr) in Hreg.
  destruct (declarations (_techs n)) as [|[x0 r0] rest] eqn:Hds; [done|].
  exists x0, r0, rest. split; [done|]. simpl in Hreg.
  rewrite bind_unfold, _registerTarget_unbound in Hreg by apply Hfresh.
  set (n0 := update x0 (with_tech r0) (ensure_target x0 n)) in *.
  pose proof (register_loop_keeps rest n0 x0 r0) as Hkeep.
  destruct (forEach _ rest n0) as [[] n2|e2 n2|] eqn:E; simpl in Hkeep; [done| |done].
  injection Hreg as -> ->.
  destruct Hkeep as (Hr1 & Ht1 & Hb1 & Hx0).
  { unfold n0. by rewrite tech_after_binding, decide_True. }
  assert (registered n1 = false) as Hr1'.
  { rewrite Hr1. unfold n0, ensure_target. by destruct (target x0 n). }
  assert (_techs n1 = _techs n) as Ht1'.
  { rewrite Ht1. unfold n0, ensure_target. by destruct (target x0 n). }
  assert (_registerTargets n1 =
          Throw (mkError PlainError
                   (concurrent_techs_message x0 (getName r0.2) (getName r0.2))) n1)
    as Hagain.
  { rewrite (_registerTargets_loop n1 Hr1'), Ht1', Hds. simpl. rewrite bind_unfold.
    destruct (target x0 n1) as [t|] eqn:Htx; simpl in Hx0; [|done].
    by rewrite (_registerTarget_bound x0 r0 n1 t r0). }
  split_and!; [done | rewrite Hb1; apply (builds_after_binding x0 r0) | done |].
  intros fuel sources. simpl. by rewrite bind_unfold, Hagain.
Qed.

(** *** Settling a name that has no entry *)

(** C9, as the code has it.  [resolveTarget] and [rejectTarget] on a name
    the node has no entry for, and which is no member name of
    [Object.prototype], do not throw (given a logger): they create an entry
    without technology and settle its future.  A later [requireSources]
    for the name first registers the technologies, unless that has been
    done; when this leaves the placeholder-resolved name without a
    technology, the request creates a rejected promise with the
    target-not-found error, is rejected with it, and calls no build
    routine. *)
Theorem notify_unknown_target
    (n : Node) (name : string) (v : Value) (err : Error) :
  is_Some (_logger n) → target name n = None → own_name name →
  (resolveTarget name v n = Ok (PTarget name) (resolved name v n) ∧
   target name (resolved name v n) = Some (mkTarget None false (Fulfilled v) false)) ∧
  (rejectTarget name err n = Ok (PTarget name) (rejected name err n) ∧
   target name (rejected name err n) = Some (mkTarget None false (Rejected err) false)) ∧
  (∀ fuel n1 n2, n1 = resolved name v n ∨ n1 = rejected name err n →
     _registerTargets n1 = Ok tt n2 →
     target (unmaskTargetName n name) n2 ≫= tech = None →
     let not_found := target_not_found n (unmaskTargetName n name) in
     ∃ n3, requireSources (S fuel) [name] n1 = Ok [PRejected not_found] n3 ∧
           builds n3 = builds n ∧
           all_state n3 [PRejected not_found] = AllRejected not_found) ∧
  (registered n = false → (∀ x, target x n ≫= tech = None) →
   NoDup (concat (getTargets <$> _techs n)) →
   unmaskTargetName n name ∉ concat (getTargets <$> _techs n) →
   ∀ fuel n1, n1 = resolved name v n ∨ n1 = rejected name err n →
     ∃ n3, requireSources (S fuel) [name] n1 =
             Ok [PRejected (target_not_found n (unmaskTargetName n name))] n3).
Proof.
  intros Hl Hnone _.
  assert (target name (resolved name v n) =
          Some (mkTarget None false (Fulfilled v) false)) as Hres.
  { unfold resolved. rewrite Hnone. simpl. rewrite target_update, decide_True by done.
    rewrite target_logged, target_profiled, target_ensure_target_eq, Hnone. done. }
  assert (target name (rejected name err n) =
          Some (mkTarget None false (Rejected err) false)) as Hrej.
  { unfold rejected. rewrite Hnone. simpl. rewrite target_update, decide_True by done.
    rewrite target_logged, target_ensure_target_eq, Hnone. done. }
  assert (evolves n (resolved name v n)) as Hev1.
  { pose proof (preserves_resolveTarget True name v n) as H.
    by rewrite (resolveTarget_ok name v n Hl) in H. }
  assert (evolves n (rejected name err n)) as Hev2 by apply evolves_rejected.
  assert (∀ fuel n1 n2, n1 = resolved name v n ∨ n1 = rejected name err n →
     _registerTargets n1 = Ok tt n2 →
     target (unmaskTargetName n name) n2 ≫= tech = None →
     let not_found := target_not_found n (unmaskTargetName n name) in
     ∃ n3, requireSources (S fuel) [name] n1 = Ok [PRejected not_found] n3 ∧
           builds n3 = builds n ∧
           all_state n3 [PRejected not_found] = AllRejected not_found) as Hlater.
  2: { split_and!; [by apply resolveTarget_ok | done | by apply rejectTarget_ok | done
                    | exact Hlater |].
       intros Hr Hfresh Hnd Hundeclared fuel n1 Hn1.
       assert (evolves n n1) as Hev by (by destruct Hn1 as [-> | ->]).
       pose proof (ev_techs _ _ Hev) as Ht1.
       assert (registered n1 = false) as Hr1.
       { rewrite <- Hr.
         destruct Hn1 as [-> | ->]; unfold resolved, rejected; rewrite Hnone; simpl;
           unfold logged, profiled, ensure_target; rewrite Hnone; simpl;
           destruct (_profiler n); simpl; by destruct (_logger n). }
       assert (∀ x, target x n1 ≫= tech = None) as Hfresh1.
       { intros x. destruct (decide (name = x)) as [<-|Hne].
         - destruct Hn1 as [-> | ->]; by rewrite ?Hres, ?Hrej.
         - specialize (Hfresh x).
           destruct Hn1 as [-> | ->]; unfold resolved, rejected; rewrite Hnone; simpl;
             rewrite target_update, decide_False by done;
             rewrite target_logged, ?target_profiled, target_ensure_target;
             (destruct (target x n); [done|]); by rewrite decide_False. }
       destruct (register_loop_Ok (declarations (_techs n1)) n1)
         as (n' & Hloop & _ & _ & Hother).
       { by rewrite declarations_names, Ht1. }
       { intros x _. apply Hfresh1. }
       destruct (Hlater fuel n1 (set_registered true n') Hn1) as (n3 & Hrun & _).
       { by rewrite (_registerTargets_loop n1 Hr1), Hloop. }
       { change (target (unmaskTargetName n name) (set_registered true n'))
           with (target (unmaskTargetName n name) n').
         rewrite Hother; [apply Hfresh1|]. by rewrite declarations_names, Ht1. }
       by exists n3. }
  intros fuel n1 n2 Hn1 Hreg Hun not_found.
  assert (evolves n n1) as Hev by (by destruct Hn1 as [-> | ->]).
  assert (builds n1 = builds n) as Hb.
  { destruct Hn1 as [-> | ->]; unfold resolved, rejected; rewrite Hnone; simpl.
    - unfold logged, profiled, ensure_target. rewrite Hnone.
      simpl. destruct (_profiler n); simpl; by destruct (_logger n).
    - unfold logged, ensure_target. rewrite Hnone. simpl. by destruct (_logger n). }
  pose proof (preserves_registerTargets True n1) as Hev12.
  rewrite Hreg in Hev12. simpl in Hev12.
  pose proof (_registerTargets_quiet n1) as Hq. rewrite Hreg in Hq. simpl in Hq.
  assert (evolves n n2) as Hev' by (by etrans).
  simpl. rewrite bind_unfold, Hreg, bind_unfold.
  rewrite requireSource_unowned by (by rewrite (unmask_evolves _ _ _ Hev')).
  rewrite (unmask_evolves _ _ _ Hev'), (target_not_found_evolves _ _ _ Hev').
  eexists. split_and!; [done | | done]. simpl.
  unfold ensure_target. destruct (target (unmaskTargetName n name) n2); simpl; congruence.
Qed.

End WithPath.

(** *** Target lists *)

Lemma uniq_fold l acc :
  NoDup acc →
  ∃ rest, fold_left uniq_step l acc = acc ++ rest ∧
          NoDup (acc ++ rest) ∧ rest `sublist_of` l ∧
          ∀ x, x ∈ acc ++ rest ↔ x ∈ acc ∨ x ∈ l.
Proof.
  revert acc. induction l as [|y l IH]; intros acc Hnd; simpl.
  - exists []. rewrite app_nil_r. split_and!; [done | done | done |].
    intros x. rewrite elem_of_nil. tauto.
  - unfold uniq_step at 2. destruct (bool_decide (y ∈ acc)) eqn:Hy.
    + apply bool_decide_eq_true in Hy.
      destruct (IH acc Hnd) as (rest & -> & Hnd' & Hsub & Hel).
      exists rest. split_and!; [done | done | by apply sublist_cons |].
      intros x. rewrite Hel, elem_of_cons.
      split; [tauto | intros [?|[->|?]]; tauto].
    + apply bool_decide_eq_false in Hy.
      assert (NoDup (acc ++ [y])) as Hnd1.
      { apply NoDup_app. split_and!; [done | | apply NoDup_singleton].
        intros x Hx ->%list_elem_of_singleton. done. }
      destruct (IH (acc ++ [y]) Hnd1) as (rest & -> & Hnd' & Hsub & Hel).
      exists (y :: rest). rewrite <- !app_assoc in *. simpl in *.
      split_and!; [done | done | by apply sublist_skip |].
      intros x. rewrite Hel, elem_of_app, list_elem_of_singleton, elem_of_cons. tauto.
Qed.

Lemma uniq_spec l :
  NoDup (uniq l) ∧ uniq l `sublist_of` l ∧ ∀ x, x ∈ uniq l ↔ x ∈ l.
Proof.
  destruct (uniq_fold l [] (NoDup_nil_2)) as (rest & E & Hnd & Hsub & Hel).
  change (fold_left uniq_step l []) with (uniq l) in E. simpl in *. rewrite E.
  split_and!; [done | done |]. intros x. rewrite Hel, elem_of_nil. tauto.
Qed.

(** First-seen order: deduplicating a longer list only appends. *)
Lemma uniq_prefix l1 l2 : uniq l1 `prefix_of` uniq (l1 ++ l2).
Proof.
  unfold uniq at 2. rewrite fold_left_app.
  destruct (uniq_fold l2 (uniq l1)) as (rest & E & _); [apply uniq_spec|].
  change (fold_left uniq_step l2 (uniq l1) = uniq l1 ++ rest) in E.
  change (fold_left _ l1 []) with (uniq l1). unfold uniq_step in E.
  rewrite E. by exists rest.
Qed.

Lemma flatten_concat items :
  flatten items =
  concat ((λ item, match item with IName s => [s] | INames l => l end) <$> items).
Proof.
  unfold flatten.
  enough (∀ acc, fold_left (λ result item,
                              match item with
                              | IName s => result ++ [s]
                              | INames l => result ++ l
                              end) items acc
                 = acc ++ concat ((λ item, match item with
                                           | IName s => [s]
                                           | INames l => l
                                           end) <$> items)) as H by apply (H []).
  induction items as [|item items IH]; intros acc; simpl.
  - by rewrite app_nil_r.
  - rewrite IH. destruct item; by rewrite <- app_assoc.
Qed.

Lemma Object_keys_elem ts x : x ∈ Object_keys ts ↔ x ∈ ts.*1.
Proof.
  unfold Object_keys. rewrite elem_of_app, list_elem_of_fmap, list_elem_of_filter.
  split.
  - intros [([i k] & -> & Hin)|[_ Hin]]; [|done].
    rewrite merge_sort_Permutation in Hin.
    apply list_elem_of_omap in Hin as (k' & Hk' & Hg).
    destruct (array_index k'); simplify_eq/=. done.
  - intros Hin. destruct (array_index x) as [i|] eqn:Hi; [left | by right].
    exists (i, x). split; [done|]. rewrite merge_sort_Permutation.
    apply list_elem_of_omap. exists x. by rewrite Hi.
Qed.

(** C4. In a requested target list every ["*"] is replaced, where it
    stands and once, by the node's default target list or, when that list
    is empty, by the names the node has registered so far, which are the
    names that have an entry in the registry ([hasRegisteredTarget] accepts
    these and the member names of [Object.prototype]); the other names
    stay.  The resolved list is the expanded one without repetitions, each
    name at the place of its first occurrence. *)
Theorem resolveTargets_expands_and_dedups
    (n : Node) (targets defaultTargetList : list string) :
  let allTargets := match defaultTargetList with
                    | [] => Object_keys (_targetNames n)
                    | _ => defaultTargetList
                    end in
  let expanded := _expandTargets targets defaultTargetList n in
  let result := _resolveTargets (Some targets) defaultTargetList n in
  expanded = concat ((λ name, if decide (name = "*"%string) then allTargets
                              else [name]) <$> targets) ∧
  (defaultTargetList ≠ [] → allTargets = defaultTargetList) ∧
  (defaultTargetList = [] →
     (∀ x, x ∈ allTargets ↔ is_Some (target x n)) ∧
     (∀ x, hasRegisteredTarget x n = true ↔ x ∈ allTargets ∨ x ∈ Object_prototype)) ∧
  NoDup result ∧
  (∀ x, x ∈ result ↔ x ∈ expanded) ∧
  result `sublist_of` expanded ∧
  (∀ l1 l2, expanded = l1 ++ l2 → uniq l1 `prefix_of` result).
Proof.
  intros allTargets expanded result. split_and!.
  - unfold expanded, _expandTargets. rewrite flatten_concat, <- list_fmap_compose.
    f_equal. apply list_fmap_ext. intros _ name _. simpl.
    fold allTargets. by destruct (decide (name = "*"%string)).
  - unfold allTargets. by destruct defaultTargetList.
  - intros ->. unfold allTargets. split; intros x.
    + by rewrite Object_keys_elem, target_keys.
    + by rewrite Object_keys_elem, hasRegisteredTarget_keys.
  - apply uniq_spec.
  - apply uniq_spec.
  - apply uniq_spec.
  - intros l1 l2 E. unfold result, _resolveTargets. fold expanded. rewrite E.
    apply uniq_prefix.
Qed.


Section WildcardRequests.

Variable path_join : string → string → string.

(** X6. A request for a name that no technology owns, and that is no
    member name of [Object.prototype], leaves an entry for the name in the
    registry: [hasRegisteredTarget] answers [true] for it from then on,
    and [*] with an empty default list expands to it as well.  A later
    [build(['*'])] on a node without default build list therefore asks for
    the name again: it waits for a promise rejected with the
    target-not-found error and is rejected, with that error unless the
    future of a target expanded before the name is rejected already. *)
Theorem unowned_request_joins_wildcard (n : Node) (name : string) (fuel : nat) :
  registered n = true → free_of "?" name → own_name name →
  target name n ≫= tech = None → _targetNamesToBuild n = [] →
  let not_found := target_not_found path_join n name in
  ∃ n1, requireSources path_join (S fuel) [name] n = Ok [PRejected not_found] n1 ∧
        is_Some (target name n1) ∧
        hasRegisteredTarget name n1 = true ∧
        name ∈ _resolveTargets (Some ["*"%string]) (_targetNamesToBuild n1) n1 ∧
        ∀ fuel' bp n2, build path_join fuel' (Some ["*"%string]) n1 = Ok bp n2 →
          ∃ ps1 ps2,
            awaited bp = ps1 ++ PRejected not_found :: ps2 ∧
            build_state n2 bp =
              BuildRejected
                (default not_found (head (omap rejection (promise_state n2 <$> ps1)))).
Proof.
  intros Hr Hplain _ Hnone Hempty not_found.
  pose proof (unmaskTargetName_plain n name Hplain) as Hun.
  destruct (requireSources_single_unowned path_join fuel name n Hr) as (n1 & E & Hb);
    [by rewrite Hun|].
  rewrite Hun in E.
  assert (evolves n n1) as Hev.
  { pose proof (preserves_requireSources path_join (S fuel) [name] n) as H. by rewrite E in H. }
  assert (name ∈ (_targetNames n1).*1) as Hkey.
  { simpl in E. rewrite bind_unfold, (_registerTargets_done n Hr), bind_unfold in E.
    rewrite requireSource_unowned in E by (by rewrite Hun).
    rewrite Hun in E. simpl in E. injection E as <-.
    destruct (target name (ensure_target name n)) as [t1|] eqn:Ht1.
    - by eapply lookup_target_Some_key.
    - by rewrite target_ensure_target_eq in Ht1. }
  assert (name ∈ _resolveTargets (Some ["*"%string]) (_targetNamesToBuild n1) n1) as Hin.
  { rewrite (ev_toBuild _ _ Hev), Hempty. unfold _resolveTargets.
    apply uniq_spec. unfold _expandTargets. rewrite flatten_concat. simpl.
    rewrite app_nil_r. by apply Object_keys_elem. }
  exists n1.
  split_and!; [done | by apply target_keys
               | apply hasRegisteredTarget_keys; by left | done |].
  intros fuel' bp n2. unfold build. rewrite bind_unfold. simpl. rewrite bind_unfold.
  destruct (requireSources path_join fuel' _ n1) as [ps m1|e m1|] eqn:Ereq; [|done..].
  intros [= <- <-]. simpl.
  apply list_elem_of_split in Hin as (before & after & Hsplit).
  rewrite Hsplit in Ereq.
  destruct fuel' as [|g]; [done|]. simpl in Ereq.
  rewrite bind_unfold, (_registerTargets_done n1 (ev_registered _ _ Hev Hr)) in Ereq.
  apply map_M_app in Ereq as (ps1 & ps2 & m & Hbefore & Hrest & -> & _).
  assert (evolves n1 m) as Hevm.
  { pose proof (preserves_map_M True
                  (requireSource path_join (requireSources path_join g)) before
                  (λ y, preserves_requireSource path_join True
                          (requireSources path_join g) y
                          (preserves_requireSources path_join g)) n1) as H.
    by rewrite Hbefore in H. }
  simpl in Hrest. rewrite bind_unfold in Hrest.
  destruct (requireSource_unowned_later path_join (requireSources path_join g)
              name n m Hr) as (m3 & Hp & _); [by rewrite Hun | by etrans |].
  rewrite Hun in Hp. rewrite Hp, bind_unfold in Hrest.
  destruct (map_M _ after m3) as [ps3 m4|e m4|]; [|done..].
  injection Hrest as <- <-.
  exists ps1, ps3. split; [done|].
  unfold build_state, all_state. cbn [awaited].
  rewrite fmap_app, fmap_cons. cbn [promise_state]. by rewrite Vow_all_rejected.
Qed.

End WildcardRequests.

(** *** Target names *)

Lemma append_cons a s1 s2 :
  String.append (String a s1) s2 = String a (String.append s1 s2).
Proof. reflexivity. Qed.

Lemma append_nil_r s : String.append s EmptyString = s.
Proof. induction s as [|a s IH]; [done|]. by rewrite append_cons, IH. Qed.

Lemma free_of_append c s1 s2 :
  free_of c (String.append s1 s2) ↔ free_of c s1 ∧ free_of c s2.
Proof.
  unfold free_of. induction s1 as [|a s1 IH].
  - split; [by split | by intros [_ ?]].
  - rewrite append_cons. simpl. rewrite !Forall_cons, IH. tauto.
Qed.

Lemma replace_mask_free base s : free_of "?" s → replace_mask base s = s.
Proof.
  unfold free_of. induction s as [|a s IH]; simpl; [done|].
  intros [Ha Hs]%Forall_cons. destruct (Ascii.eqb a "?") eqn:E.
  - by apply Ascii.eqb_eq in E.
  - by rewrite IH.
Qed.

Lemma free_of_replace_mask base s :
  free_of "?" base → free_of "?" (replace_mask base s).
Proof.
  intros Hbase. induction s as [|a s IH]; simpl; [constructor|].
  destruct (Ascii.eqb a "?") eqn:E.
  - by apply free_of_append.
  - apply Forall_cons. split; [|done]. intros ->. by rewrite Ascii.eqb_refl in E.
Qed.

(** X9. On a node whose name holds no [?], resolving placeholders twice
    is resolving them once, and a resolved name holds no placeholder any
    more.  The technologies rely on it: [bemdecl-merge] resolves its target
    name in [configure] and again in [build], and [requireSources] resolves
    every requested name once more.  (The name of the node is also taken
    to hold no [$], which [String.prototype.replace] would read as the
    start of a replacement pattern.) *)
Theorem unmaskTargetName_idempotent (n : Node) (name : string) :
  free_of "?" (_targetName n) → free_of "$" (_targetName n) →
  unmaskTargetName n (unmaskTargetName n name) = unmaskTargetName n name ∧
  free_of "?" (unmaskTargetName n name).
Proof.
  intros Hq _. unfold unmaskTargetName.
  pose proof (free_of_replace_mask (_targetName n) name Hq) as Hfree.
  split; [by apply replace_mask_free | done].
Qed.

Lemma replace_mask_default base sfx :
  free_of "?" sfx →
  replace_mask base (String.append "?." sfx) =
  String.append base (String.append "." sfx).
Proof.
  intros Hs. change (String.append "?." sfx) with (String "?" (String "." sfx)).
  simpl. by rewrite (replace_mask_free base sfx Hs).
Qed.

(** X10. The default target name with a suffix is what the mask [?.]
    followed by the suffix resolves to, and the bare default name is what
    [?] resolves to: [getTargetName('bemdecl.js')], the default source of
    [deps], names the same target as ['?.bemdecl.js'], the default target
    of [bemdecl-merge].  An empty suffix counts as none.  (The name of the
    node is taken to hold no [$], see above.) *)
Theorem getTargetName_is_the_unmasked_default (n : Node) (sfx : string) :
  free_of "$" (_targetName n) → free_of "?" sfx → sfx ≠ EmptyString →
  getTargetName n (Some sfx) = unmaskTargetName n (String.append "?." sfx) ∧
  getTargetName n None = unmaskTargetName n "?" ∧
  getTargetName n (Some EmptyString) = unmaskTargetName n "?".
Proof.
  intros _ Hs Hne. unfold getTargetName, unmaskTargetName.
  rewrite replace_mask_default by done. rewrite decide_False by done.
  simpl. by rewrite append_nil_r.
Qed.

(** *** Cleaning *)

Lemma target_same_registry name n n' :
  _targetNames n' = _targetNames n → target name n' = target name n.
Proof. unfold target. by intros ->. Qed.

Lemma cleanTarget_unowned tech_clean name n :
  target name n ≫= tech = None →
  cleanTarget tech_clean name n = Throw (no_tech_error name) (ensure_target name n).
Proof.
  intros Hnone. unfold cleanTarget. rewrite bind_unfold, _getTarget_eq.
  destruct (target name n) as [t|]; simpl in *; by rewrite ?Hnone.
Qed.

Lemma cleanTarget_owned tech_clean name n ref :
  target name n ≫= tech = Some ref →
  cleanTarget tech_clean name n = (tech_clean ref;; mret ref) n.
Proof.
  intros Hb. unfold cleanTarget. rewrite bind_unfold, _getTarget_eq.
  destruct (target name n) as [t|] eqn:Ht; simpl in Hb; [|done].
  unfold ensure_target. rewrite Ht. simpl. by rewrite Hb.
Qed.

(** X11. [cleanTargets] takes the names as they are written (placeholders
    are not resolved) and calls [clean()] of the owning technology once for
    each requested name, in order: a technology that owns several of the
    names is cleaned as often, and nothing else is done to the node.  At
    the first name without technology it throws, where [requireSources]
    would hand out a rejected promise: by then [clean()] has been called
    for the names before it, and it is not called for the names after it;
    the name itself, when it is no member name of [Object.prototype], is
    left in the registry.  The technologies' [clean()] is taken to leave
    the registry alone when it returns; when it throws, so does
    [cleanTargets]. *)
Theorem cleanTargets_cleans_each_name
    (tech_clean : nat * Tech → M unit) (n : Node)
    (owned : list string) (refs : list (nat * Tech)) :
  clean_keeps_registry tech_clean →
  Forall2 (λ name ref, target name n ≫= tech = Some ref) owned refs →
  cleanTargets tech_clean owned n = (forEach tech_clean refs;; mret refs) n ∧
  ∀ name rest, own_name name → ¬ bound n name →
    cleanTargets tech_clean (owned ++ name :: rest) n =
      (forEach tech_clean refs;; _getTarget name;; throw (no_tech_error name)) n.
Proof.
  intros Hclean Hrefs.
  assert (∀ m name ref, target name n ≫= tech = Some ref →
                        _targetNames m = _targetNames n →
                        cleanTarget tech_clean name m = (tech_clean ref;; mret ref) m)
    as Hone.
  { intros m name ref Hb Hsame. apply cleanTarget_owned.
    by rewrite (target_same_registry name _ _ Hsame). }
  split.
  - enough (∀ m, _targetNames m = _targetNames n →
                 cleanTargets tech_clean owned m = (forEach tech_clean refs;; mret refs) m)
      as H by (by apply H).
    induction Hrefs as [|name ref owned refs Hb _ IH]; intros m Hsame; [done|].
    unfold cleanTargets in *. simpl.
    rewrite !bind_unfold, (Hone m name ref Hb Hsame), !bind_unfold.
    destruct (tech_clean ref m) as [[] m1|e m1|] eqn:E; [|done..].
    simpl. rewrite !bind_unfold, IH by (by rewrite (Hclean _ _ _ E)).
    rewrite !bind_unfold. by destruct (forEach tech_clean refs m1) as [[] m2|e m2|].
  - intros name rest _ Hun.
    enough (∀ m, _targetNames m = _targetNames n →
                 cleanTargets tech_clean (owned ++ name :: rest) m =
                 (forEach tech_clean refs;; _getTarget name;;
                  throw (no_tech_error name)) m)
      as H by (by apply H).
    induction Hrefs as [|x ref owned refs Hb _ IH]; intros m Hsame.
    + unfold cleanTargets. simpl. rewrite !bind_unfold, cleanTarget_unowned.
      * cbn [mret M_ret]. by rewrite bind_unfold, _getTarget_eq.
      * rewrite (target_same_registry name _ _ Hsame). unfold bound in Hun.
        destruct (target name n ≫= tech); [|done]. exfalso. apply Hun. by eexists.
    + unfold cleanTargets in *. simpl.
      rewrite !bind_unfold, (Hone m x ref Hb Hsame), !bind_unfold.
      destruct (tech_clean ref m) as [[] m1|e m1|] eqn:E; [|done..].
      simpl. rewrite !bind_unfold, IH by (by rewrite (Hclean _ _ _ E)).
      rewrite !bind_unfold.
      destruct (forEach tech_clean refs m1) as [[] m2|e m2|]; [|done..].
      by rewrite bind_unfold, _getTarget_eq.
Qed.

Lemma register_loop_toClean (ds : list (string * (nat * Tech))) n :
  post False (λ _ n', _targetNamesToClean n' = _targetNamesToClean n)
             (λ _ n', _targetNamesToClean n' = _targetNamesToClean n)
    (forEach (λ d : string * (nat * Tech), _registerTarget d.1 d.2) ds n).
Proof.
  eapply post_mono;
    [apply (forEach_post False
              (λ n', _targetNamesToClean n' = _targetNamesToClean n)
              (λ _ n', _targetNamesToClean n' = _targetNamesToClean n))
    | done | done]; [|done].
  intros [x r] m _ Hm. unfold _registerTarget. rewrite bind_unfold, _getTarget_eq.
  assert (_targetNamesToClean (ensure_target x m) = _targetNamesToClean n) as H.
  { rewrite <- Hm. unfold ensure_target. by destruct (target x m). }
  simpl. by destruct (tech (default fresh_target (target x m))).
Qed.

Lemma _registerTargets_toClean n n1 :
  _registerTargets n = Ok tt n1 → _targetNamesToClean n1 = _targetNamesToClean n.
Proof.
  destruct (registered n) eqn:Hr.
  - rewrite _registerTargets_done by done. by intros [= <-].
  - rewrite (_registerTargets_loop n Hr).
    pose proof (register_loop_toClean (declarations (_techs n)) n) as H.
    destruct (forEach _ _ n) as [[] n2|e n2|]; [|done..].
    by intros [= <-].
Qed.

(** X12. [clean(targets)] registers the technologies first, so that a
    configuration error surfaces from it before anything is cleaned, and
    resolves [*] against the clean list of the node (against all
    registered names when that list is empty).  Called without target
    list it takes the build list of the node, not its clean list, and
    takes it as it is: on a node whose build list is empty nothing is
    cleaned then. *)
Theorem clean_resolves_its_targets
    (tech_clean : nat * Tech → M unit) (n : Node) :
  (∀ e n', _registerTargets n = Throw e n' →
     ∀ targets, clean tech_clean targets n = Throw e n') ∧
  (∀ n1, _registerTargets n = Ok tt n1 →
     (∀ targets, clean tech_clean (Some targets) n =
        cleanTargets tech_clean
          (uniq (_expandTargets targets (_targetNamesToClean n) n1)) n1) ∧
     clean tech_clean None n =
       cleanTargets tech_clean (uniq (_targetNamesToBuild n)) n1 ∧
     (_targetNamesToBuild n = [] → clean tech_clean None n = Ok [] n1)).
Proof.
  split.
  - intros e n' Hreg targets. unfold clean. by rewrite bind_unfold, Hreg.
  - intros n1 Hreg.
    pose proof (_registerTargets_toClean n n1 Hreg) as Hclean.
    pose proof (preserves_registerTargets True n) as Hev.
    rewrite Hreg in Hev. simpl in Hev.
    assert (clean tech_clean None n =
            cleanTargets tech_clean (uniq (_targetNamesToBuild n)) n1) as Hnone.
    { unfold clean. rewrite bind_unfold, Hreg, bind_unfold. simpl.
      unfold _resolveTargets. by rewrite (ev_toBuild _ _ Hev). }
    split_and!; [|done|].
    + intros targets. unfold clean. rewrite bind_unfold, Hreg, bind_unfold. simpl.
      unfold _resolveTargets. by rewrite Hclean.
    + intros Hempty. by rewrite Hnone, Hempty.
Qed.

(** *** Relative paths *)

Lemma indexOf_range c s : (-1 ≤ indexOf c s)%Z.
Proof.
  induction s as [|a s IH]; simpl; [done|].
  destruct (Ascii.eqb a c); [done|]. destruct (decide _); lia.
Qed.

Lemma indexOf_free c s : indexOf c s = (-1)%Z ↔ free_of c s.
Proof.
  unfold free_of. induction s as [|a s IH]; simpl.
  - split; [constructor | done].
  - rewrite Forall_cons. destruct (Ascii.eqb a c) eqn:E.
    + apply Ascii.eqb_eq in E. split; [done | by intros [? _]].
    + apply Ascii.eqb_neq in E. destruct (decide (indexOf c s = (-1)%Z)) as [Hi|Hi].
      * split; [|done]. intros _. split; [done | by apply IH].
      * split; [|intros [_ Hs]; by apply IH in Hs].
        pose proof (indexOf_range c s). lia.
Qed.

Lemma free_of_replace_backslashes s : free_of "\" (replace_backslashes s).
Proof.
  unfold free_of. induction s as [|a s IH]; simpl; [constructor|].
  apply Forall_cons. split; [|done].
  destruct (Ascii.eqb a "\") eqn:E; [done|]. by apply Ascii.eqb_neq in E.
Qed.

Lemma replace_backslashes_free s : free_of "\" s → replace_backslashes s = s.
Proof.
  unfold free_of. induction s as [|a s IH]; simpl; [done|].
  intros [Ha Hs]%Forall_cons. rewrite IH by done.
  destruct (Ascii.eqb a "\") eqn:E; [|done]. by apply Ascii.eqb_eq in E.
Qed.

(** X13. Whatever [path.relative] answers, [relativePath] returns a path
    that starts with a dot and holds no backslash: the answer with its
    backslashes turned into slashes, with [./] put in front unless it
    starts with a dot already (a name such as [.bemrc] does, and stays as
    it is; the empty answer becomes [./]). *)
Theorem relativePath_is_dotted_and_slashed
    (path_join path_relative : string → string → string) (root : string)
    (n : Node) (filename : string) :
  let rel := path_relative (path_join root (_path n)) filename in
  let res := relativePath path_join path_relative root n filename in
  first_is_not_dot res = false ∧ free_of "\" res ∧
  res = (if first_is_not_dot (replace_backslashes rel)
         then String.append "./" (replace_backslashes rel)
         else replace_backslashes rel) ∧
  (free_of "\" rel → first_is_not_dot rel = false → res = rel).
Proof.
  intros rel res.
  assert (res = (if first_is_not_dot (replace_backslashes rel)
                 then String.append "./" (replace_backslashes rel)
                 else replace_backslashes rel)) as Hres.
  { unfold res, relativePath. fold rel.
    destruct (decide (Z.lnot (indexOf "\" rel) ≠ 0%Z)) as [Hin|Hout]; [done|].
    assert (indexOf "\" rel = (-1)%Z) as Hfree.
    { apply dec_stable in Hout. unfold Z.lnot in Hout. lia. }
    apply indexOf_free in Hfree. by rewrite (replace_backslashes_free rel Hfree). }
  pose proof (free_of_replace_backslashes rel) as Hfree.
  split_and!.
  - rewrite Hres. by destruct (first_is_not_dot (replace_backslashes rel)) eqn:E.
  - rewrite Hres. destruct (first_is_not_dot (replace_backslashes rel)); [|done].
    apply free_of_append. split; [|done]. unfold free_of. simpl.
    repeat constructor; done.
  - done.
  - intros Hplain Hdot. rewrite Hres, (replace_backslashes_free rel Hplain).
    by rewrite Hdot.
Qed.

(** *** Examples on a concrete node *)

Lemma index_node_registration :
  _registerTargets index_node = Ok tt index_node_registered.
Proof. vm_compute. reflexivity. Qed.

Lemma Inv_index_node : Inv index_node.
Proof. by apply Inv_initial. Qed.

Lemma Inv_index_node_registered : Inv index_node_registered.
Proof.
  eapply Inv_registerTargets; [apply Inv_index_node | apply index_node_registration].
Qed.

(** Three requests for ["?.bemdecl.js"] on ["pages/index"], interleaved
    with other calls: one build of [bemdecl-merge]. *)
Lemma requireSources_builds_once_witness :
  ∃ n', interleaved_requests posix_join 4 ["?.bemdecl.js"]
          [BReturn; BRequireSources ["index.css"] BReturn;
           BResolveTarget "index.bemdecl.js" VUndefined BReturn]
          index_node_registered
        = Ok (replicate 3 [PTarget "index.bemdecl.js"]) n' ∧
        length (filter (λ i, i = 0) (builds n')) = 1.
Proof.
  destruct (requireSources_builds_once posix_join index_node_registered
              "?.bemdecl.js" (mkTarget (Some (0, merge_tech)) false Pending false)
              (0, merge_tech) 4
              [BReturn; BRequireSources ["index.css"] BReturn;
               BResolveTarget "index.bemdecl.js" VUndefined BReturn])
    as [_ (n' & H1 & H2 & _)].
  - apply Inv_index_node_registered.
  - reflexivity.
  - by eexists.
  - vm_compute. lia.
  - reflexivity.
  - reflexivity.
  - done.
  - exists n'. split; assumption.
Defined.

Lemma registerTarget_second_tech_throws_witness :
  let q := String (Ascii.ascii_of_nat 34) EmptyString in
  _registerTarget "index.css" (0, merge_tech) index_node_registered =
  Throw (mkError PlainError
           (String.concat EmptyString
              ["Concurrent techs for target: index.css, techs: "%string;
               q; "broken"%string; q; " vs "%string; q; "bemdecl-merge"%string; q]))
        index_node_registered.
Proof.
  intros q.
  destruct (registerTarget_second_tech_throws posix_join index_node_registered
              "index.css" (0, merge_tech)) as [H _].
  apply (H (mkTarget (Some (1, throwing_tech)) false Pending false)
           (1, throwing_tech)); reflexivity.
Defined.

Lemma requireSources_unowned_rejected_witness :
  ∃ n', requireSources posix_join 1 ["missing.js"] index_node =
          Ok [PRejected (mkError TargetNotFoundEror
                "There is no tech for target pages/index/missing.js.")] n' ∧
        builds n' = [] ∧
        all_state n' [PRejected (mkError TargetNotFoundEror
                        "There is no tech for target pages/index/missing.js.")]
          = AllRejected (mkError TargetNotFoundEror
                           "There is no tech for target pages/index/missing.js.").
Proof.
  destruct (requireSources_unowned_rejected posix_join index_node
              index_node_registered "missing.js") as (_ & H & _).
  - apply index_node_registration.
  - reflexivity.
  - destruct (H 0) as (n' & H1 & H2 & _ & H3). exists n'.
    split; [exact H1|]. split; [exact H2 | exact H3].
Defined.



(** ["unknown.js"] is announced before the technologies are registered:
    no technology declares it, and the later request is rejected. *)
Lemma notify_unknown_target_witness :
  ∃ n1 n2, resolveTarget "unknown.js" (VData "x") index_node =
             Ok (PTarget "unknown.js") n1 ∧
           registered n1 = false ∧
           requireSources posix_join 1 ["unknown.js"] n1 =
             Ok [PRejected (mkError TargetNotFoundEror
                   "There is no tech for target pages/index/unknown.js.")] n2.
Proof.
  destruct (notify_unknown_target posix_join index_node "unknown.js"
              (VData "x") boom) as ((H1 & _) & _ & _ & H4).
  - by eexists.
  - reflexivity.
  - apply (bool_decide_unpack _). vm_compute. exact I.
  - destruct (H4 eq_refl (λ x, eq_refl)) with (fuel := 0)
      (n1 := resolved "unknown.js" (VData "x") index_node) as (n2 & Hrun).
    + apply (bool_decide_unpack _). vm_compute. exact I.
    + apply (bool_decide_unpack _). vm_compute. exact I.
    + by left.
    + eexists _, n2. split; [exact H1|]. split; [reflexivity | exact Hrun].
Defined.

Lemma build_returns_builtTargets_witness :
  ∃ bp n', build posix_join 2 (Some ["index.js"; "*"; "index.js"]) index_node =
             Ok bp n' ∧
           build_state n' bp =
             BuildFulfilled (mkBuildResult ["pages/index/index.js"]).
Proof.
  destruct (build_returns_builtTargets posix_join index_node 2
              ["index.js"; "*"; "index.js"]) as [_ H].
  destruct (build posix_join 2 (Some ["index.js"; "*"; "index.js"]) index_node)
    as [bp n'|e n'|] eqn:E; [|vm_compute in E; discriminate..].
  exists bp, n'. split; [reflexivity|].
  destruct (H bp n' eq_refl) as [_ H2].
  apply (H2 n' [VData "code"]).
  vm_compute in E. injection E as <- <-. reflexivity.
Defined.

Lemma resolveTargets_expands_and_dedups_witness :
  _resolveTargets (Some ["b"; "*"; "a"; "*"]) [] index_node_registered =
  ["b"; "index.bemdecl.js"; "index.css"; "index.js"; "a"] ∧
  NoDup (_resolveTargets (Some ["b"; "*"; "a"; "*"]) [] index_node_registered).
Proof.
  split; [reflexivity|].
  apply (resolveTargets_expands_and_dedups index_node_registered
           ["b"; "*"; "a"; "*"] []).
Defined.


(** What C3 asserts of the outcome fails for a name requested after a
    source whose future is rejected already: the name gets its rejected
    promise, but the outcome of the request carries the error of the
    earlier source. *)
Lemma requireSources_earlier_rejection_counterexample :
  target "missing.js" index_node_registered ≫= tech = None ∧
  ∃ n',
    requireSources posix_join 1 ["index.css"; "missing.js"] index_node_registered =
      Ok [PTarget "index.css";
          PRejected (mkError TargetNotFoundEror
                       "There is no tech for target pages/index/missing.js.")] n' ∧
    all_state n' [PTarget "index.css";
                  PRejected (mkError TargetNotFoundEror
                               "There is no tech for target pages/index/missing.js.")]
      = AllRejected boom ∧
    kind boom = PlainError.
Proof. split; [reflexivity|]. eexists. split_and!; vm_compute; reflexivity. Qed.


(** What C9 asserts of a later request fails when registration has not
    run yet: the name has no entry, [resolveTarget] creates one without a
    technology, and the first [requireSources] then binds the declared
    technology to it, calls its build routine and returns the fulfilled
    promise instead of a target-not-found rejection. *)
Lemma resolve_before_registration_counterexample :
  target "index.bemdecl.js" index_node = None ∧
  ∃ n1 n2,
    resolveTarget "index.bemdecl.js" (VData "early") index_node =
      Ok (PTarget "index.bemdecl.js") n1 ∧
    tech <$> target "index.bemdecl.js" n1 = Some None ∧
    requireSources posix_join 2 ["index.bemdecl.js"] n1 =
      Ok [PTarget "index.bemdecl.js"] n2 ∧
    builds n2 = [0] ∧
    all_state n2 [PTarget "index.bemdecl.js"] = AllFulfilled [VData "early"].
Proof. split; [reflexivity|]. eexists _, _. split_and!; vm_compute; reflexivity. Qed.

(** Further examples: requests for several sources, dependencies,
    registration, names and cleaning. *)

Lemma chain_node_registration :
  _registerTargets chain_node = Ok tt chain_node_registered.
Proof. vm_compute. reflexivity. Qed.

Lemma Inv_chain_node_registered : Inv chain_node_registered.
Proof.
  eapply Inv_registerTargets; [|apply chain_node_registration]. by apply Inv_initial.
Qed.

Lemma requireSources_answers_each_source_witness :
  ∃ n', requireSources posix_join 4 ["?.bemdecl.js"; "missing.js"; "index.css"]
          index_node_registered
        = Ok [PTarget "index.bemdecl.js";
              PRejected (mkError TargetNotFoundEror
                           "There is no tech for target pages/index/missing.js.");
              PTarget "index.css"] n' ∧
        Inv n'.
Proof.
  destruct (requireSources_answers_each_source posix_join index_node_registered 4
              ["?.bemdecl.js"; "missing.js"; "index.css"])
    as (n' & E & _ & _ & _ & HI).
  - apply Inv_index_node_registered.
  - reflexivity.
  - by eexists.
  - vm_compute. lia.
  - exists n'. split; [exact E | exact HI].
Defined.

(** Asking for ["?.deps.js"] builds [deps], which asks for the levels and
    for the bemdecl, whose technologies are built in turn. *)
Lemma build_requests_its_sources_witness :
  ∃ n', requireSources posix_join 4 ["?.deps.js"] chain_node_registered =
          Ok [PTarget "index.deps.js"] n' ∧
        served "index.bemdecl.js" (1, merge_tech) n' ∧ 1 ∈ builds n'.
Proof.
  destruct (build_requests_its_sources posix_join chain_node_registered "?.deps.js"
              (mkTarget (Some (0, deps_tech)) false Pending false) (0, deps_tech) 3
              ["index.levels"; "index.bemdecl.js"] BReturn)
    as (n' & E & _ & H).
  - apply Inv_chain_node_registered.
  - reflexivity.
  - by eexists.
  - vm_compute. lia.
  - reflexivity.
  - reflexivity.
  - reflexivity.
  - vm_compute. discriminate.
  - reflexivity.
  - exists n'. split; [exact E|].
    apply (H "index.bemdecl.js" (1, merge_tech)); [|reflexivity].
    apply list_elem_of_further, list_elem_of_here.
Defined.

Lemma unowned_request_joins_wildcard_witness :
  ∃ n1, requireSources posix_join 1 ["missing.js"] index_node_registered =
          Ok [PRejected (mkError TargetNotFoundEror
                "There is no tech for target pages/index/missing.js.")] n1 ∧
        hasRegisteredTarget "missing.js" n1 = true.
Proof.
  destruct (unowned_request_joins_wildcard posix_join index_node_registered
              "missing.js" 0) as (n1 & E & _ & H & _).
  - reflexivity.
  - unfold free_of. simpl. repeat (constructor; [discriminate|]). constructor.
  - apply (bool_decide_unpack _). vm_compute. exact I.
  - reflexivity.
  - reflexivity.
  - exists n1. split; [exact E | exact H].
Defined.

Lemma registerTargets_binds_declared_targets_witness :
  ∃ n1, _registerTargets index_node = Ok tt n1 ∧
        target "index.css" n1 ≫= tech = Some (1, throwing_tech).
Proof.
  destruct (registerTargets_binds_declared_targets index_node) as [[_ Hok] Hbind].
  - reflexivity.
  - intros x. reflexivity.
  - destruct Hok as [n1 Hreg].
    { apply (bool_decide_unpack _). vm_compute. exact I. }
    exists n1. split; [exact Hreg|]. apply (Hbind n1 Hreg).
    split; [reflexivity | apply list_elem_of_here].
Defined.

(** The first error names the two technologies that compete for
    ["index.css"]; the next request fails at the first declared target
    instead. *)
Lemma failed_registration_is_permanent_witness :
  let q := String (Ascii.ascii_of_nat 34) EmptyString in
  ∃ e n1, _registerTargets conflicting_node = Throw e n1 ∧
          message e =
            String.concat EmptyString
              ["Concurrent techs for target: index.css, techs: "%string;
               q; "broken"%string; q; " vs "%string; q; "css-stylus"%string; q] ∧
          requireSources posix_join 1 ["index.css"] n1 =
            Throw (mkError PlainError
                     (String.concat EmptyString
                        ["Concurrent techs for target: index.bemdecl.js, techs: "%string;
                         q; "bemdecl-merge"%string; q; " vs "%string;
                         q; "bemdecl-merge"%string; q])) n1.
Proof.
  intros q.
  destruct (_registerTargets conflicting_node) as [a n1|e n1|] eqn:E;
    [vm_compute in E; discriminate | | vm_compute in E; discriminate].
  destruct (failed_registration_is_permanent posix_join conflicting_node e n1)
    as (x0 & r0 & rest & Hds & _ & _ & _ & Hreq).
  - intros x. reflexivity.
  - exact E.
  - exists e, n1. split; [reflexivity|]. split.
    + vm_compute in E. injection E as <- _. reflexivity.
    + vm_compute in Hds. injection Hds as <- <- _. apply Hreq.
Defined.

Lemma unmaskTargetName_idempotent_witness :
  unmaskTargetName index_node (unmaskTargetName index_node "?.css") = "index.css"%string.
Proof.
  destruct (unmaskTargetName_idempotent index_node "?.css") as [H _].
  - unfold free_of. simpl. repeat (constructor; [discriminate|]). constructor.
  - unfold free_of. simpl. repeat (constructor; [discriminate|]). constructor.
  - rewrite H. reflexivity.
Defined.

Lemma getTargetName_is_the_unmasked_default_witness :
  getTargetName index_node (Some "bemdecl.js"%string) =
  unmaskTargetName index_node "?.bemdecl.js".
Proof.
  apply (getTargetName_is_the_unmasked_default index_node "bemdecl.js").
  - unfold free_of. simpl. repeat (constructor; [discriminate|]). constructor.
  - unfold free_of. simpl. repeat (constructor; [discriminate|]). constructor.
  - discriminate.
Defined.

(** ["index.css"] is cleaned twice; the mask ["?.css"] is taken for a
    name, and no technology owns it: [clean()] has been called for the name
    before it only. *)
Lemma cleanTargets_cleans_each_name_witness :
  (∃ n', cleanTargets reporting_clean ["index.css"; "index.js"; "index.css"]
           index_node_registered =
         Ok [(1, throwing_tech); (2, resolve_then_throw_tech); (1, throwing_tech)] n' ∧
         _logger n' = Some [LogAction "clean" "broken" None;
                            LogAction "clean" "late-failure" None;
                            LogAction "clean" "broken" None]) ∧
  ∃ n', cleanTargets reporting_clean ["index.css"; "?.css"; "index.js"]
          index_node_registered = Throw (no_tech_error "?.css") n' ∧
        _logger n' = Some [LogAction "clean" "broken" None] ∧
        is_Some (target "?.css" n').
Proof.
  assert (clean_keeps_registry reporting_clean) as Hclean.
  { intros ref n n'. unfold reporting_clean, logger_call. rewrite bind_unfold. simpl.
    destruct (_logger n); [|done]. by intros [= <-]. }
  split.
  - destruct (cleanTargets_cleans_each_name reporting_clean index_node_registered
                ["index.css"; "index.js"; "index.css"]
                [(1, throwing_tech); (2, resolve_then_throw_tech); (1, throwing_tech)]
                Hclean) as [-> _].
    { repeat (constructor; [reflexivity|]). constructor. }
    eexists. split; reflexivity.
  - destruct (cleanTargets_cleans_each_name reporting_clean index_node_registered
                ["index.css"] [(1, throwing_tech)] Hclean) as [_ H].
    { repeat (constructor; [reflexivity|]). constructor. }
    change ["index.css"%string; "?.css"%string; "index.js"%string]
      with (["index.css"%string] ++ "?.css"%string :: ["index.js"%string]).
    rewrite (H "?.css" ["index.js"]).
    + eexists. split_and!; [reflexivity | reflexivity | by eexists].
    + apply (bool_decide_unpack _). vm_compute. exact I.
    + by intros [? [=]].
Defined.

End NodeModel.

(** ** techs/bemdecl-merge and techs/deps: cache-aware build routines *)

Module Techs.

Import NodeModel.

(** A file as the routines see it on disk. *)
Record FileData := mkFileData { fd_mtime : Z; fd_content : string }.

(** Modelled from the spec: the entries of the cache store;
    [lib/cache/cache] is not among the sources at hand.  An entry
    records, for a file, its path and its modification time when it was
    recorded; for a file list, these records for its members. *)
Inductive CacheEntry :=
| FileEntry (fullname : string) (mtime : option Z)
| FileListEntry (files : list (string * Z)).

#[global] Instance CacheEntry_eq_dec : EqDecision CacheEntry.
Proof. solve_decision. Defined.

(** What a routine does to the outside world, in order. *)
Inductive Event :=
| Written (path content : string)
| Recorded (key : string).

Record World := mkWorld {
  node : Node;
  (* the node's sub-cache for the target being built *)
  cache : gmap string CacheEntry;
  disk : gmap string FileData;
  clock : Z;
  trace : list Event
}.

(** Modelled from the spec: [needRebuildFile(key, path)] is true when the
    key has no record, when the file is absent, or when the file's
    modification time differs from the recorded one. *)
Definition needRebuildFile (key path : string) (w : World) : bool :=
  match cache w !! key, disk w !! path with
  | Some (FileEntry _ (Some recorded)), Some file =>
      negb (bool_decide (fd_mtime file = recorded))
  | _, _ => true
  end.

(** Modelled from the spec: [needRebuildFileList(key, files)] is true when
    the key has no record or the recorded list differs from [files] in
    length, members or modification times. *)
Definition needRebuildFileList (key : string) (files : list (string * Z))
    (w : World) : bool :=
  match cache w !! key with
  | Some (FileListEntry recorded) => negb (bool_decide (recorded = files))
  | _ => true
  end.

(** Modelled from the spec: [cacheFileInfo(key, path)] overwrites the
    record with the file's current state on disk. *)
Definition cacheFileInfo_world (key path : string) (w : World) : World :=
  mkWorld (node w)
          (<[key := FileEntry path (fd_mtime <$> disk w !! path)]> (cache w))
          (disk w) (clock w) (trace w ++ [Recorded key]).

(** Modelled from the spec: [cacheFileList(key, files)] overwrites the
    record with the given list. *)
Definition cacheFileList_world (key : string) (files : list (string * Z))
    (w : World) : World :=
  mkWorld (node w) (<[key := FileListEntry files]> (cache w))
          (disk w) (clock w) (trace w ++ [Recorded key]).

(** The continuation of a routine either returns or fails: an exception
    thrown in a [then] callback and a rejected promise both reject the
    promise of the routine. *)
Inductive Outcome (A : Type) :=
| Returned (a : A) (w : World)
| Failed (e : Error) (w : World).
Arguments Returned {A} a w.
Arguments Failed {A} e w.

Definition T (A : Type) : Type := World → Outcome A.

#[global] Instance T_ret : MRet T := λ A a w, Returned a w.
#[global] Instance T_bind : MBind T := λ A B f m w,
  match m w with
  | Returned a w' => f a w'
  | Failed e w' => Failed e w'
  end.

Definition final {A} (r : Outcome A) : World :=
  match r with Returned _ w | Failed _ w => w end.

Definition failed {A} (r : Outcome A) : bool :=
  match r with Returned _ _ => false | Failed _ _ => true end.

Definition get_world : T World := λ w, Returned w w.

(** A pure computation that may throw. *)
Definition pure {A} (x : Error + A) : T A := λ w,
  match x with
  | inl e => Failed e w
  | inr a => Returned a w
  end.

(** A call on the node; these calls use no fuel. *)
Definition node_call {A} (m : M A) : T A := λ w,
  match m (node w) with
  | Ok a n => Returned a (mkWorld n (cache w) (disk w) (clock w) (trace w))
  | Throw e n => Failed e (mkWorld n (cache w) (disk w) (clock w) (trace w))
  | OutOfFuel => Failed (mkError PlainError "out of fuel") w
  end.

(** The promise of a build routine that ends with
    [return this.node.requireSources(sources).then(callback)], from the
    moment the sources are built: the callback settles it, and when the
    callback fails the handler that [requireSources] installed on the
    promise as it started the technology for [source] hands the reason to
    [rejectTarget]. *)
Definition build_promise (source : string) (callback : T unit) : T unit := λ w,
  match callback w with
  | Returned _ w' => Returned tt w'
  | Failed e w' => node_call (when_build_fails source (Some e)) w'
  end.

Definition cacheFileInfo (key path : string) : T unit :=
  λ w, Returned tt (cacheFileInfo_world key path w).

Definition cacheFileList (key : string) (files : list (string * Z)) : T unit :=
  λ w, Returned tt (cacheFileList_world key files w).

Fixpoint for_each {A} (f : A → T unit) (l : list A) : T unit :=
  match l with
  | [] => mret tt
  | x :: l' => f x;; for_each f l'
  end.

Fixpoint map_T {A B} (f : A → T B) (l : list A) : T (list B) :=
  match l with
  | [] => mret []
  | x :: l' => y ← f x; ys ← map_T f l'; mret (y :: ys)
  end.

Definition newline : string := String (ascii_of_nat 10) EmptyString.

Section Routines.

(** The collaborators of the two routines. *)
(* node.resolvePath *)
Variable resolvePath : string → string.
(* evaluating the source text of a module *)
Variable evaluate : string → Error + Value.
(* deps.merge(bemdeclResults.map(deps.fromBemdecl)) *)
Variable merge_bemdecls : list Value → Error + Value.
(* deps.toBemdecl({deps: mergedDeps}) *)
Variable toBemdecl : Value → Error + Value.
(* JSON.stringify(value, null, indent) *)
Variable JSON_stringify : nat → Value → string.
(* the .deps property of a loaded module *)
Variable property_deps : Value → Value.
(* the error with which writing a path fails, if it fails *)
Variable write_error : string → option Error.
(* new DepsResolver(levels) fed with the bemdecl, then resolve() *)
Variable resolve_deps : Value → Value → Error + Value.
(* levels.getFilesBySuffix(suffix): path and modification time *)
Variable getFilesBySuffix : Value → string → list (string * Z).

(** [vowFs.write(path, content)] *)
Definition vowFs_write (path content : string) : T unit := λ w,
  match write_error path with
  | Some e => Failed e w
  | None =>
      Returned tt
        (mkWorld (node w) (cache w)
                 (<[path := mkFileData (clock w) content]> (disk w))
                 (clock w + 1) (trace w ++ [Written path content]))
  end.

(** [dropRequireCache(require, path); require(path)]: the module is
    loaded afresh from disk. *)
Definition require (path : string) : T Value := λ w,
  match disk w !! path with
  | None => Failed (mkError PlainError (String.append "Cannot find module " path)) w
  | Some file => pure (evaluate (fd_content file)) w
  end.

(** [rebuildNeeded] as [bemdecl-merge] computes it. *)
Definition bemdecl_merge_rebuildNeeded (sources : list string)
    (bemdeclTarget : string) (w : World) : bool :=
  let rebuildNeeded := needRebuildFile "bemdecl-file" (resolvePath bemdeclTarget) w in
  if negb rebuildNeeded then
    fold_left (λ needed source,
                 if needRebuildFile source (resolvePath source) w then true
                 else needed)
              sources rebuildNeeded
  else rebuildNeeded.

(** The callback [bemdecl-merge] runs once its sources are built. *)
Definition bemdecl_merge_then (sources : list string) (bemdeclTarget : string)
  : T unit :=
  let bemdeclTargetPath := resolvePath bemdeclTarget in
  w ← get_world;
  if bemdecl_merge_rebuildNeeded sources bemdeclTarget w then
    bemdeclResults ← map_T (λ source, require (resolvePath source)) sources;
    mergedDeps ← pure (merge_bemdecls bemdeclResults);
    mergedBemdecl ← pure (toBemdecl mergedDeps);
    vowFs_write bemdeclTargetPath
      (String.concat EmptyString
         ["exports.blocks = "%string; JSON_stringify 0 mergedBemdecl; ";"%string;
          newline]);;
    cacheFileInfo "bemdecl-file" bemdeclTargetPath;;
    for_each (λ source, cacheFileInfo source (resolvePath source)) sources;;
    node_call (resolveTarget bemdeclTarget mergedDeps);;
    mret tt
  else
    node_call (isValidTarget bemdeclTarget);;
    loaded ← require bemdeclTargetPath;
    node_call (resolveTarget bemdeclTarget (property_deps loaded));;
    mret tt.

(** The condition under which [deps] rebuilds. *)
Definition deps_rebuildNeeded (depsTarget bemdeclSource : string)
    (depFiles : list (string * Z)) (w : World) : bool :=
  needRebuildFile "deps-file" (resolvePath depsTarget) w ||
  needRebuildFile "bemdecl-file" (resolvePath bemdeclSource) w ||
  needRebuildFileList "deps-file-list" depFiles w.

(** The callback [deps] runs once the levels and the bemdecl are built;
    [levels] is the value the levels target was resolved with. *)
Definition deps_then (depsTarget bemdeclSource : string) (levels : Value) : T unit :=
  let depsTargetPath := resolvePath depsTarget in
  let bemdeclSourcePath := resolvePath bemdeclSource in
  let depFiles := getFilesBySuffix levels "deps.js" in
  w ← get_world;
  if deps_rebuildNeeded depsTarget bemdeclSource depFiles w then
    bemdecl ← require bemdeclSourcePath;
    resolvedDeps ← pure (resolve_deps levels bemdecl);
    vowFs_write depsTargetPath
      (String.concat EmptyString
         ["exports.deps = "%string; JSON_stringify 4 resolvedDeps; ";"%string]);;
    cacheFileInfo "deps-file" depsTargetPath;;
    cacheFileInfo "bemdecl-file" bemdeclSourcePath;;
    cacheFileList "deps-file-list" depFiles;;
    node_call (resolveTarget depsTarget resolvedDeps);;
    mret tt
  else
    node_call (isValidTarget depsTarget);;
    loaded ← require depsTargetPath;
    node_call (resolveTarget depsTarget (property_deps loaded));;
    mret tt.

(** The two technologies as the node sees them: their build routine
    requests the sources and returns the promise of the callback. *)
Definition bemdecl_merge (sources : list string) (bemdeclTarget : string) : Tech :=
  mkTech "bemdecl-merge" [bemdeclTarget] (BRequireSources sources BReturn).

Definition deps (depsTarget bemdeclTarget levelsTarget : string) : Tech :=
  mkTech "deps" [depsTarget] (BRequireSources [levelsTarget; bemdeclTarget] BReturn).

(** *** Vocabulary of the statements *)

(** Every record event comes after a write of [path]. *)
Definition recorded_after_write (path : string) (evs : list Event) : Prop :=
  ∀ i key, evs !! i = Some (Recorded key) →
           ∃ j content, j < i ∧ evs !! j = Some (Written path content).

(** What a routine that produces [path] may do to cache and disk when
    started in [w] and ending as [r]. *)
Definition cache_discipline (path : string) (rebuildNeeded : bool) (w : World)
    (r : Outcome unit) : Prop :=
  ∃ evs, trace (final r) = trace w ++ evs ∧
    recorded_after_write path evs ∧
    (rebuildNeeded = false → evs = [] ∧ cache (final r) = cache w) ∧
    ((∀ content, Written path content ∉ evs) → cache (final r) = cache w) ∧
    (cache (final r) ≠ cache w →
       ∃ content, disk (final r) !! path = Some (mkFileData (clock w) content)) ∧
    (is_Some (_logger (node w)) → failed r = true → cache (final r) = cache w).

(** Nothing but the node has changed. *)
Definition untouched (w w' : World) : Prop :=
  trace w' = trace w ∧ cache w' = cache w ∧ disk w' = disk w ∧ clock w' = clock w.

(** Only records have been added. *)
Definition recording (w w' : World) : Prop :=
  ∃ keys, trace w' = trace w ++ (Recorded <$> keys) ∧
          disk w' = disk w ∧ clock w' = clock w ∧ node w' = node w.

(** How a run relates to its start: nothing but the node has changed, or
    the output was written and then records were made. *)
Definition run_shape (path : string) (rebuildNeeded : bool) (w : World)
    (r : Outcome unit) : Prop :=
  untouched w (final r) ∨
  (rebuildNeeded = true ∧
   (is_Some (_logger (node w)) → failed r = false) ∧
   ∃ content keys,
     trace (final r) = trace w ++ Written path content :: (Recorded <$> keys) ∧
     disk (final r) = <[path := mkFileData (clock w) content]> (disk w)).

(** What may follow a successful write: records, then the notification
    of the node. *)
Definition tail_ok (w : World) (r : Outcome unit) : Prop :=
  ∃ keys, trace (final r) = trace w ++ (Recorded <$> keys) ∧
          disk (final r) = disk w ∧
          (is_Some (_logger (node w)) → failed r = false).

(** Collaborators for a concrete run: paths below the node directory,
    modules whose value is their text, and a merge that joins texts. *)
Definition project_path (filename : string) : string :=
  String.append "/project/pages/index/" filename.

Definition load_text (source : string) : Error + Value := inr (VData source).

Definition merge_texts (values : list Value) : Error + Value :=
  inr (VData (String.concat ","
                (omap (λ v, match v with VData d => Some d | VUndefined => None end)
                      values))).

Definition print_value (indent : nat) (v : Value) : string :=
  match v with
  | VData d => d
  | VUndefined => "undefined"
  end.

(** The sub-cache is empty and the only source is on disk. *)
Definition first_run : World :=
  mkWorld index_node_registered ∅
          {[ project_path "search.bemdecl.js" := mkFileData 5 "search" ]} 10 [].

(** *** The cache discipline *)

Lemma tbind_unfold {A B} (m : T A) (f : A → T B) w :
  (m ≫= f) w =
  match m w with
  | Returned a w' => f a w'
  | Failed e w' => Failed e w'
  end.
Proof. reflexivity. Qed.

Lemma untouched_refl w : untouched w w.
Proof. by split_and!. Qed.

Lemma untouched_trans w1 w2 w3 : untouched w1 w2 → untouched w2 w3 → untouched w1 w3.
Proof. intros (?&?&?&?) (?&?&?&?). split_and!; congruence. Qed.

Lemma recording_refl w : recording w w.
Proof. exists []. simpl. by rewrite app_nil_r. Qed.

Lemma recording_trans w1 w2 w3 : recording w1 w2 → recording w2 w3 → recording w1 w3.
Proof.
  intros (k1 & T1 & D1 & C1 & N1) (k2 & T2 & D2 & C2 & N2). exists (k1 ++ k2).
  rewrite T2, T1, fmap_app, app_assoc. split_and!; congruence.
Qed.

Lemma node_call_untouched {A} (m : M A) w : untouched w (final (node_call m w)).
Proof. unfold node_call. by destruct (m (node w)). Qed.

Lemma node_call_resolveTarget name v w :
  is_Some (_logger (node w)) → failed (node_call (resolveTarget name v) w) = false.
Proof. intros Hl. unfold node_call. by rewrite resolveTarget_ok. Qed.

Lemma pure_final {A} (x : Error + A) w : final (pure x w) = w.
Proof. by destruct x. Qed.

Lemma require_final path w : final (require path w) = w.
Proof. unfold require. destruct (disk w !! path); [apply pure_final | done]. Qed.

Lemma map_T_require_final (f : string → string) sources w :
  final (map_T (λ source, require (f source)) sources w) = w.
Proof.
  induction sources as [|s sources IH]; simpl; [done|].
  rewrite tbind_unfold. pose proof (require_final (f s) w) as H1.
  destruct (require (f s) w) as [v w1|e w1]; simpl in *; subst; [|done].
  rewrite tbind_unfold.
  destruct (map_T _ sources w) as [vs w2|e w2]; simpl in *; by subst.
Qed.

Lemma for_each_cacheFileInfo (f : string → string) sources w :
  ∃ w', for_each (λ source, cacheFileInfo source (f source)) sources w = Returned tt w' ∧
        recording w w'.
Proof.
  revert w. induction sources as [|s sources IH]; intros w; simpl.
  - exists w. split; [done | apply recording_refl].
  - rewrite tbind_unfold. simpl.
    destruct (IH (cacheFileInfo_world s (f s) w)) as (w' & -> & Hrec).
    exists w'. split; [done|]. eapply recording_trans; [|exact Hrec].
    by exists [s].
Qed.

Lemma run_shape_discipline path rebuildNeeded w r :
  run_shape path rebuildNeeded w r → cache_discipline path rebuildNeeded w r.
Proof.
  intros [(Ht & Hc & Hd & _)|(Hn & Hl & content & keys & Ht & Hd)].
  - exists []. rewrite app_nil_r. by split_and!.
  - exists (Written path content :: (Recorded <$> keys)). split_and!.
    + done.
    + intros [|i] key; [done|]. intros _. exists 0, content. split; [lia | done].
    + by rewrite Hn.
    + intros Hno. exfalso. apply (Hno content). apply list_elem_of_here.
    + intros _. exists content. by rewrite Hd, lookup_insert_eq.
    + intros Hlog Hf. by rewrite Hl in Hf.
Qed.

Lemma tail_ok_recording w1 w2 r : recording w1 w2 → tail_ok w2 r → tail_ok w1 r.
Proof.
  intros (k1 & T1 & D1 & C1 & N1) (k2 & T2 & D2 & Hl). exists (k1 ++ k2).
  rewrite T2, T1, D2, D1, fmap_app, app_assoc, <- N1. done.
Qed.

Lemma tail_ok_notify name v w :
  tail_ok w ((node_call (resolveTarget name v);; mret tt) w).
Proof.
  rewrite tbind_unfold.
  pose proof (node_call_untouched (resolveTarget name v) w) as (Ht & _ & Hd & _).
  pose proof (node_call_resolveTarget name v w) as Hok.
  exists []. simpl. rewrite app_nil_r.
  by destruct (node_call (resolveTarget name v) w).
Qed.

Lemma tail_ok_cacheFileInfo key path (rest : T unit) w :
  (∀ w1, tail_ok w1 (rest w1)) → tail_ok w ((cacheFileInfo key path;; rest) w).
Proof.
  intros Hrest. rewrite tbind_unfold. simpl.
  eapply tail_ok_recording; [|apply Hrest]. by exists [key].
Qed.

Lemma tail_ok_cacheFileList key files (rest : T unit) w :
  (∀ w1, tail_ok w1 (rest w1)) → tail_ok w ((cacheFileList key files;; rest) w).
Proof.
  intros Hrest. rewrite tbind_unfold. simpl.
  eapply tail_ok_recording; [|apply Hrest]. by exists [key].
Qed.

Lemma tail_ok_for_each (f : string → string) sources (rest : T unit) w :
  (∀ w1, tail_ok w1 (rest w1)) →
  tail_ok w ((for_each (λ source, cacheFileInfo source (f source)) sources;; rest) w).
Proof.
  intros Hrest. rewrite tbind_unfold.
  destruct (for_each_cacheFileInfo f sources w) as (w' & -> & Hrec).
  eapply tail_ok_recording; [exact Hrec | apply Hrest].
Qed.

Lemma write_then path content (tail : T unit) w :
  write_error path = None →
  (∀ w1, tail_ok w1 (tail w1)) →
  run_shape path true w ((vowFs_write path content;; tail) w).
Proof.
  intros Hw Htail. right. rewrite tbind_unfold. unfold vowFs_write. rewrite Hw.
  set (w1 := mkWorld _ _ _ _ _).
  destruct (Htail w1) as (keys & Ht & Hd & Hl).
  split; [done|]. split; [done|]. exists content, keys.
  rewrite Ht, Hd. simpl. by rewrite <- app_assoc.
Qed.

(** The cache-hit branch touches the node only. *)
Lemma valid_branch_untouched name path w :
  untouched w
    (final ((node_call (isValidTarget name);;
             loaded ← require path;
             node_call (resolveTarget name (property_deps loaded));;
             mret tt) w)).
Proof.
  rewrite tbind_unfold.
  pose proof (node_call_untouched (isValidTarget name) w) as H1.
  destruct (node_call (isValidTarget name) w) as [[] w1|e w1]; simpl in *; [|done].
  rewrite tbind_unfold. pose proof (require_final path w1) as H2.
  destruct (require path w1) as [loaded w2|e w2]; simpl in *; subst; [|done].
  rewrite tbind_unfold.
  pose proof (node_call_untouched (resolveTarget name (property_deps loaded)) w1) as H3.
  destruct (node_call _ w1) as [? w3|? w3]; simpl in *; by eapply untouched_trans.
Qed.

Lemma bemdecl_merge_shape sources bemdeclTarget w :
  run_shape (resolvePath bemdeclTarget)
    (bemdecl_merge_rebuildNeeded sources bemdeclTarget w) w
    (bemdecl_merge_then sources bemdeclTarget w).
Proof.
  unfold bemdecl_merge_then. rewrite tbind_unfold. simpl.
  destruct (bemdecl_merge_rebuildNeeded sources bemdeclTarget w) eqn:Hneed;
    [|left; apply valid_branch_untouched].
  rewrite tbind_unfold.
  pose proof (map_T_require_final resolvePath sources w) as H1.
  destruct (map_T _ sources w) as [results w1|e w1]; simpl in H1; subst;
    [|left; apply untouched_refl].
  rewrite tbind_unfold.
  destruct (merge_bemdecls results) as [e|mergedDeps]; simpl;
    [left; apply untouched_refl|].
  rewrite tbind_unfold.
  destruct (toBemdecl mergedDeps) as [e|mergedBemdecl]; simpl;
    [left; apply untouched_refl|].
  destruct (write_error (resolvePath bemdeclTarget)) as [e|] eqn:Hw.
  { left. rewrite tbind_unfold. unfold vowFs_write. rewrite Hw. apply untouched_refl. }
  apply write_then; [done|]. intros w1.
  apply tail_ok_cacheFileInfo. intros w2.
  apply tail_ok_for_each. intros w3. apply tail_ok_notify.
Qed.

Lemma deps_shape depsTarget bemdeclSource levels w :
  run_shape (resolvePath depsTarget)
    (deps_rebuildNeeded depsTarget bemdeclSource (getFilesBySuffix levels "deps.js") w)
    w (deps_then depsTarget bemdeclSource levels w).
Proof.
  unfold deps_then. rewrite tbind_unfold. simpl.
  destruct (deps_rebuildNeeded _ _ _ w) eqn:Hneed;
    [|left; apply valid_branch_untouched].
  rewrite tbind_unfold.
  pose proof (require_final (resolvePath bemdeclSource) w) as H1.
  destruct (require _ w) as [bemdecl w1|e w1]; simpl in H1; subst;
    [|left; apply untouched_refl].
  rewrite tbind_unfold.
  destruct (resolve_deps levels bemdecl) as [e|resolvedDeps]; simpl;
    [left; apply untouched_refl|].
  destruct (write_error (resolvePath depsTarget)) as [e|] eqn:Hw.
  { left. rewrite tbind_unfold. unfold vowFs_write. rewrite Hw. apply untouched_refl. }
  apply write_then; [done|]. intros w1.
  apply tail_ok_cacheFileInfo. intros w2.
  apply tail_ok_cacheFileInfo. intros w3.
  apply tail_ok_cacheFileList. intros w4. apply tail_ok_notify.
Qed.

(** C8. In the callbacks of [bemdecl-merge] and [deps] every cache record
    is made after the output file has been written: in the events of a
    run a record is always preceded by a write of the output path.  When
    no rebuild is needed nothing is recorded and the cache is left as it
    was, and so it is whenever the run ends without having written the
    output (a source that fails to load, a merge that throws, a write
    that fails).  With a logger installed every failed run leaves the
    cache as it was. *)
Theorem cache_recorded_after_write
    (w : World) (sources : list string)
    (bemdeclTarget depsTarget bemdeclSource : string) (levels : Value) :
  cache_discipline (resolvePath bemdeclTarget)
    (bemdecl_merge_rebuildNeeded sources bemdeclTarget w) w
    (bemdecl_merge_then sources bemdeclTarget w) ∧
  cache_discipline (resolvePath depsTarget)
    (deps_rebuildNeeded depsTarget bemdeclSource (getFilesBySuffix levels "deps.js") w)
    w (deps_then depsTarget bemdeclSource levels w).
Proof.
  split; apply run_shape_discipline.
  - apply bemdecl_merge_shape.
  - apply deps_shape.
Qed.

(** *** What a rebuild writes, and what a cache hit hands on *)

Lemma map_T_require_all (f : string → string) sources results w :
  Forall2 (λ source v, ∃ file, disk w !! f source = Some file ∧
                               evaluate (fd_content file) = inr v)
          sources results →
  map_T (λ source, require (f source)) sources w = Returned results w.
Proof.
  induction 1 as [|source v sources results (file & Hfile & Hv) _ IH]; [done|].
  simpl. rewrite tbind_unfold. unfold require at 1. rewrite Hfile, Hv. simpl.
  by rewrite tbind_unfold, IH.
Qed.

Lemma for_each_cacheFileInfo_trace (f : string → string) sources w :
  ∃ w', for_each (λ source, cacheFileInfo source (f source)) sources w = Returned tt w' ∧
        trace w' = trace w ++ (Recorded <$> sources) ∧
        disk w' = disk w ∧ node w' = node w.
Proof.
  revert w. induction sources as [|s sources IH]; intros w; simpl.
  - exists w. by rewrite app_nil_r.
  - rewrite tbind_unfold. simpl.
    destruct (IH (cacheFileInfo_world s (f s) w)) as (w' & -> & Ht & Hd & Hn).
    exists w'. split; [done|]. rewrite Ht, Hd, Hn. simpl.
    by rewrite <- app_assoc.
Qed.

Lemma node_call_resolveTarget_ok name v w :
  is_Some (_logger (node w)) →
  node_call (resolveTarget name v) w =
  Returned (PTarget name)
    (mkWorld (resolved name v (node w)) (cache w) (disk w) (clock w) (trace w)).
Proof. intros Hl. unfold node_call. by rewrite resolveTarget_ok. Qed.

(** X16. A rebuild by [bemdecl-merge] that meets no failure: every source
    is loaded afresh, in the order of the option; the file written at the
    target path holds ['exports.blocks = '], the JSON text of the merged
    declaration and [';'] with a newline, and nothing else is written; the
    target and then each source are recorded in the cache; and the target's
    future is resolved with the merged dependencies, the value that the
    technologies waiting for the target receive. *)
Theorem bemdecl_merge_writes_the_merged_bemdecl
    (w : World) (sources : list string) (bemdeclTarget : string)
    (bemdeclResults : list Value) (mergedDeps mergedBemdecl : Value) :
  bemdecl_merge_rebuildNeeded sources bemdeclTarget w = true →
  Forall2 (λ source v, ∃ file, disk w !! resolvePath source = Some file ∧
                               evaluate (fd_content file) = inr v)
          sources bemdeclResults →
  merge_bemdecls bemdeclResults = inr mergedDeps →
  toBemdecl mergedDeps = inr mergedBemdecl →
  write_error (resolvePath bemdeclTarget) = None →
  is_Some (_logger (node w)) →
  let content := String.concat EmptyString
                   ["exports.blocks = "%string; JSON_stringify 0 mergedBemdecl;
                    ";"%string; newline] in
  ∃ w', bemdecl_merge_then sources bemdeclTarget w = Returned tt w' ∧
        disk w' = <[resolvePath bemdeclTarget := mkFileData (clock w) content]> (disk w) ∧
        trace w' = trace w ++ Written (resolvePath bemdeclTarget) content
                     :: Recorded "bemdecl-file" :: (Recorded <$> sources) ∧
        node w' = resolved bemdeclTarget mergedDeps (node w) ∧
        promise_state (node w') (PTarget bemdeclTarget) =
          defer_resolve mergedDeps (promise_state (node w) (PTarget bemdeclTarget)).
Proof.
  intros Hneed Hloaded Hmerged Hbemdecl Hwrite Hlog content.
  unfold bemdecl_merge_then. rewrite tbind_unfold. simpl. rewrite Hneed.
  rewrite tbind_unfold, (map_T_require_all resolvePath _ _ _ Hloaded).
  rewrite tbind_unfold, Hmerged. simpl. rewrite tbind_unfold, Hbemdecl. simpl.
  rewrite tbind_unfold. unfold vowFs_write. rewrite Hwrite.
  rewrite tbind_unfold. unfold cacheFileInfo at 1. rewrite tbind_unfold.
  set (w1 := cacheFileInfo_world _ _ _).
  destruct (for_each_cacheFileInfo_trace resolvePath sources w1)
    as (w2 & -> & Ht & Hd & Hn).
  rewrite tbind_unfold, node_call_resolveTarget_ok by (by rewrite Hn).
  eexists. split; [reflexivity|]. simpl. rewrite Ht, Hd, Hn. simpl.
  split_and!; [done | by rewrite <- !app_assoc | done | apply promise_state_resolved].
Qed.

(** X17. A rebuild by [deps] that meets no failure: the bemdecl is loaded
    afresh and handed with the levels to the resolver; the file written at
    the target path holds ['exports.deps = '], the JSON text of the resolved
    dependencies indented by four, and [';'] with no newline; the target,
    the bemdecl and the list of dependency files are recorded in the cache,
    in this order; and the target's future is resolved with the resolved
    dependencies. *)
Theorem deps_writes_the_resolved_deps
    (w : World) (depsTarget bemdeclSource : string) (levels bemdecl resolvedDeps : Value)
    (file : FileData) :
  deps_rebuildNeeded depsTarget bemdeclSource (getFilesBySuffix levels "deps.js") w
    = true →
  disk w !! resolvePath bemdeclSource = Some file →
  evaluate (fd_content file) = inr bemdecl →
  resolve_deps levels bemdecl = inr resolvedDeps →
  write_error (resolvePath depsTarget) = None →
  is_Some (_logger (node w)) →
  let content := String.concat EmptyString
                   ["exports.deps = "%string; JSON_stringify 4 resolvedDeps;
                    ";"%string] in
  ∃ w', deps_then depsTarget bemdeclSource levels w = Returned tt w' ∧
        disk w' = <[resolvePath depsTarget := mkFileData (clock w) content]> (disk w) ∧
        trace w' = trace w ++ [Written (resolvePath depsTarget) content;
                               Recorded "deps-file"; Recorded "bemdecl-file";
                               Recorded "deps-file-list"] ∧
        node w' = resolved depsTarget resolvedDeps (node w) ∧
        promise_state (node w') (PTarget depsTarget) =
          defer_resolve resolvedDeps (promise_state (node w) (PTarget depsTarget)).
Proof.
  intros Hneed Hfile Hbemdecl Hresolved Hwrite Hlog content.
  unfold deps_then. rewrite tbind_unfold. simpl. rewrite Hneed.
  rewrite tbind_unfold. unfold require at 1. rewrite Hfile, Hbemdecl. simpl.
  rewrite tbind_unfold, Hresolved. simpl.
  rewrite tbind_unfold. unfold vowFs_write. rewrite Hwrite.
  rewrite tbind_unfold. unfold cacheFileInfo at 1.
  rewrite tbind_unfold. unfold cacheFileInfo at 1.
  rewrite tbind_unfold. unfold cacheFileList at 1.
  rewrite tbind_unfold, node_call_resolveTarget_ok by done.
  eexists. split; [reflexivity|]. simpl.
  split_and!; [done | by rewrite <- !app_assoc | done | apply promise_state_resolved].
Qed.

Lemma node_call_isValidTarget_ok name w :
  is_Some (_logger (node w)) →
  node_call (isValidTarget name) w =
  Returned tt (mkWorld (validated name (node w)) (cache w) (disk w) (clock w) (trace w)).
Proof. intros Hl. unfold node_call. by rewrite isValidTarget_ok. Qed.

Lemma logger_validated name n : is_Some (_logger n) → is_Some (_logger (validated name n)).
Proof.
  intros [l Hl]. unfold validated.
  rewrite logger_update, logger_logged, logger_ensure_target, Hl. by eexists.
Qed.

(** The cache-hit branch of both routines. *)
Lemma valid_branch_run name path w :
  is_Some (_logger (node w)) →
  let run := (node_call (isValidTarget name);;
              loaded ← require path;
              node_call (resolveTarget name (property_deps loaded));;
              mret tt) w in
  let marked := mkWorld (validated name (node w)) (cache w) (disk w) (clock w)
                        (trace w) in
  match disk w !! path with
  | None => ∃ e, run = Failed e marked
  | Some file =>
      match evaluate (fd_content file) with
      | inl e => run = Failed e marked
      | inr loaded =>
          run = Returned tt
                  (mkWorld (resolved name (property_deps loaded)
                              (validated name (node w)))
                           (cache w) (disk w) (clock w) (trace w))
      end
  end.
Proof.
  intros Hl run marked. unfold run.
  rewrite tbind_unfold, node_call_isValidTarget_ok by done.
  rewrite tbind_unfold. unfold require. simpl.
  destruct (disk w !! path) as [file|]; [|by eexists].
  destruct (evaluate (fd_content file)) as [e|loaded]; simpl; [done|].
  rewrite tbind_unfold, node_call_resolveTarget_ok by (by apply logger_validated).
  done.
Qed.

(** X18. A cache hit in [bemdecl-merge] or [deps]: the target is marked
    valid, the output of the earlier build is loaded afresh from the target
    path, and the target's future is resolved with the [deps] property of
    what was loaded; disk, cache and clock stay as they are and nothing is
    written or recorded.  (The target is no member name of
    [Object.prototype].)  When the stored output cannot be loaded the
    callback fails at that point, after the target has been marked valid:
    the promise of the build routine is rejected, and the handler of
    [requireSources] rejects the target's future with the error of the
    load. *)
Theorem cache_hit_hands_on_the_stored_output
    (w : World) (sources : list string)
    (bemdeclTarget depsTarget bemdeclSource : string) (levels : Value) :
  is_Some (_logger (node w)) →
  let stored (target : string) (callback : T unit) : Prop :=
    let run := build_promise target callback w in
    untouched w (final run) ∧ failed run = false ∧
    isValid <$> NodeModel.target target (node (final run)) = Some true ∧
    match disk w !! resolvePath target ≫= (λ file, Some (evaluate (fd_content file))) with
    | Some (inr loaded) =>
        callback w = Returned tt (final run) ∧
        node (final run) =
          resolved target (property_deps loaded) (validated target (node w)) ∧
        promise_state (node (final run)) (PTarget target) =
          defer_resolve (property_deps loaded) (promise_state (node w) (PTarget target))
    | _ =>
        ∃ e, (disk w !! resolvePath target ≫= (λ file, Some (evaluate (fd_content file)))
                = Some (inl e) ∨
              disk w !! resolvePath target = None) ∧
             failed (callback w) = true ∧
             node (final run) = rejected target e (validated target (node w)) ∧
             promise_state (node (final run)) (PTarget target) =
               defer_reject e (promise_state (node w) (PTarget target))
    end in
  (own_name bemdeclTarget →
   bemdecl_merge_rebuildNeeded sources bemdeclTarget w = false →
   stored bemdeclTarget (bemdecl_merge_then sources bemdeclTarget)) ∧
  (own_name depsTarget →
   deps_rebuildNeeded depsTarget bemdeclSource (getFilesBySuffix levels "deps.js") w
     = false →
   stored depsTarget (deps_then depsTarget bemdeclSource levels)).
Proof.
  intros Hl stored.
  assert (∀ name callback,
            callback w =
              (node_call (isValidTarget name);;
               loaded ← require (resolvePath name);
               node_call (resolveTarget name (property_deps loaded));;
               mret tt) w →
            stored name callback) as Hbranch.
  { intros name callback Hcb. unfold stored, build_promise. rewrite Hcb. clear Hcb.
    assert (isValid <$> NodeModel.target name (validated name (node w)) = Some true)
      as Hvalid.
    { unfold validated. rewrite target_update, decide_True by done.
      by rewrite target_logged, target_ensure_target_eq. }
    assert (promise_state (validated name (node w)) (PTarget name) =
            promise_state (node w) (PTarget name)) as Hsame.
    { simpl. unfold validated. rewrite target_update, decide_True by done.
      rewrite target_logged, target_ensure_target_eq. simpl.
      by destruct (NodeModel.target name (node w)). }
    assert (is_Some (_logger (validated name (node w)))) as Hlv
      by (by apply logger_validated).
    assert (∀ m, evolves (validated name (node w)) m →
                 isValid <$> NodeModel.target name m = Some true) as Hkept.
    { intros m Hev.
      destruct (NodeModel.target name (validated name (node w))) as [t|] eqn:Ht;
        [|done].
      destruct (ev_target _ _ Hev _ _ Ht) as (t' & -> & E). simpl in *.
      f_equal. apply (te_isValid _ _ E). by injection Hvalid. }
    assert (∀ e,
      node_call (when_build_fails name (Some e))
        (mkWorld (validated name (node w)) (cache w) (disk w) (clock w) (trace w)) =
      Returned tt (mkWorld (rejected name e (validated name (node w)))
                           (cache w) (disk w) (clock w) (trace w))) as Hhandler.
    { intros e. unfold node_call, when_build_fails. simpl.
      by rewrite bind_unfold, (rejectTarget_ok name e _ Hlv). }
    assert (∀ e, promise_state (rejected name e (validated name (node w))) (PTarget name)
                 = defer_reject e (promise_state (node w) (PTarget name))) as Hrejected.
    { intros e. pose proof (promise_state_rejected name e (validated name (node w))) as Hp.
      by rewrite Hsame in Hp. }
    pose proof (valid_branch_run name (resolvePath name) w Hl) as Hrun.
    cbv zeta in Hrun.
    destruct (disk w !! resolvePath name) as [file|]; cbn [mbind option_bind].
    - destruct (evaluate (fd_content file)) as [e|loaded]; rewrite Hrun.
      + rewrite Hhandler. cbn [final failed node].
        split_and!; [done | done | apply Hkept, evolves_rejected |].
        exists e. split_and!; [by left | done | done | apply Hrejected].
      + pose proof (promise_state_resolved name (property_deps loaded)
                      (validated name (node w))) as Hp.
        rewrite Hsame in Hp. cbn [final failed node].
        split_and!; [done | done | | done | done | exact Hp].
        apply Hkept.
        pose proof (preserves_resolveTarget True name (property_deps loaded)
                      (validated name (node w))) as Hev.
        by rewrite resolveTarget_ok in Hev.
    - destruct Hrun as [e ->]. rewrite Hhandler. cbn [final failed node].
      split_and!; [done | done | apply Hkept, evolves_rejected |].
      exists e. split_and!; [by right | done | done | apply Hrejected]. }
  split.
  - intros _ Hneed. apply Hbranch. unfold bemdecl_merge_then.
    rewrite tbind_unfold. simpl. by rewrite Hneed.
  - intros _ Hneed. apply Hbranch. unfold deps_then.
    rewrite tbind_unfold. simpl. by rewrite Hneed.
Qed.

End Routines.

(** *** A concrete run *)

(** The next run of the build: a node on which nothing is built yet, with
    the cache and the disk that the first run of [bemdecl-merge] has left
    behind. *)
Definition second_run : World :=
  let left := final (bemdecl_merge_then project_path load_text merge_texts inr
                       print_value id (λ _, None)
                       ["search.bemdecl.js"] "index.bemdecl.js" first_run) in
  mkWorld index_node_registered (cache left) (disk left) (clock left) [].

Lemma cache_recorded_after_write_witness :
  let run := bemdecl_merge_then project_path load_text merge_texts inr
               print_value id (λ _, None)
               ["search.bemdecl.js"] "index.bemdecl.js" first_run in
  let failing := bemdecl_merge_then project_path load_text merge_texts inr
                   print_value id (λ _, Some boom)
                   ["search.bemdecl.js"] "index.bemdecl.js" first_run in
  trace (final run)
  = [Written (project_path "index.bemdecl.js")
       (String.concat EmptyString
          ["exports.blocks = "%string; "search"%string; ";"%string; newline]);
     Recorded "bemdecl-file"; Recorded "search.bemdecl.js"] ∧
  recorded_after_write (project_path "index.bemdecl.js") (trace (final run)) ∧
  failed failing = true ∧ cache (final failing) = cache first_run.
Proof.
  intros run failing. split_and!.
  - reflexivity.
  - destruct (cache_recorded_after_write project_path load_text merge_texts inr
                print_value id (λ _, None) (λ _ _, inr VUndefined) (λ _ _, [])
                first_run ["search.bemdecl.js"] "index.bemdecl.js"
                "index.deps.js" "index.bemdecl.js" VUndefined)
      as [(evs & Ht & Hord & _) _].
    fold run in Ht. rewrite Ht. exact Hord.
  - reflexivity.
  - destruct (cache_recorded_after_write project_path load_text merge_texts inr
                print_value id (λ _, Some boom) (λ _ _, inr VUndefined) (λ _ _, [])
                first_run ["search.bemdecl.js"] "index.bemdecl.js"
                "index.deps.js" "index.bemdecl.js" VUndefined)
      as [(evs & _ & _ & _ & _ & _ & Hfail) _].
    apply Hfail; [by eexists | reflexivity].
Defined.

Lemma bemdecl_merge_writes_the_merged_bemdecl_witness :
  ∃ w', bemdecl_merge_then project_path load_text merge_texts inr
          print_value id (λ _, None)
          ["search.bemdecl.js"] "index.bemdecl.js" first_run = Returned tt w' ∧
        disk w' !! project_path "index.bemdecl.js" =
          Some (mkFileData 10 (String.concat EmptyString
                  ["exports.blocks = "%string; "search"%string; ";"%string; newline])) ∧
        promise_state (node w') (PTarget "index.bemdecl.js") = Fulfilled (VData "search").
Proof.
  destruct (bemdecl_merge_writes_the_merged_bemdecl project_path load_text
              merge_texts inr print_value id (λ _, None) first_run
              ["search.bemdecl.js"] "index.bemdecl.js"
              [VData "search"] (VData "search") (VData "search"))
    as (w' & Hrun & Hdisk & _ & _ & Hpromise).
  - reflexivity.
  - repeat constructor. by eexists.
  - reflexivity.
  - reflexivity.
  - reflexivity.
  - by eexists.
  - exists w'. split; [exact Hrun|]. split.
    + rewrite Hdisk. apply lookup_insert_eq.
    + rewrite Hpromise. reflexivity.
Defined.

Lemma deps_writes_the_resolved_deps_witness :
  ∃ w', deps_then project_path load_text print_value id (λ _, None)
          (λ _ bemdecl, inr bemdecl) (λ _ _, [])
          "index.deps.js" "search.bemdecl.js" VUndefined first_run = Returned tt w' ∧
        trace w' = [Written (project_path "index.deps.js")
                      (String.concat EmptyString
                         ["exports.deps = "%string; "search"%string; ";"%string]);
                    Recorded "deps-file"; Recorded "bemdecl-file";
                    Recorded "deps-file-list"].
Proof.
  destruct (deps_writes_the_resolved_deps project_path load_text print_value
              id (λ _, None) (λ _ bemdecl, inr bemdecl) (λ _ _, [])
              first_run "index.deps.js" "search.bemdecl.js" VUndefined
              (VData "search") (VData "search") (mkFileData 5 "search"))
    as (w' & Hrun & _ & Htrace & _).
  - reflexivity.
  - reflexivity.
  - reflexivity.
  - reflexivity.
  - reflexivity.
  - by eexists.
  - exists w'. split; [exact Hrun | exact Htrace].
Defined.

(** The second run hits the cache.  With a loader that fails, the target
    is rejected with the loader's error. *)
Lemma cache_hit_hands_on_the_stored_output_witness :
  let routine evaluate :=
    build_promise "index.bemdecl.js"
      (bemdecl_merge_then project_path evaluate merge_texts inr
         print_value id (λ _, None) ["search.bemdecl.js"] "index.bemdecl.js")
      second_run in
  (untouched second_run (final (routine load_text)) ∧
   promise_state (node (final (routine load_text))) (PTarget "index.bemdecl.js")
     = Fulfilled (VData (String.concat EmptyString
                           ["exports.blocks = search;"%string; newline]))) ∧
  (untouched second_run (final (routine (λ _, inl boom))) ∧
   promise_state (node (final (routine (λ _, inl boom)))) (PTarget "index.bemdecl.js")
     = Rejected boom).
Proof.
  intros routine. split.
  - destruct (cache_hit_hands_on_the_stored_output project_path load_text
                merge_texts inr print_value id (λ _, None)
                (λ _ bemdecl, inr bemdecl) (λ _ _, [])
                second_run ["search.bemdecl.js"]
                "index.bemdecl.js" "index.deps.js" "index.bemdecl.js" VUndefined)
      as [Hmerge _]; [by eexists|].
    destruct Hmerge as (Hsame & _ & _ & Hloaded);
      [apply (bool_decide_unpack _); vm_compute; exact I | reflexivity |].
    split; [exact Hsame|]. reflexivity.
  - destruct (cache_hit_hands_on_the_stored_output project_path (λ _, inl boom)
                merge_texts inr print_value id (λ _, None)
                (λ _ bemdecl, inr bemdecl) (λ _ _, [])
                second_run ["search.bemdecl.js"]
                "index.bemdecl.js" "index.deps.js" "index.bemdecl.js" VUndefined)
      as [Hmerge _]; [by eexists|].
    destruct Hmerge as (Hsame & _ & _ & Hfailed);
      [apply (bool_decide_unpack _); vm_compute; exact I | reflexivity |].
    split; [exact Hsame|]. reflexivity.
Defined.

End Techs.

(** ** The build entry point of the API *)

Module MakeApi.

Import NodeModel.

(** The options object, typed as its documentation has it.  A field is
    [None] when the object has no such property; [config] is a function,
    for which an identifier stands. *)
Record Options := mkOptions {
  dir : option string;
  mode : option string;
  config : option nat;
  log : option bool;
  strict : option bool;
  cache : option bool;
  graph : option bool;
  hideWarnings : option bool;
  profiler : option bool;
  profilerPercentiles : option (list Z)
}.

(** [{}] *)
Definition no_options : Options :=
  mkOptions None None None None None None None None None None.

(** What a caller may pass for [targets] and [options]. *)
Inductive JsArg :=
| JUndefined
| JNull
| JArray (items : list string)
| JObject (properties : Options).

Definition truthy (a : JsArg) : bool :=
  match a with
  | JUndefined | JNull => false
  | JArray _ | JObject _ => true
  end.

(** [Array.isArray(a)] *)
Definition isArray (a : JsArg) : bool :=
  match a with JArray _ => true | _ => false end.

(** The own properties of a value read as the options; an array has none
    of them. *)
Definition properties_of (a : JsArg) : Options :=
  match a with JObject o => o | _ => no_options end.

(** [flag || <falsy>], for a boolean property that may be absent. *)
Definition is_true (flag : option bool) : bool := default false flag.

(** The value of [options.profiler || options.profilerPercentiles]. *)
Inductive ProfilerArg :=
| ProfilerOff
| ProfilerOn
| ProfilerRanks (ranks : list Z).

Definition needs_profiler (p : ProfilerArg) : bool :=
  match p with ProfilerOff => false | _ => true end.

Inductive Message :=
| BuildStarted                  (* 'build started' *)
| BuildFinished (ms : Z)        (* 'build finished - ' + colors.red(ms + 'ms') *)
| BuildFailed.                  (* 'build failed' *)

(** The calls made on the platform, on its logger and on the console. *)
Inductive Effect :=
| Init (root : string) (mode : option string) (config : option nat)
       (graph : option bool) (profiler : ProfilerArg)
| GetLogger
| SetEnabled (enableLog : bool)
| Log (m : Message)
| GetBuildGraph
| HideWarnings
| LoadCache
| Build (targets : JsArg)
| RenderGraph                   (* console.log(graph.render()) *)
| SaveCacheAsync
| Destruct
| GetBuildProfiler
| CalculateBuildTimes
| CalculateTechMetrics
| CalculateTechPercentiles (ranks : list Z).

(** The value the returned promise is fulfilled with: [undefined], [{}],
    or the profile with or without [techPercentiles]. *)
Inductive Result :=
| ResultUndefined
| ResultEmpty
| ResultProfile (techPercentiles : option (list Z)).

Inductive Outcome :=
| Resolved (r : Result)
| RejectedWith (e : Error).

Record Run := mkRun { effects : list Effect; outcome : Outcome }.

#[global] Instance Message_eq_dec : EqDecision Message.
Proof. solve_decision. Defined.
#[global] Instance Options_eq_dec : EqDecision Options.
Proof. solve_decision. Defined.
#[global] Instance JsArg_eq_dec : EqDecision JsArg.
Proof. solve_decision. Defined.
#[global] Instance ProfilerArg_eq_dec : EqDecision ProfilerArg.
Proof. solve_decision. Defined.
#[global] Instance Effect_eq_dec : EqDecision Effect.
Proof. solve_decision. Defined.

Section Make.

(** The platform and the clock, as the entry point meets them: how the
    promises of [init], [build] and [saveCacheAsync] settle ([None] for
    fulfilled), and the two readings of [new Date() - startTime].  The
    platform's other methods return normally. *)
Variable init_failure : option Error.
Variable build_failure : option Error.
Variable save_failure : option Error.
Variable finish_ms fail_ms : Z.
(** [path.resolve] and [process.cwd()] *)
Variable path_resolve : string → string.
Variable cdir : string.

(** [targets] and [options] as the body sees them after its first
    lines. *)
Definition arguments_of (args : list JsArg) : JsArg * JsArg :=
  let targets := default JUndefined (args !! 0) in
  let options := default JUndefined (args !! 1) in
  let targets := if truthy targets then targets else JArray [] in
  let options := if truthy options then options else JObject no_options in
  if bool_decide (length args = 1) && negb (isArray targets)
  then (JArray [], targets)
  else (targets, options).

(** The local variables the function computes before it calls [init]. *)
Record Settings := mkSettings {
  targets : JsArg;
  options : Options;
  root : string;
  useCache : bool;
  isStrict : bool;
  needProfiler : ProfilerArg;
  enableLog : bool
}.

Definition settings_of (args : list JsArg) : Settings :=
  let options := properties_of (arguments_of args).2 in
  {| targets := (arguments_of args).1;
     options := options;
     root := path_resolve (match dir options with
                           | Some d => if decide (d = EmptyString) then cdir else d
                           | None => cdir
                           end);
     useCache := default true (cache options);
     isStrict := default true (strict options);
     needProfiler :=
       if is_true (profiler options) then ProfilerOn
       else match profilerPercentiles options with
            | Some ranks => ProfilerRanks ranks
            | None => ProfilerOff
            end;
     enableLog := default true (log options) |}.

(** [makePlatform.init(root, options.mode, options.config,
     { graph: options.graph, profiler: needProfiler })] *)
Definition init_call (s : Settings) : Effect :=
  Init (root s) (mode (options s)) (config (options s)) (graph (options s))
       (needProfiler s).

(** The first [then] callback, up to its call of [build]. *)
Definition before_build (s : Settings) : list Effect :=
  [GetLogger; SetEnabled (enableLog s); Log BuildStarted]
  ++ (if is_true (graph (options s)) then [GetBuildGraph] else [])
  ++ (if is_true (hideWarnings (options s)) then [HideWarnings] else [])
  ++ (if useCache s then [LoadCache] else [])
  ++ [Build (targets s)].

(** The callback that runs when the build has succeeded, up to its call of
    [saveCacheAsync]. *)
Definition after_build (s : Settings) : list Effect :=
  (if is_true (graph (options s)) then [RenderGraph] else [])
  ++ [Log (BuildFinished finish_ms); SaveCacheAsync].

(** The last [then] callback. *)
Definition profile (s : Settings) : list Effect * Result :=
  if needs_profiler (needProfiler s) then
    match profilerPercentiles (options s) with
    | Some (r :: ranks) =>
        ([GetBuildProfiler; GetBuildGraph; CalculateBuildTimes; CalculateTechMetrics;
          CalculateTechPercentiles (r :: ranks)],
         ResultProfile (Some (r :: ranks)))
    | _ =>
        ([GetBuildProfiler; GetBuildGraph; CalculateBuildTimes; CalculateTechMetrics],
         ResultProfile None)
    end
  else ([], ResultEmpty).

(** [err instanceof TargetNotFoundError] *)
Definition is_target_not_found (err : Error) : bool :=
  bool_decide (kind err = TargetNotFoundEror).

(** The [fail] callback, after the calls in [done]; [logger] tells
    whether the variable of that name has been assigned, which is also
    when [graph] may have been. *)
Definition on_fail (s : Settings) (logger : bool) (done : list Effect)
    (err : Error) : Run :=
  let done :=
    if logger && is_true (graph (options s)) then done ++ [RenderGraph] else done in
  if negb (isStrict s) && is_target_not_found err then
    if logger
    then mkRun (done ++ [Log (BuildFinished fail_ms)]) (Resolved ResultUndefined)
    else (* [logger.log] on [undefined]; the message is the engine's *)
         mkRun done
           (RejectedWith (mkError TypeError "Cannot read properties of undefined"))
  else
    mkRun (if logger then done ++ [Log BuildFailed] else done) (RejectedWith err).

(** The exported function, called with [args]. *)
Definition make (args : list JsArg) : Run :=
  let s := settings_of args in
  match init_failure with
  | Some err => on_fail s false [init_call s] err
  | None =>
      match build_failure with
      | Some err => on_fail s true (init_call s :: before_build s) err
      | None =>
          match save_failure with
          | Some err =>
              on_fail s true (init_call s :: before_build s ++ after_build s) err
          | None =>
              mkRun (init_call s :: before_build s ++ after_build s
                       ++ Destruct :: (profile s).1)
                    (Resolved (profile s).2)
          end
      end
  end.

(** *** Vocabulary of the statements *)

(** The first of the three promises that is rejected, with its reason. *)
Definition first_failure : option Error :=
  match init_failure, build_failure, save_failure with
  | Some e, _, _ => Some e
  | None, Some e, _ => Some e
  | None, None, e => e
  end.

(** The messages logged by a sequence of calls, in order. *)
Definition messages (evs : list Effect) : list Message :=
  omap (λ ev, match ev with Log m => Some m | _ => None end) evs.

(** A call that makes the profile: the getters of the profiler and of the
    graph, and the profiler's calculations. *)
Definition is_calculation (ev : Effect) : Prop :=
  ev = GetBuildProfiler ∨ ev = GetBuildGraph ∨
  ev = CalculateBuildTimes ∨ ev = CalculateTechMetrics ∨
  ∃ ranks, ev = CalculateTechPercentiles ranks.

(** A call that prepares the build: on the logger, for the graph, or to
    load the cache. *)
Definition is_setup (ev : Effect) : Prop :=
  ev = GetLogger ∨ (∃ enabled, ev = SetEnabled enabled) ∨ ev = Log BuildStarted ∨
  ev = GetBuildGraph ∨ ev = HideWarnings ∨ ev = LoadCache.

(** A report: a message to the logger, or the graph printed to the
    console. *)
Definition is_report (ev : Effect) : Prop :=
  ev = RenderGraph ∨ ∃ m, ev = Log m.

(** *** The parts of a run *)

Lemma messages_app evs1 evs2 : messages (evs1 ++ evs2) = messages evs1 ++ messages evs2.
Proof. apply omap_app. Qed.

Lemma messages_before_build s : messages (before_build s) = [BuildStarted].
Proof.
  unfold before_build, messages.
  by destruct (is_true (graph (options s))), (is_true (hideWarnings (options s))),
    (useCache s).
Qed.

Lemma messages_after_build s : messages (after_build s) = [BuildFinished finish_ms].
Proof. unfold after_build, messages. by destruct (is_true (graph (options s))). Qed.

Lemma profile_calls s :
  (profile s).2 ≠ ResultUndefined ∧ messages (profile s).1 = [] ∧
  ∀ ev, ev ∈ (profile s).1 → is_calculation ev.
Proof.
  unfold profile, is_calculation.
  destruct (needs_profiler (needProfiler s)); [|by split_and!; [..|intros ? ?%elem_of_nil]].
  destruct (profilerPercentiles (options s)) as [[|r ranks]|]; simpl;
    (split_and!; [done | done |]); intros ev Hev;
    repeat (apply elem_of_cons in Hev as [->|Hev]; [eauto 10|]);
    by apply elem_of_nil in Hev.
Qed.

Lemma elem_of_before_build s ev :
  ev ∈ before_build s ↔
  ev = GetLogger ∨ ev = SetEnabled (enableLog s) ∨ ev = Log BuildStarted ∨
  (ev = GetBuildGraph ∧ is_true (graph (options s)) = true) ∨
  (ev = HideWarnings ∧ is_true (hideWarnings (options s)) = true) ∨
  (ev = LoadCache ∧ useCache s = true) ∨ ev = Build (targets s).
Proof.
  unfold before_build.
  destruct (is_true (graph (options s))), (is_true (hideWarnings (options s))),
    (useCache s); simpl;
    rewrite ?elem_of_cons, elem_of_nil; intuition congruence.
Qed.

Lemma elem_of_after_build s ev :
  ev ∈ after_build s ↔
  (ev = RenderGraph ∧ is_true (graph (options s)) = true) ∨
  ev = Log (BuildFinished finish_ms) ∨ ev = SaveCacheAsync.
Proof.
  unfold after_build.
  destruct (is_true (graph (options s))); simpl;
    rewrite ?elem_of_cons, elem_of_nil; intuition congruence.
Qed.

(** The [fail] callback adds no call on the platform. *)
Lemma elem_of_on_fail s logger done err ev :
  ev ∈ effects (on_fail s logger done err) →
  ev ∈ done ∨ ev = RenderGraph ∨ ∃ m, ev = Log m.
Proof.
  unfold on_fail.
  destruct (negb (isStrict s) && is_target_not_found err), logger,
    (is_true (graph (options s))); simpl;
    rewrite ?elem_of_app, ?elem_of_cons, ?elem_of_nil; intuition eauto.
Qed.

Lemma on_fail_keeps s logger done err ev :
  ev ∈ done → ev ∈ effects (on_fail s logger done err).
Proof.
  unfold on_fail. intros Hev.
  destruct (negb (isStrict s) && is_target_not_found err), logger,
    (is_true (graph (options s))); simpl;
    rewrite ?elem_of_app; eauto.
Qed.

Lemma on_fail_outcome s logger done err :
  let swallowed := negb (isStrict s) && is_target_not_found err in
  outcome (on_fail s logger done err) =
    (if swallowed
     then if logger then Resolved ResultUndefined
          else RejectedWith (mkError TypeError "Cannot read properties of undefined")
     else RejectedWith err) ∧
  messages (effects (on_fail s logger done err)) =
    messages done ++
    (if logger then [if swallowed then BuildFinished fail_ms else BuildFailed] else []).
Proof.
  unfold on_fail.
  destruct (negb (isStrict s) && is_target_not_found err), logger,
    (is_true (graph (options s))); simpl;
    by rewrite ?messages_app, ?app_nil_r.
Qed.

(** X14. What becomes of a failure.  When [init], [build] and
    [saveCacheAsync] all succeed, the returned promise is fulfilled with a
    result object and the last message logged is the one that reports the
    build finished.  When one of them fails, in a strict run (the default)
    or with any error that is not a target-not-found error, the promise is
    rejected with that very error; the last message logged is
    ['build failed'], unless [init] itself failed, in which case there is
    no logger and nothing is logged.  In a run that is not strict a
    target-not-found error is swallowed: the promise is fulfilled with
    [undefined] after the finished message has been logged; but when it is
    [init] that failed so, the callback calls [log] on a logger it never
    got, and the promise is rejected with that [TypeError]. *)
Theorem make_error_policy (args : list JsArg) :
  let r := make args in
  let strictly := isStrict (settings_of args) in
  (first_failure = None →
     (∃ res, outcome r = Resolved res ∧ res ≠ ResultUndefined) ∧
     last (messages (effects r)) = Some (BuildFinished finish_ms)) ∧
  (∀ e, first_failure = Some e →
     strictly = true ∨ kind e ≠ TargetNotFoundEror →
     outcome r = RejectedWith e ∧
     (init_failure = None → last (messages (effects r)) = Some BuildFailed) ∧
     (init_failure ≠ None → messages (effects r) = [])) ∧
  (∀ e, first_failure = Some e →
     strictly = false → kind e = TargetNotFoundEror →
     (init_failure = None →
        outcome r = Resolved ResultUndefined ∧
        last (messages (effects r)) = Some (BuildFinished fail_ms)) ∧
     (init_failure ≠ None →
        ∃ e', outcome r = RejectedWith e' ∧ kind e' = TypeError ∧
              messages (effects r) = [])).
Proof.
  intros r strictly. unfold r, strictly, make, first_failure.
  set (s := settings_of args).
  assert (∀ logger done e,
            isStrict s = true ∨ kind e ≠ TargetNotFoundEror →
            outcome (on_fail s logger done e) = RejectedWith e ∧
            messages (effects (on_fail s logger done e)) =
              messages done ++ (if logger then [BuildFailed] else [])) as Hkept.
  { intros logger done e Hwhy. destruct (on_fail_outcome s logger done e) as [-> ->].
    assert (negb (isStrict s) && is_target_not_found e = false) as ->; [|done].
    destruct Hwhy as [-> | Hk]; [done|]. unfold is_target_not_found.
    rewrite bool_decide_eq_false_2 by done. apply andb_false_r. }
  assert (∀ logger done e,
            isStrict s = false → kind e = TargetNotFoundEror →
            outcome (on_fail s logger done e) =
              (if logger then Resolved ResultUndefined
               else RejectedWith
                      (mkError TypeError "Cannot read properties of undefined")) ∧
            messages (effects (on_fail s logger done e)) =
              messages done ++ (if logger then [BuildFinished fail_ms] else []))
    as Hswallowed.
  { intros logger done e Hs Hk. destruct (on_fail_outcome s logger done e) as [-> ->].
    unfold is_target_not_found. by rewrite Hs, (bool_decide_eq_true_2 _ Hk). }
  split_and!.
  - destruct init_failure, build_failure, save_failure; try done. intros _.
    destruct (profile_calls s) as (Hres & Hlogs & _). split; [by eexists|].
    cbn [effects]. change (init_call s :: ?l) with ([init_call s] ++ l).
    rewrite !messages_app, messages_before_build, messages_after_build.
    change (Destruct :: (profile s).1) with ([Destruct] ++ (profile s).1).
    by rewrite messages_app, Hlogs.
  - intros e He Hwhy.
    destruct init_failure as [e0|]; [injection He as ->|].
    { destruct (Hkept false [init_call s] e Hwhy) as [-> ->]. by split_and!. }
    destruct build_failure as [e1|]; [injection He as ->|].
    { destruct (Hkept true (init_call s :: before_build s) e Hwhy) as [-> ->].
      split_and!; [done | | done]. intros _. apply last_snoc. }
    destruct save_failure as [e2|]; [injection He as ->|done].
    destruct (Hkept true (init_call s :: before_build s ++ after_build s) e Hwhy)
      as [-> ->].
    split_and!; [done | | done]. intros _. apply last_snoc.
  - intros e He Hs Hk.
    destruct init_failure as [e0|]; [injection He as ->|].
    { destruct (Hswallowed false [init_call s] e Hs Hk) as [-> ->].
      split; [done|]. intros _. by eexists. }
    destruct build_failure as [e1|]; [injection He as ->|].
    { destruct (Hswallowed true (init_call s :: before_build s) e Hs Hk) as [-> ->].
      split; [|done]. intros _. split; [done | apply last_snoc]. }
    destruct save_failure as [e2|]; [injection He as ->|done].
    destruct (Hswallowed true (init_call s :: before_build s ++ after_build s) e Hs Hk)
      as [-> ->].
    split; [|done]. intros _. split; [done | apply last_snoc].
Qed.

(** *** The calls on the platform *)

(** [build], [loadCache], [saveCacheAsync] and [destruct]. *)
Lemma on_fail_platform_call s logger done err ev :
  ev ≠ RenderGraph → (∀ m, ev ≠ Log m) →
  ev ∈ effects (on_fail s logger done err) ↔ ev ∈ done.
Proof.
  intros Hr Hl. split; [|apply on_fail_keeps].
  intros [?|[?|[m ?]]]%elem_of_on_fail; [done | done | by destruct (Hl m)].
Qed.

Lemma profile_no_platform_call s ev :
  ev ∈ (profile s).1 →
  (∀ t, ev ≠ Build t) ∧ ev ≠ LoadCache ∧ ev ≠ SaveCacheAsync ∧ ev ≠ Destruct.
Proof.
  intros [->|[->|[->|[->|[ranks ->]]]]]%profile_calls; by split_and!.
Qed.

Lemma useCache_true args :
  useCache (settings_of args) = true ↔ cache (options (settings_of args)) ≠ Some false.
Proof. simpl. destruct (cache _) as [[|]|]; simpl; split; congruence. Qed.

Ltac platform_calls :=
  rewrite ?on_fail_platform_call by done;
  rewrite ?elem_of_cons, ?elem_of_app, ?elem_of_before_build, ?elem_of_after_build,
    ?elem_of_cons, ?elem_of_nil;
  unfold init_call.

(** Which of the calls listed in a hypothesis can be the given one. *)
Ltac which_call H :=
  repeat match type of H with
         | _ ∨ _ => destruct H as [H|H]
         | _ ∧ _ => destruct H as [H ?]
         end;
  try discriminate H; try done.

Lemma before_build_split s :
  ∃ pre, before_build s = pre ++ [Build (targets s)] ∧
         (∀ ev, ev ∈ pre → is_setup ev) ∧
         (LoadCache ∈ pre ↔ useCache s = true).
Proof.
  unfold before_build.
  exists ([GetLogger; SetEnabled (enableLog s); Log BuildStarted]
            ++ (if is_true (graph (options s)) then [GetBuildGraph] else [])
            ++ (if is_true (hideWarnings (options s)) then [HideWarnings] else [])
            ++ (if useCache s then [LoadCache] else [])).
  split; [by rewrite <- !app_assoc|]. unfold is_setup.
  destruct (is_true (graph (options s))), (is_true (hideWarnings (options s))),
    (useCache s); simpl;
    (split; [intros ev Hev | split; [intros Hev | intros ?; try done; auto 10]]);
    repeat (apply elem_of_cons in Hev as [Hev|Hev];
            [first [subst ev; eauto 10 | discriminate Hev | done]|]);
    try (by apply elem_of_nil in Hev); try done; repeat (right; try left).
Qed.

Lemma after_build_split s :
  ∃ between, after_build s = between ++ [SaveCacheAsync] ∧
             ∀ ev, ev ∈ between → is_report ev.
Proof.
  unfold after_build, is_report.
  exists ((if is_true (graph (options s)) then [RenderGraph] else [])
            ++ [Log (BuildFinished finish_ms)]).
  split; [by rewrite <- !app_assoc|].
  destruct (is_true (graph (options s))); simpl; intros ev Hev;
    repeat (apply elem_of_cons in Hev as [->|Hev]; [eauto|]);
    by apply elem_of_nil in Hev.
Qed.

Lemma on_fail_tail s done err :
  ∃ tail, effects (on_fail s true done err) = done ++ tail ∧
          ∀ ev, ev ∈ tail → is_report ev.
Proof.
  unfold on_fail, is_report.
  destruct (negb (isStrict s) && is_target_not_found err),
    (is_true (graph (options s))); simpl; rewrite <- ?app_assoc;
    (eexists; split; [reflexivity|]); intros ev Hev;
    repeat (apply elem_of_cons in Hev as [->|Hev]; [eauto|]);
    by apply elem_of_nil in Hev.
Qed.

(** X15. What a run does to the platform.  [build] is called exactly when
    [init] succeeded, with the targets as the first lines of the function
    settle them; the cache is loaded unless the options say
    [cache: false]; it is saved exactly when the build succeeded, and the
    platform is destructed exactly when saving succeeded too: after a
    failure of any of the three the platform is left as it is.  The calls
    come in this order: what precedes [build] prepares it, and the cache is
    loaded there; between [build] and [saveCacheAsync] there are only
    reports; [destruct] follows [saveCacheAsync] at once, and after it only
    the profile is made; a failure is followed by reports only.  The
    finished message is logged as soon as the build has succeeded: when
    [saveCacheAsync] fails afterwards with an error that is not swallowed,
    the log holds it, followed by ['build failed']. *)
Theorem make_releases_the_platform (args : list JsArg) :
  let r := make args in
  let s := settings_of args in
  (∀ t, Build t ∈ effects r ↔ init_failure = None ∧ t = targets s) ∧
  (LoadCache ∈ effects r ↔ init_failure = None ∧ cache (options s) ≠ Some false) ∧
  (SaveCacheAsync ∈ effects r ↔ init_failure = None ∧ build_failure = None) ∧
  (Destruct ∈ effects r ↔ first_failure = None) ∧
  (init_failure = None →
     ∃ pre after,
       effects r = init_call s :: pre ++ Build (targets s) :: after ∧
       (∀ ev, ev ∈ pre → is_setup ev) ∧
       (LoadCache ∈ pre ↔ cache (options s) ≠ Some false) ∧
       match build_failure with
       | Some _ => ∀ ev, ev ∈ after → is_report ev
       | None =>
           ∃ between rest,
             after = between ++ SaveCacheAsync :: rest ∧
             (∀ ev, ev ∈ between → is_report ev) ∧
             match save_failure with
             | Some _ => ∀ ev, ev ∈ rest → is_report ev
             | None => ∃ calls, rest = Destruct :: calls ∧
                                ∀ ev, ev ∈ calls → is_calculation ev
             end
       end) ∧
  (∀ e, init_failure = None → build_failure = None → save_failure = Some e →
        isStrict s = true ∨ kind e ≠ TargetNotFoundEror →
        messages (effects r) = [BuildStarted; BuildFinished finish_ms; BuildFailed]).
Proof.
  intros r s. unfold r, make, first_failure. fold s.
  pose proof (profile_no_platform_call s) as Hprofile.
  split_and!.
  - intros t.
    destruct init_failure, build_failure, save_failure; cbn [effects]; platform_calls;
      (split; [intros H | intros [? ->]; try done; auto 10]).
    1-7: which_call H; injection H as ->; done.
    destruct H as [H|[H|[H|[H|H]]]]; which_call H; [by injection H as ->|].
    destruct (Hprofile _ H) as [Ht _]. by destruct (Ht t).
  - pose proof (useCache_true args) as Hcache. fold s in Hcache. rewrite <- Hcache.
    clear Hcache.
    destruct init_failure, build_failure, save_failure; cbn [effects]; platform_calls;
      (split; [intros H | intros [? Hc]; try done; auto 10]).
    1-7: by which_call H.
    destruct H as [H|[H|[H|[H|H]]]]; which_call H.
    by destruct (Hprofile _ H) as (_ & ? & _).
  - destruct init_failure, build_failure, save_failure; cbn [effects]; platform_calls;
      (split; [intros H; by which_call H | intros [? ?]; try done; auto 10]).
  - destruct init_failure, build_failure, save_failure; cbn [effects]; platform_calls;
      (split; [intros H; try done; by which_call H | intros ?; try done; auto 10]).
  - intros ->.
    destruct (before_build_split s) as (pre & Hpre & Hsetup & Hload).
    destruct (after_build_split s) as (between & Hbetween & Hreports).
    pose proof (useCache_true args) as Hcache. fold s in Hcache.
    rewrite Hcache in Hload. exists pre.
    destruct build_failure as [e1|].
    { destruct (on_fail_tail s (init_call s :: before_build s) e1)
        as (tail & -> & Htail).
      exists tail. split_and!; [|done|done|done].
      rewrite Hpre. simpl. by rewrite <- app_assoc. }
    destruct save_failure as [e2|].
    { destruct (on_fail_tail s (init_call s :: before_build s ++ after_build s) e2)
        as (tail & -> & Htail).
      exists (between ++ SaveCacheAsync :: tail). split_and!; [|done|done|].
      - rewrite Hpre, Hbetween. simpl. by rewrite <- !app_assoc.
      - by exists between, tail. }
    exists (between ++ SaveCacheAsync :: Destruct :: (profile s).1).
    split_and!; [|done|done|].
    + cbn [effects]. rewrite Hpre, Hbetween. simpl. by rewrite <- !app_assoc.
    + exists between, (Destruct :: (profile s).1). split_and!; [done | done |].
      exists (profile s).1. split; [done | apply profile_calls].
  - intros e -> -> -> Hwhy.
    destruct (on_fail_outcome s true (init_call s :: before_build s ++ after_build s) e)
      as [_ ->].
    change (init_call s :: ?l) with ([init_call s] ++ l).
    rewrite !messages_app, messages_before_build, messages_after_build.
    assert (negb (isStrict s) && is_target_not_found e = false) as ->; [|done].
    destruct Hwhy as [-> | Hk]; [done|]. unfold is_target_not_found.
    rewrite bool_decide_eq_false_2 by done. apply andb_false_r.
Qed.

End Make.

End MakeApi.
